(** * airadar: the trend-detection engine

    A shallow embedding of the trend engine of airadar (package [trend]:
    [Engine.Detect], [llmFilter], [clusterItems], [scoreCluster],
    [itemVelocity], [significantTokens], [jaccardSimilarity],
    [LLMEvaluator.EvaluateItems]) together with the parts of packages
    [source] and [store] it uses, and the properties of the engine.

    Conventions of the embedding.
    - A Go [string] is a byte string ([string] of the Standard Library).
    - A Go [int] is a [Z]; where the code does integer arithmetic the
      64-bit two's-complement wrap-around is written out ([int64_wrap]).
    - A Go [float64] is an exact rational ([Q]); rounding is not modelled.
      The two threshold tests of the engine ([>= 0.3] on a quotient of two
      small integers, [< 0.1] on a whole number of nanoseconds over
      3.6e12) have the same truth value on binary64 and on rationals.
    - A Go function returning [(T, error)] returns a pair [T * option error];
      [nil] slices and empty slices are both [[]].
    - Effects (the store, the clock, the HTTP client, standard output) are
      methods of an abstract world; code using them is written in a state
      monad that can also fail to produce a result.
    - Go library functions that the repository only calls (package
      [strings], [unicode], [sort], [encoding/json]) are the fields of
      the class [GoLib].
    - A [time.Time] is its instant; its location matters in one place,
      the comparison of a bound with the rows of the store, and is kept
      there as the offset of the zone from UTC. *)

From Stdlib Require Import QArith Qminmax Lqa ZArith Ascii String DecimalString.
From stdpp Require Import gmap strings list fin_maps relations sorting.

(** ** Numbers, time and errors *)

Definition float64 : Type := Q.

Definition int64_wrap (z : Z) : Z := ((z + 2 ^ 63) mod 2 ^ 64 - 2 ^ 63)%Z.

Definition int64_min : Z := (- 2 ^ 63)%Z.
Definition int64_max : Z := (2 ^ 63 - 1)%Z.

(** [time.Time] as nanoseconds since the epoch, [time.Duration] as a
    signed 64-bit count of nanoseconds. The offset of a time zone from
    UTC is a [Duration], positive east of Greenwich. *)
Definition Time : Type := Z.
Definition Duration : Type := Z.

Definition Hour : Duration := 3600000000000%Z.

(** [t.Add(d)]. *)
Definition time_Add (t : Time) (d : Duration) : Time := (t + d)%Z.

(** [t.Sub(u)]: the difference, saturated to the range of a Duration. *)
Definition time_Sub (t u : Time) : Duration :=
  let d := (t - u)%Z in
  if (d <? int64_min)%Z then int64_min
  else if (int64_max <? d)%Z then int64_max
  else d.

(** [d.Hours()]: whole hours plus the remaining nanoseconds over 3.6e12
    (Go's [/] and [%] on integers truncate toward zero). *)
Definition Duration_Hours (d : Duration) : float64 :=
  (inject_Z (Z.quot d Hour) + inject_Z (Z.rem d Hour) / inject_Z Hour)%Q.

(** [float64(n)] for an integer [n]. *)
Definition float64_of_int (n : Z) : float64 := inject_Z n.

Definition Qgtb (x y : Q) : bool := negb (Qle_bool x y).
Definition Qltb (x y : Q) : bool := negb (Qle_bool y x).
Definition Qgeb (x y : Q) : bool := Qle_bool y x.

(** Go's [error] values: a message, or an error wrapped by [fmt.Errorf]
    with the text before its [%w] and, where there is some, the text
    after it. *)
Inductive error : Type :=
  | errorString (msg : string)
  | wrapError (before : string) (inner : error)
  | wrapErrorf (before : string) (inner : error) (after : string).

(** ** Package source *)

Definition SourceType : Type := string.

Module Item.
(** [source.Item]; the open-ended [Extra] map and the two JSON columns,
    which the engine never reads, are left out. *)
Record t : Type := mk {
  ID : string;
  Source : SourceType;
  ExternalID : string;
  Title : string;
  URL : string;
  Description : string;
  Author : string;
  Score : Z;
  Comments : Z;
  Tags : list string;
  PublishedAt : Time;
  CollectedAt : Time
}.

Definition with_Title (title : string) (it : t) : t :=
  mk (ID it) (Source it) (ExternalID it) title (URL it) (Description it)
     (Author it) (Score it) (Comments it) (Tags it) (PublishedAt it)
     (CollectedAt it).
End Item.

(** ** Package store *)

Module Snapshot.
Record t : Type := mk {
  ID : Z;
  ItemID : string;
  Score : Z;
  Comments : Z;
  CheckedAt : Time
}.
End Snapshot.

Module Trend.
Record t : Type := mk {
  ID : Z;
  Topic : string;
  Score : float64;
  SourceCount : Z;
  ItemIDs : list string;
  FirstSeen : Time;
  LastUpdated : Time;
  Alerted : bool
}.
End Trend.

Module ListOpts.
Record t : Type := mk {
  Source : SourceType;
  Since : Time;
  Limit : Z
}.
End ListOpts.

(** ** The Go library *)

Definition rune : Type := N.

Module LLMResult.
Record t : Type := mk {
  ID : string;
  Score : Z;
  Reason : string;
  Topic : string
}.
End LLMResult.

Class GoLib : Type := {
  strings_ToLower : string → string;
  strings_FieldsFunc : string → (rune → bool) → list string;
  strings_TrimSpace : string → string;
  unicode_IsLetter : rune → bool;
  unicode_IsDigit : rune → bool;
  (** [sort.Slice(x, less)], returning the sorted slice. *)
  sort_Slice : ∀ A : Type, list A → (A → A → bool) → list A;
  (** [json.Unmarshal([]byte(raw), &results)] for [results []LLMResult]. *)
  json_Unmarshal_results : string → list LLMResult.t * option error;
  (** [json.NewDecoder(body).Decode(&result)] for the chat-completions
      reply: the [content] of every choice's message. *)
  json_Decode_openai : string → list string * option error;
  (** The same for the messages reply: the [text] of every content block. *)
  json_Decode_anthropic : string → list string * option error;
  (** [json.Marshal(payload)] for the two request payloads. *)
  json_Marshal_openai : string → string → string;
  json_Marshal_anthropic : string → string → string;
  (** [http.NewRequestWithContext] fails on a malformed URL. *)
  http_NewRequest : string → option error;
  (** [%d] of [fmt]. *)
  fmt_int : Z → string;
  (** [%v] of the map that [json.NewDecoder(body).Decode(&errResp)] fills
      from the body of an error reply. *)
  fmt_errResp : string → string
}.

(** What [sort.Slice] promises when [less] is a strict weak order: the
    result is a rearrangement of the input in which no element is [less]
    than one before it. *)
Definition strict_weak_order {A : Type} (less : A → A → bool) : Prop :=
  (∀ a, less a a = false) ∧
  (∀ a b c, less a b = true → less b c = true → less a c = true) ∧
  (∀ a b c, less a b = false → less b a = false →
            less b c = false → less c b = false →
            less a c = false ∧ less c a = false).

Definition sort_Slice_contract (G : GoLib) : Prop :=
  ∀ (A : Type) (l : list A) (less : A → A → bool),
    strict_weak_order less →
    sort_Slice A l less ≡ₚ l ∧
    StronglySorted (λ a b, less b a = false) (sort_Slice A l less).

(** ** Byte-string helpers of package strings that need no tables *)

Definition strings_HasPrefix (s p : string) : bool := String.prefix p s.

(** [s[i:]] and [s[:j]]. *)
Definition slice_from (i : nat) (s : string) : string :=
  String.substring i (String.length s - i) s.
Definition slice_to (j : nat) (s : string) : string :=
  String.substring 0 j s.

Definition strings_HasSuffix (s suf : string) : bool :=
  (String.length suf <=? String.length s) &&
  String.eqb (slice_from (String.length s - String.length suf) s) suf.

(** [strings.Index(s, sub)]; [None] stands for -1. *)
Definition strings_Index (s sub : string) : option nat := String.index 0 sub s.

Definition newline : string := String (ascii_of_nat 10) EmptyString.
Definition fence : string := "```".

(** ** Similarity tokenizer *)

Definition stopwords : gset string := list_to_set [
  "a"; "an"; "the"; "and"; "or";
  "but"; "in"; "on"; "at"; "to";
  "for"; "of"; "with"; "by"; "from";
  "is"; "are"; "was"; "were"; "be";
  "been"; "being"; "have"; "has"; "had";
  "do"; "does"; "did"; "will"; "would";
  "could"; "should"; "may"; "might";
  "this"; "that"; "these"; "those";
  "it"; "its"; "i"; "we"; "you";
  "he"; "she"; "they"; "my"; "your";
  "how"; "what"; "when"; "where"; "why";
  "not"; "no"; "new"; "just"; "about";
  "up"; "out"; "if"; "so"; "can";
  "all"; "more"; "also"; "than"; "very"
]%string.

Definition significantTokens `{GoLib} (title : string) : list string :=
  let words :=
    strings_FieldsFunc (strings_ToLower title)
      (λ r, negb (unicode_IsLetter r) && negb (unicode_IsDigit r)) in
  filter (λ w, 2 ≤ String.length w ∧ w ∉ stopwords) words.

(** ** Jaccard similarity *)

Definition jaccardSimilarity (a b : list string) : float64 :=
  if (length a =? 0) || (length b =? 0) then 0%Q
  else
    let setA : gset string := list_to_set a in
    let setB : gset string := list_to_set b in
    let intersection : Z :=
      Z.of_nat (length (filter (λ t, t ∈ setB) (elements setA))) in
    let unionSize : Z :=
      (Z.of_nat (size setA) + Z.of_nat (size setB) - intersection)%Z in
    if (unionSize =? 0)%Z then 0%Q
    else (float64_of_int intersection / float64_of_int unionSize)%Q.

Definition threshold : float64 := (3 # 10)%Q.

(** ** A state monad that may fail to produce a result

    [None] stands for a run that does not return: a Go panic (index out of
    range) or a recursion that exhausts its fuel. *)

Definition M (S A : Type) : Type := S → option (A * S).

Definition st_ret {S A : Type} (a : A) : M S A := λ s, Some (a, s).

Definition st_bind {S A B : Type} (m : M S A) (k : A → M S B) : M S B :=
  λ s, match m s with
       | Some (a, s') => k a s'
       | None => None
       end.

Definition st_fail {S A : Type} : M S A := λ _, None.

Notation "x <~ m ; k" := (st_bind m (λ x, k))
  (at level 20, m at level 100, k at level 200, only parsing).
Notation "' p <~ m ; k" := (st_bind m (λ x, match x with p => k end))
  (at level 20, p pattern, m at level 100, k at level 200, only parsing).

(** [for _, a := range l { acc = body(a, acc) }]. *)
Fixpoint st_foldl {S A B : Type} (body : B → A → M S B) (acc : B)
    (l : list A) : M S B :=
  match l with
  | [] => st_ret acc
  | a :: l' => acc' <~ body acc a; st_foldl body acc' l'
  end.

(** Run [f] on every element in turn and collect the results. *)
Fixpoint st_mapM {S A B : Type} (f : A → M S B) (l : list A) : M S (list B) :=
  match l with
  | [] => st_ret []
  | a :: l' => b <~ f a; bs <~ st_mapM f l'; st_ret (b :: bs)
  end.

Definition st_for {S A : Type} (l : list A) (body : A → M S unit) : M S unit :=
  st_foldl (λ _ a, body a) tt l.

(** ** Clustering: union-find over the indices of the items *)

Module TopicCluster.
Record t : Type := mk {
  Topic : string;
  Items : list Item.t;
  Sources : gset SourceType;
  TotalScore : Z;
  MaxVelocity : float64
}.
End TopicCluster.

(** The slice [uf] of [node]s, each holding only [parent]. *)
Abbreviation uf_state := (list nat) (only parsing).

(** [uf[x].parent] and [uf[x].parent = v]; both panic out of range. *)
Definition uf_read (x : nat) : M uf_state nat :=
  λ uf, match uf !! x with
        | Some p => Some (p, uf)
        | None => None
        end.

Definition uf_write (x v : nat) : M uf_state unit :=
  λ uf, if decide (x < length uf) then Some (tt, <[x:=v]> uf) else None.

(** The closure [find]; it recurses along parent links, so the model
    takes fuel. *)
Fixpoint find (fuel : nat) (x : nat) : M uf_state nat :=
  match fuel with
  | 0 => st_fail
  | S fuel' =>
      p <~ uf_read x;
      _ <~ (if decide (p ≠ x)
            then r <~ find fuel' p; uf_write x r
            else st_ret tt);
      uf_read x
  end.

(** The closure [union]. *)
Definition union (fuel : nat) (x y : nat) : M uf_state unit :=
  px <~ find fuel x;
  py <~ find fuel y;
  if decide (px ≠ py) then uf_write px py else st_ret tt.

(** [jaccardSimilarity(tokens[i], tokens[j]) >= 0.3]. *)
Definition similar (tokens : list (list string)) (i j : nat) : bool :=
  Qgeb (jaccardSimilarity (tokens !!! i) (tokens !!! j)) threshold.

(** The double loop comparing all pairs [i < j]. *)
Definition compareAll (n : nat) (tokens : list (list string)) : M uf_state unit :=
  st_for (seq 0 n) (λ i,
    st_for (seq (i + 1) (n - (i + 1))) (λ j,
      if similar tokens i j then union n i j else st_ret tt)).

(** The loop grouping the indices by root. *)
Definition groupByRoot (n : nat) : M uf_state (gmap nat (list nat)) :=
  st_foldl (λ (groups : gmap nat (list nat)) i,
      root <~ find n i;
      st_ret (<[root := default [] (groups !! root) ++ [i]]> groups))
    ∅ (seq 0 n).

(** The loop tokenizing all titles. *)
Definition titleTokens `{GoLib} (items : list Item.t) : list (list string) :=
  map (λ item, significantTokens (Item.Title item)) items.

(** The first half of [clusterItems]: the map [groups]. *)
Definition clusterGroups `{GoLib} (items : list Item.t)
    : option (gmap nat (list nat)) :=
  let n := length items in
  let uf : uf_state := seq 0 n in
  let tokens := titleTokens items in
  fst <$> (_ <~ compareAll n tokens; groupByRoot n) uf.

(** The body of the loop over [groups]: one cluster from its indices. *)
Definition buildCluster (items : list Item.t) (indices : list nat)
    : option TopicCluster.t :=
  '(sources, clusterItems, totalScore) ←
    foldl (λ acc idx,
        '(sources, clusterItems, totalScore) ← acc;
        item ← items !! idx;
        Some ({[Item.Source item]} ∪ sources, clusterItems ++ [item],
              int64_wrap (totalScore + Item.Score item)))
      (Some (∅ : gset SourceType, [], 0%Z)) indices;
  first ← head clusterItems;
  let best :=
    foldl (λ best item,
        if (Item.Score item >? Item.Score best)%Z then item else best)
      first clusterItems in
  Some (TopicCluster.mk (Item.Title best) clusterItems sources totalScore 0%Q).

(** [clusterItems]; the iteration order of a Go map is unspecified, the
    model visits [groups] in the order of [map_to_list]. *)
Definition clusterItems `{GoLib} (items : list Item.t)
    : option (list TopicCluster.t) :=
  groups ← clusterGroups items;
  mapM (buildCluster items) (snd <$> map_to_list groups).

(** ** The world the engine runs in *)

Module Request.
Record t : Type := mk {
  URL : string;
  Header : list (string * string);
  Body : string
}.
End Request.

(** What [client.Do(req)] can give back: a transport error, or a response
    with its status code and body. *)
Inductive http_outcome : Type :=
  | http_failed (err : error)
  | http_response (StatusCode : Z) (Body : string).

(** The lines the engine prints on standard output, by call site. *)
Inductive log_line : Type :=
  | log_llm_error (err : error)
  | log_upsert_error (err : error)
  | log_llm_passed (kept total : nat).

(** The methods of [store.Store] used by the engine, the clock, the HTTP
    client and standard output. Every method may change the world. *)
Class World (W : Type) : Type := {
  store_ListItems : ListOpts.t → W → (list Item.t * option error) * W;
  store_GetSnapshots : string → Time → W → (list Snapshot.t * option error) * W;
  store_ClearTrends : W → option error * W;
  (** [UpsertTrend] takes a pointer; the trend it leaves behind is returned. *)
  store_UpsertTrend : Trend.t → W → (Trend.t * option error) * W;
  time_Now : W → Time * W;
  http_Do : Request.t → W → http_outcome * W;
  fmt_Printf : log_line → W → unit * W
}.

Definition call {W A : Type} (f : W → A * W) : M W A := λ w, Some (f w).

(** A pure computation that may panic, run inside the world. *)
Definition pure_or_panic {W A : Type} (o : option A) : M W A :=
  λ w, match o with
       | Some a => Some (a, w)
       | None => None
       end.

(** ** LLM evaluator *)

Module LLMEvaluator.
(** The [client] field is the world's HTTP client. *)
Record t : Type := mk {
  provider : string;
  model : string;
  apiKey : string;
  baseURL : string;
  minScore : float64
}.
End LLMEvaluator.

Definition dq : string := String (ascii_of_nat 34) EmptyString.
Definition quoted (s : string) : string := dq ++ s ++ dq.
Definition lines (l : list string) : string := String.concat newline l.

(** The constant [batchPrompt], before and after its [%s]. *)
Definition batchPrompt_before : string := lines [
  "You are an AI trend analyst. Your job is to evaluate a batch of items collected from various sources (Hacker News, GitHub, Reddit, ArXiv, RSS feeds, etc.) and identify which ones represent genuinely important, trending AI products, tools, research, or news.";
  EmptyString;
  "For each item, assign:";
  "1. " ++ quoted "score" ++ " (0-10): How important/trending is this for the AI community?";
  "   - 9-10: Breakthrough product launch, major model release, industry-shaking news";
  "   - 7-8: Notable new tool, significant research paper, important industry update";
  "   - 5-6: Interesting but not exceptional, niche AI tool, incremental update";
  "   - 3-4: Tangentially AI-related, low novelty";
  "   - 0-2: Not actually AI-related, spam, or irrelevant noise";
  "2. " ++ quoted "reason" ++ " (1 sentence): Why this score?";
  "3. " ++ quoted "topic" ++ " (short phrase): A clean, normalized topic label for grouping (e.g., "
    ++ quoted "Claude 4 Release" ++ ", " ++ quoted "Stable Diffusion 4.0" ++ ")";
  EmptyString;
  "IMPORTANT: Be strict. Most items should score 5 or below. Only truly significant items deserve 7+. We want to surface signal, not noise.";
  EmptyString;
  "Items to evaluate:";
  EmptyString
]%string.

Definition batchPrompt_after : string := lines [
  EmptyString;
  EmptyString;
  "Respond with a JSON array. Each element must have: " ++ quoted "id"
    ++ " (the item ID), " ++ quoted "score" ++ " (integer 0-10), "
    ++ quoted "reason" ++ " (string), " ++ quoted "topic" ++ " (string).";
  "Example: [{" ++ quoted "id" ++ ":" ++ quoted "hackernews:123" ++ ","
    ++ quoted "score" ++ ":8," ++ quoted "reason" ++ ":"
    ++ quoted "Major new open-source LLM release" ++ "," ++ quoted "topic"
    ++ ":" ++ quoted "Llama 4 Release" ++ "}]";
  EmptyString;
  "Return ONLY the JSON array, no other text."
]%string.

Definition truncateStr (s : string) (n : nat) : string :=
  if String.length s <=? n then s else (slice_to n s ++ "...")%string.

(** The line of the prompt for one item. *)
Definition promptLine `{GoLib} (item : Item.t) : string :=
  let line :=
    ("- ID: " ++ Item.ID item ++ " | Source: " ++ Item.Source item
     ++ " | Score: " ++ fmt_int (Item.Score item)
     ++ " | Title: " ++ Item.Title item)%string in
  let line :=
    if String.eqb (Item.Description item) EmptyString then line
    else
      let desc := Item.Description item in
      let desc :=
        if 200 <? String.length desc
        then (slice_to 200 desc ++ "...")%string else desc in
      (line ++ " | Desc: " ++ desc)%string in
  if String.eqb (Item.URL item) EmptyString then line
  else (line ++ " | URL: " ++ Item.URL item)%string.

Section Evaluator.
Context `{GoLib} {W : Type} `{World W}.

Definition callOpenAI (e : LLMEvaluator.t) (prompt : string)
    : M W (string * option error) :=
  let baseURL :=
    if String.eqb (LLMEvaluator.baseURL e) EmptyString
    then "https://api.openai.com"%string else LLMEvaluator.baseURL e in
  let body := json_Marshal_openai (LLMEvaluator.model e) prompt in
  let url := (baseURL ++ "/v1/chat/completions")%string in
  match http_NewRequest url with
  | Some err =>
      st_ret (EmptyString, Some (wrapError "create openai request: " err))
  | None =>
      let req := Request.mk url
        [("Content-Type", "application/json");
         ("Authorization", "Bearer " ++ LLMEvaluator.apiKey e)]%string body in
      resp <~ call (http_Do req);
      match resp with
      | http_failed err =>
          st_ret (EmptyString, Some (wrapError "call openai: " err))
      | http_response status rbody =>
          if negb (status =? 200)%Z
          then st_ret (EmptyString,
                 Some (errorString ("openai status " ++ fmt_int status
                                    ++ ": " ++ fmt_errResp rbody)))
          else
            let '(choices, derr) := json_Decode_openai rbody in
            match derr with
            | Some err =>
                st_ret (EmptyString,
                   Some (wrapError "decode openai response: " err))
            | None =>
                match choices with
                | [] => st_ret (EmptyString,
                          Some (errorString "openai: no choices returned"))
                | content :: _ => st_ret (content, None)
                end
            end
      end
  end.

Definition callAnthropic (e : LLMEvaluator.t) (prompt : string)
    : M W (string * option error) :=
  let baseURL :=
    if String.eqb (LLMEvaluator.baseURL e) EmptyString
    then "https://api.anthropic.com"%string else LLMEvaluator.baseURL e in
  let body := json_Marshal_anthropic (LLMEvaluator.model e) prompt in
  let url := (baseURL ++ "/v1/messages")%string in
  match http_NewRequest url with
  | Some err =>
      st_ret (EmptyString, Some (wrapError "create anthropic request: " err))
  | None =>
      let req := Request.mk url
        [("Content-Type", "application/json");
         ("x-api-key", LLMEvaluator.apiKey e);
         ("anthropic-version", "2023-06-01")]%string body in
      resp <~ call (http_Do req);
      match resp with
      | http_failed err =>
          st_ret (EmptyString, Some (wrapError "call anthropic: " err))
      | http_response status rbody =>
          if negb (status =? 200)%Z
          then st_ret (EmptyString,
                 Some (errorString ("anthropic status " ++ fmt_int status
                                    ++ ": " ++ fmt_errResp rbody)))
          else
            let '(content, derr) := json_Decode_anthropic rbody in
            match derr with
            | Some err =>
                st_ret (EmptyString,
                   Some (wrapError "decode anthropic response: " err))
            | None =>
                match content with
                | [] => st_ret (EmptyString,
                          Some (errorString "anthropic: no content returned"))
                | text :: _ => st_ret (text, None)
                end
            end
      end
  end.

(** The code-fence handling of [EvaluateItems]. *)
Definition stripFence (raw : string) : string :=
  let raw := strings_TrimSpace raw in
  if strings_HasPrefix raw fence then
    let raw :=
      match strings_Index (slice_from 3 raw) newline with
      | Some idx => slice_from (3 + idx + 1) raw
      | None => raw
      end in
    let raw :=
      if strings_HasSuffix raw fence
      then slice_to (String.length raw - 3) raw else raw in
    strings_TrimSpace raw
  else raw.

Definition EvaluateItems (e : LLMEvaluator.t) (items : list Item.t)
    : M W (list LLMResult.t * option error) :=
  if length items =? 0 then st_ret ([], None)
  else
    let prompt :=
      (batchPrompt_before ++ lines (map promptLine items)
       ++ batchPrompt_after)%string in
    '(raw, err) <~
      (if String.eqb (LLMEvaluator.provider e) "anthropic"
       then callAnthropic e prompt else callOpenAI e prompt);
    match err with
    | Some err => st_ret ([], Some err)
    | None =>
        let raw := stripFence raw in
        let '(results, perr) := json_Unmarshal_results raw in
        match perr with
        | Some err =>
            st_ret ([], Some (wrapErrorf "parse llm response: " err
                                (newline ++ "raw: " ++ truncateStr raw 500)))
        | None =>
            st_ret (filter (λ r, Qgeb (float64_of_int (LLMResult.Score r))
                                      (LLMEvaluator.minScore e) = true)
                           results, None)
        end
    end.
End Evaluator.

Definition NewLLMEvaluator (provider model apiKey baseURL : string)
    (minScore : float64) : LLMEvaluator.t :=
  let model :=
    if String.eqb model EmptyString
    then (if String.eqb provider "anthropic"
          then "claude-sonnet-4-20250514" else "gpt-4o-mini")%string
    else model in
  let minScore := if Qle_bool minScore 0 then 6%Q else minScore in
  LLMEvaluator.mk provider model apiKey baseURL minScore.

(** ** The engine *)

Module Engine.
(** The [store] field is the world's store. *)
Record t : Type := mk {
  velocityWeight : float64;
  crossSourceWeight : float64;
  absoluteWeight : float64;
  llm : option LLMEvaluator.t
}.
End Engine.

Definition NewEngine (velocityW crossSourceW absoluteW : float64)
    (llm : option LLMEvaluator.t) : Engine.t :=
  if Qeq_bool (velocityW + crossSourceW + absoluteW) 0
  then Engine.mk (3 # 10) (5 # 10) (2 # 10) llm
  else Engine.mk velocityW crossSourceW absoluteW llm.

(** The absolute component of [scoreCluster]: from [TotalScore] and the
    number of items. *)
Definition absoluteScore (totalScore : Z) (count : nat) : float64 :=
  if (totalScore >? 0)%Z then
    let avg := (float64_of_int totalScore / float64_of_int (Z.of_nat count))%Q in
    if Qgtb avg 1000 then 100%Q
    else if Qgtb avg 100 then (60 + (avg - 100) / 900 * 40)%Q
    else if Qgtb avg 10 then (20 + (avg - 10) / 90 * 40)%Q
    else (avg / 10 * 20)%Q
  else 0%Q.

(** The cross-source component of [scoreCluster]. *)
Definition crossScore (sources : gset SourceType) : float64 :=
  let crossScore := (float64_of_int (Z.of_nat (size sources)) * 20)%Q in
  if Qgtb crossScore 100 then 100%Q else crossScore.

(** The trend record [Detect] builds for a cluster. *)
Definition newTrend (cluster : TopicCluster.t) (score : float64) (now : Time)
    : Trend.t :=
  Trend.mk 0 (TopicCluster.Topic cluster) score
    (Z.of_nat (size (TopicCluster.Sources cluster)))
    (map Item.ID (TopicCluster.Items cluster)) now now false.

Section Engine.
Context `{GoLib} {W : Type} `{World W}.

Definition llmFilter (llm : LLMEvaluator.t) (items : list Item.t)
    : M W (list Item.t * option error) :=
  '(results, err) <~ EvaluateItems llm items;
  match err with
  | Some err => st_ret (items, Some err)
  | None =>
      if length results =? 0 then st_ret ([], None)
      else
        let resultMap : gmap string LLMResult.t :=
          foldl (λ m r, <[LLMResult.ID r := r]> m) ∅ results in
        let filtered :=
          foldl (λ filtered item,
              match resultMap !! Item.ID item with
              | Some r =>
                  let item :=
                    if negb (String.eqb (LLMResult.Topic r) EmptyString)
                    then Item.with_Title (LLMResult.Topic r) item
                    else item in
                  filtered ++ [item]
              | None => filtered
              end) [] items in
        _ <~ call (fmt_Printf (log_llm_passed (length filtered) (length items)));
        st_ret (filtered, None)
  end.

Definition itemVelocity (item : Item.t) : M W float64 :=
  now <~ call time_Now;
  '(snaps, err) <~
    call (store_GetSnapshots (Item.ID item) (time_Add now (-6 * Hour)%Z));
  match err, head snaps, last snaps with
  | None, Some first, Some lst =>
      if length snaps <? 2 then st_ret 0%Q
      else
        let hours :=
          Duration_Hours
            (time_Sub (Snapshot.CheckedAt lst) (Snapshot.CheckedAt first)) in
        if Qltb hours (1 # 10) then st_ret 0%Q
        else
          let scoreDelta :=
            float64_of_int
              (int64_wrap (Snapshot.Score lst - Snapshot.Score first)) in
          let velocity := (scoreDelta / hours)%Q in
          st_ret velocity
  | _, _, _ => st_ret 0%Q
  end.

(** The velocity component of [scoreCluster]. *)
Definition velocityScore (items : list Item.t) : M W float64 :=
  velocityScore <~
    st_foldl (λ velocityScore item,
        v <~ itemVelocity item;
        st_ret (if Qgtb v velocityScore then v else velocityScore))
      0%Q items;
  st_ret (if Qgtb velocityScore 100 then 100%Q else velocityScore).

Definition scoreCluster (e : Engine.t) (cluster : TopicCluster.t)
    : M W float64 :=
  let crossScore := crossScore (TopicCluster.Sources cluster) in
  velocityScore <~ velocityScore (TopicCluster.Items cluster);
  let absoluteScore :=
    absoluteScore (TopicCluster.TotalScore cluster)
                  (length (TopicCluster.Items cluster)) in
  st_ret (crossScore * Engine.crossSourceWeight e
          + velocityScore * Engine.velocityWeight e
          + absoluteScore * Engine.absoluteWeight e)%Q.

(** One turn of the loop of [Detect] over the clusters. *)
Definition detectCluster (e : Engine.t) (now : Time)
    (trends : list Trend.t) (cluster : TopicCluster.t)
    : M W (list Trend.t) :=
  score <~ scoreCluster e cluster;
  let trend := newTrend cluster score now in
  '(trend, err) <~ call (store_UpsertTrend trend);
  match err with
  | Some err =>
      _ <~ call (fmt_Printf (log_upsert_error err));
      st_ret trends
  | None => st_ret (trends ++ [trend])
  end.

(** [Detect] from the clustering on: cluster, score, persist, sort. *)
Definition detectItems (e : Engine.t) (items : list Item.t)
    : M W (list Trend.t * option error) :=
  clusters <~ pure_or_panic (clusterItems items);
  now <~ call time_Now;
  trends <~ st_foldl (detectCluster e now) [] clusters;
  let trends :=
    sort_Slice _ trends
      (λ ti tj, Qgtb (Trend.Score ti) (Trend.Score tj)) in
  st_ret (trends, None).

Definition Detect (e : Engine.t) : M W (list Trend.t * option error) :=
  now <~ call time_Now;
  '(items, err) <~
    call (store_ListItems
            (ListOpts.mk EmptyString (time_Add now (-24 * Hour)%Z) 1000));
  match err with
  | Some err => st_ret ([], Some (wrapError "list recent items: " err))
  | None =>
      if length items =? 0 then st_ret ([], None)
      else
        err <~ call store_ClearTrends;
        match err with
        | Some err => st_ret ([], Some (wrapError "clear trends: " err))
        | None =>
            match Engine.llm e with
            | Some llm =>
                '(items, err) <~ llmFilter llm items;
                _ <~ match err with
                     | Some err => call (fmt_Printf (log_llm_error err))
                     | None => st_ret tt
                     end;
                if length items =? 0 then st_ret ([], None)
                else detectItems e items
            | None => detectItems e items
            end
        end
  end.
End Engine.

(** ** The SQLite store

    [SQLiteStore] as its three tables; a row of [items] is an [Item.t], and
    [trends_seq] is the last id given out for [trends] (AUTOINCREMENT).
    Timestamps are compared as instants. *)

Module SQLiteStore.
Record t : Type := mk {
  items : list Item.t;
  score_snapshots : list Snapshot.t;
  trends : list Trend.t;
  trends_seq : Z
}.
End SQLiteStore.

(** [ORDER BY key]: the rows sorted by [le]; the order among rows with
    equal keys, which SQL leaves open, is the one merge sort gives. *)
Definition order_by {A : Type} (le : A → A → bool) (l : list A) : list A :=
  merge_sort (λ a b, Is_true (le a b)) l.

(** The zero [time.Time] (January 1, year 1, UTC), for [IsZero]. *)
Definition time_zero : Time := (-62135596800 * 1000000000)%Z.

(** How a bound compares with a timestamp column. The store is opened
    without a time format, so the driver hands a [time.Time] to SQLite as
    the text of its wall clock in its own location, and [>=] compares
    texts. Every writer of the repository stamps its rows with
    [time.Now().UTC()]: a row is selected when its wall clock in UTC is
    not before the wall clock of the bound in the zone of the bound,
    [zone] being the offset of that zone (0 for a bound in UTC). Two wall
    clocks that agree to the nanosecond count as selected. *)
Definition not_before (zone : Duration) (since : Time) (stamp : Time) : Prop :=
  (time_Add since zone ≤ stamp)%Z.

#[export] Instance not_before_dec zone since stamp :
  Decision (not_before zone since stamp) :=
  decide (time_Add since zone ≤ stamp)%Z.

(** The rows selected by [GetSnapshots] for a bound in the zone [zone]:
    [WHERE item_id = ? AND checked_at >= ? ORDER BY checked_at]. *)
Definition select_snapshots (zone : Duration) (s : SQLiteStore.t)
    (itemID : string) (since : Time) : list Snapshot.t :=
  order_by (λ a b, (Snapshot.CheckedAt a <=? Snapshot.CheckedAt b)%Z)
    (filter (λ r, Snapshot.ItemID r = itemID ∧
                  not_before zone since (Snapshot.CheckedAt r))
            (SQLiteStore.score_snapshots s)).

(** The rows selected by [ListItems] for options whose bound is in the
    zone [zone]. *)
Definition select_items_in (zone : Duration) (s : SQLiteStore.t)
    (opts : ListOpts.t) : list Item.t :=
  let rows := SQLiteStore.items s in
  let rows :=
    if String.eqb (ListOpts.Source opts) EmptyString then rows
    else filter (λ r, Item.Source r = ListOpts.Source opts) rows in
  let rows :=
    if (ListOpts.Since opts =? time_zero)%Z then rows
    else filter (λ r, not_before zone (ListOpts.Since opts)
                        (Item.CollectedAt r)) rows in
  let rows :=
    order_by (λ a b, (Item.CollectedAt b <=? Item.CollectedAt a)%Z) rows in
  let limit :=
    if (ListOpts.Limit opts <=? 0)%Z then 100%Z else ListOpts.Limit opts in
  take (Z.to_nat limit) rows.

(** The rows selected by [ListItems] for options whose bound is in UTC. *)
Definition select_items (s : SQLiteStore.t) (opts : ListOpts.t)
    : list Item.t :=
  select_items_in 0%Z s opts.

(** The effect of a successful [UpsertTrend] on the table and on [*t]. *)
Definition upsert_trend (s : SQLiteStore.t) (t : Trend.t)
    : SQLiteStore.t * Trend.t :=
  if (Trend.ID t >? 0)%Z then
    (SQLiteStore.mk (SQLiteStore.items s) (SQLiteStore.score_snapshots s)
       (map (λ row,
              if (Trend.ID row =? Trend.ID t)%Z
              then Trend.mk (Trend.ID row) (Trend.Topic t) (Trend.Score t)
                     (Trend.SourceCount t) (Trend.ItemIDs t)
                     (Trend.FirstSeen row) (Trend.LastUpdated t)
                     (Trend.Alerted t)
              else row)
            (SQLiteStore.trends s))
       (SQLiteStore.trends_seq s), t)
  else
    let id := (SQLiteStore.trends_seq s + 1)%Z in
    let t' := Trend.mk id (Trend.Topic t) (Trend.Score t)
                (Trend.SourceCount t) (Trend.ItemIDs t) (Trend.FirstSeen t)
                (Trend.LastUpdated t) (Trend.Alerted t) in
    (SQLiteStore.mk (SQLiteStore.items s) (SQLiteStore.score_snapshots s)
       (SQLiteStore.trends s ++ [t']) id, t').

(** An integer in decimal. *)
Definition decimal (z : Z) : string :=
  DecimalString.NilZero.string_of_int (Z.to_int z).

(** The four statements of the engine, for fault injection. *)
Inductive statement : Type :=
  | stmt_list_items
  | stmt_get_snapshots
  | stmt_clear_trends
  | stmt_upsert_trend.

(** A world made of an SQLite store whose driver fails the statements
    chosen by [fault], a clock that advances by [tick] at every reading, a
    provider answering every request by [provider], the lines printed so
    far, and the offset [zone] of the local time zone of the process:
    [time.Now()] is in that zone, and so are the bounds the engine makes
    from it. *)
Module Sim.
Record t : Type := mk {
  db : SQLiteStore.t;
  fault : statement → option error;
  clock : Time;
  tick : Duration;
  provider : Request.t → http_outcome;
  stdout : list log_line;
  zone : Duration
}.

Definition with_db (s : SQLiteStore.t) (w : t) : t :=
  mk s (fault w) (clock w) (tick w) (provider w) (stdout w) (zone w).
End Sim.

#[export] Instance Sim_World : World Sim.t := {
  store_ListItems opts w :=
    match Sim.fault w stmt_list_items with
    | Some err => (([], Some (wrapError "list items: " err)), w)
    | None => ((select_items_in (Sim.zone w) (Sim.db w) opts, None), w)
    end;
  store_GetSnapshots itemID since w :=
    match Sim.fault w stmt_get_snapshots with
    | Some err => (([], Some (wrapError ("get snapshots " ++ itemID ++ ": ") err)), w)
    | None =>
        ((select_snapshots (Sim.zone w) (Sim.db w) itemID since, None), w)
    end;
  store_ClearTrends w :=
    match Sim.fault w stmt_clear_trends with
    | Some err => (Some err, w)
    | None =>
        (None,
         Sim.with_db
           (SQLiteStore.mk (SQLiteStore.items (Sim.db w))
              (SQLiteStore.score_snapshots (Sim.db w)) []
              (SQLiteStore.trends_seq (Sim.db w))) w)
    end;
  store_UpsertTrend t w :=
    match Sim.fault w stmt_upsert_trend with
    | Some err =>
        ((t, Some (wrapError
                     (if (Trend.ID t >? 0)%Z
                      then "update trend " ++ decimal (Trend.ID t) ++ ": "
                      else "insert trend: ") err)), w)
    | None =>
        let '(db, t') := upsert_trend (Sim.db w) t in
        ((t', None), Sim.with_db db w)
    end;
  time_Now w :=
    (Sim.clock w,
     Sim.mk (Sim.db w) (Sim.fault w) (Sim.clock w + Sim.tick w)%Z (Sim.tick w)
       (Sim.provider w) (Sim.stdout w) (Sim.zone w));
  http_Do req w := (Sim.provider w req, w);
  fmt_Printf line w :=
    (tt,
     Sim.mk (Sim.db w) (Sim.fault w) (Sim.clock w) (Sim.tick w)
       (Sim.provider w) (Sim.stdout w ++ [line]) (Sim.zone w))
}.

(** ** A stand-in for the Go library on ASCII text

    It agrees with Go on ASCII titles; the JSON functions are stubs that
    know the one reply used below. *)

Definition ascii_lower (c : ascii) : ascii :=
  let n := nat_of_ascii c in
  if (65 <=? n) && (n <=? 90) then ascii_of_nat (n + 32) else c.

Fixpoint string_map (f : ascii → ascii) (s : string) : string :=
  match s with
  | EmptyString => EmptyString
  | String c s' => String (f c) (string_map f s')
  end.

Definition ascii_IsLetter (r : rune) : bool :=
  ((65 <=? r) && (r <=? 90) || (97 <=? r) && (r <=? 122))%N.

Definition ascii_IsDigit (r : rune) : bool := ((48 <=? r) && (r <=? 57))%N.

Definition flush (cur : string) (rest : list string) : list string :=
  if String.eqb cur EmptyString then rest else cur :: rest.

Fixpoint fields (f : rune → bool) (cur : string) (s : string) : list string :=
  match s with
  | EmptyString => flush cur []
  | String c s' =>
      if f (N_of_ascii c) then flush cur (fields f EmptyString s')
      else fields f (cur ++ String c EmptyString) s'
  end.

Definition ascii_space (c : ascii) : bool :=
  let n := nat_of_ascii c in (n =? 32) || ((9 <=? n) && (n <=? 13)).

Fixpoint trim_left (s : string) : string :=
  match s with
  | EmptyString => EmptyString
  | String c s' => if ascii_space c then trim_left s' else s
  end.

Definition string_rev (s : string) : string :=
  string_of_list_ascii (rev (list_ascii_of_string s)).

Definition trim_space (s : string) : string :=
  string_rev (trim_left (string_rev (trim_left s))).

(** The chat-completions reply whose only choice has the given content
    (which must need no escaping). *)
Definition openai_reply (content : string) : string :=
  ("{" ++ quoted "choices" ++ ":[{" ++ quoted "message" ++ ":{"
   ++ quoted "content" ++ ":" ++ quoted content ++ "}}]}")%string.

#[export] Instance asciiLib : GoLib := {
  strings_ToLower := string_map ascii_lower;
  strings_FieldsFunc s f := fields f EmptyString s;
  strings_TrimSpace := trim_space;
  unicode_IsLetter := ascii_IsLetter;
  unicode_IsDigit := ascii_IsDigit;
  sort_Slice A l less := order_by (λ a b, negb (less b a)) l;
  json_Unmarshal_results raw :=
    if String.eqb raw "[]" then ([], None)
    else ([], Some (errorString "invalid character"));
  json_Decode_openai body :=
    if String.eqb body (openai_reply "[]") then (["[]"%string], None)
    else ([], Some (errorString "unexpected end of JSON input"));
  json_Decode_anthropic body :=
    ([], Some (errorString "unexpected end of JSON input"));
  json_Marshal_openai model prompt := (model ++ newline ++ prompt)%string;
  json_Marshal_anthropic model prompt := (model ++ newline ++ prompt)%string;
  http_NewRequest url := None;
  fmt_int := decimal;
  fmt_errResp body := "map[]"
}.

(** ** Notions used to state the properties *)

(** [reach uf x r d]: following parent links from [x] arrives, after [d]
    steps, at [r], which is its own parent. *)
Inductive reach (uf : uf_state) : nat → nat → nat → Prop :=
  | reach_root x : uf !! x = Some x → reach uf x x 0
  | reach_step x p r d :
      uf !! x = Some p → p ≠ x → reach uf p r d → reach uf x r (S d).

Definition root_of (uf : uf_state) (x r : nat) : Prop := ∃ d, reach uf x r d.

Definition same_set (uf : uf_state) (x y : nat) : Prop :=
  ∃ r, root_of uf x r ∧ root_of uf y r.

(** Every index has a root. *)
Definition forest (uf : uf_state) : Prop :=
  ∀ x, x < length uf → ∃ r, root_of uf x r.

(** The root of [x] as a function, total on forests. *)
Definition root_fn (uf : uf_state) (x : nat) : nat :=
  match find (length uf) x uf with
  | Some (r, _) => r
  | None => x
  end.

(** The Jaccard index of two sets of tokens: the number of tokens they
    share over the number of tokens of either, and 0 for two empty sets. *)
Definition jaccard_index (A B : gset string) : Q :=
  if decide (size (A ∪ B) = 0) then 0%Q
  else (inject_Z (Z.of_nat (size (A ∩ B)))
        / inject_Z (Z.of_nat (size (A ∪ B))))%Q.

(** The set of the significant tokens of the title of an item. *)
Definition token_set `{GoLib} (it : Item.t) : gset string :=
  list_to_set (significantTokens (Item.Title it)).

(** The titles of the items at positions [i] and [j] of [items] have a
    Jaccard index of at least 0.3. *)
Definition similar_titles `{GoLib} (items : list Item.t) (i j : nat) : Prop :=
  ∃ a b, items !! i = Some a ∧ items !! j = Some b ∧
         (3 # 10 <= jaccard_index (token_set a) (token_set b))%Q.

(** Connected by a chain of such pairs, in either direction. *)
Definition connected `{GoLib} (items : list Item.t) : relation nat :=
  rtsc (similar_titles items).

(** Positions [i] and [j] are members of one group. *)
Definition same_group (groups : list (list nat)) (i j : nat) : Prop :=
  ∃ g, g ∈ groups ∧ i ∈ g ∧ j ∈ g.

(** The items at the positions of a group; [None] if one is out of range. *)
Definition items_at (items : list Item.t) (indices : list nat)
    : option (list Item.t) :=
  mapM (λ idx, items !! idx) indices.

(** The straight line through [(x0, y0)] and [(x1, y1)], at [x]. *)
Definition line_through (x0 y0 x1 y1 x : Q) : Q :=
  (y0 + (x - x0) / (x1 - x0) * (y1 - y0))%Q.

(** The piecewise scale of the absolute component, in the words of the
    specification: 0 at 0, linear 0 to 20 on (0,10], 20 to 60 on (10,100],
    60 to 100 on (100,1000], and 100 above 1000. *)
Definition absolute_scale (mean : Q) : Q :=
  if Qeq_bool mean 0 then 0%Q
  else if Qle_bool mean 10 then line_through 0 0 10 20 mean
  else if Qle_bool mean 100 then line_through 10 20 100 60 mean
  else if Qle_bool mean 1000 then line_through 100 60 1000 100 mean
  else 100%Q.

(** The mean raw score of a cluster. *)
Definition mean_score (c : TopicCluster.t) : Q :=
  (inject_Z (TopicCluster.TotalScore c)
   / inject_Z (Z.of_nat (length (TopicCluster.Items c))))%Q.

(** The engine has the default weights. *)
Definition default_weights (e : Engine.t) : Prop :=
  (Engine.crossSourceWeight e == 5 # 10)%Q ∧
  (Engine.velocityWeight e == 3 # 10)%Q ∧
  (Engine.absoluteWeight e == 2 # 10)%Q.

(** The largest of 0 and the given velocities, but at most 100. *)
Definition floor_cap (vs : list Q) : Q := Qmin 100 (foldl Qmax 0%Q vs).


(** ** Concrete inputs *)

Definition item (id source title : string) (score : Z) : Item.t :=
  Item.mk id source id title EmptyString EmptyString EmptyString score 0%Z
    [] 0%Z 0%Z.

Definition no_fault : statement → option error := λ _, None.

Definition provider_down : Request.t → http_outcome :=
  λ _, http_response 500 EmptyString.

(** An item whose score went from 50 to 10 in two hours, read one hour
    after the second snapshot. *)
Definition declining_item : Item.t :=
  item "hackernews:1" "hackernews" "Old news" 10.

Definition declining_world : Sim.t :=
  Sim.mk
    (SQLiteStore.mk [declining_item]
       [Snapshot.mk 1 "hackernews:1" 50 3 0%Z;
        Snapshot.mk 2 "hackernews:1" 10 3 (2 * Hour)%Z] [] 0%Z)
    no_fault (3 * Hour)%Z 0%Z provider_down [] 0%Z.

(** An item whose score rose from 100 to 120 between two snapshots taken
    two hours and one hour before the clock is read, in a process on UTC
    and in a process nine hours ahead of UTC. *)
Definition rising_item : Item.t :=
  item "hackernews:2" "hackernews" "Fresh news" 120.

Definition rising_db : SQLiteStore.t :=
  SQLiteStore.mk [rising_item]
    [Snapshot.mk 1 "hackernews:2" 100 3 (10 * Hour)%Z;
     Snapshot.mk 2 "hackernews:2" 120 3 (11 * Hour)%Z] [] 0%Z.

Definition utc_world : Sim.t :=
  Sim.mk rising_db no_fault (12 * Hour)%Z 0%Z provider_down [] 0%Z.

Definition tokyo_world : Sim.t :=
  Sim.mk rising_db no_fault (12 * Hour)%Z 0%Z provider_down [] (9 * Hour)%Z.

(** A cluster of two items with scores 150 and 50: mean 100. *)
Definition cluster_mean_100 : TopicCluster.t :=
  TopicCluster.mk "GPT-5"
    [item "hackernews:2" "hackernews" "GPT-5" 150;
     item "reddit:7" "reddit" "GPT-5" 50]
    {["hackernews"; "reddit"]}%string 200%Z 0%Q.


(** [uf] is a forest over [n] indices whose sets are the classes of the
    pairs in [E]: every pair of [E] lies in one set, and two indices of
    one set are linked by a chain of pairs of [E]. *)
Definition represents (n : nat) (uf : uf_state) (E : relation nat) : Prop :=
  length uf = n ∧ forest uf ∧
  (∀ a b, E a b → a < n ∧ b < n ∧ same_set uf a b) ∧
  (∀ x y, same_set uf x y → rtsc E x y).

(** The map [groups] computed from a root function, without the state. *)
Definition group_fold (rf : nat → nat) (groups : gmap nat (list nat))
    (indices : list nat) : gmap nat (list nat) :=
  foldl (λ groups i,
      <[rf i := default [] (groups !! rf i) ++ [i]]> groups)
    groups indices.

#[export] Instance Item_inhabited : Inhabited Item.t :=
  populate (item EmptyString EmptyString EmptyString 0).

(** The three items of the end-to-end scenario of the specification. *)
Definition three_items : list Item.t := [
  item "hackernews:10" "hackernews" "OpenAI releases GPT-5" 200;
  item "reddit:20" "reddit" "GPT-5 launched by OpenAI" 150;
  item "rss:30" "rss" "Weather forecast for Tuesday" 0
].

(** The reply [out] of the provider makes the evaluation fail: the
    transport failed, the status is not 200, the reply cannot be decoded
    or holds no text, or the text is not a JSON array of results. *)
Definition reply_fails `{GoLib} (provider : string) (out : http_outcome)
    : Prop :=
  match out with
  | http_failed _ => True
  | http_response status body =>
      status ≠ 200%Z ∨
      let '(texts, derr) :=
        if String.eqb provider "anthropic"
        then json_Decode_anthropic body else json_Decode_openai body in
      derr ≠ None ∨
      match texts with
      | [] => True
      | text :: _ => (json_Unmarshal_results (stripFence text)).2 ≠ None
      end
  end.

(** The options [Detect] lists the recent items with. *)
Definition recent (now : Time) : ListOpts.t :=
  ListOpts.mk EmptyString (time_Add now (-24 * Hour)%Z) 1000.

(** In descending order of score. *)
Definition by_score_descending (trends : list Trend.t) : Prop :=
  StronglySorted (λ a b, (Trend.Score b <= Trend.Score a)%Q) trends.

Section Detected.
Context `{GoLib} {W : Type} `{World W}.


End Detected.

(** Worlds for the end-to-end scenario: a store holding the three items,
    and a provider that is down, that answers with an empty array, or a
    driver that fails some statements. *)
Definition scenario_db : SQLiteStore.t := SQLiteStore.mk three_items [] [] 0%Z.

Definition down_world : Sim.t :=
  Sim.mk scenario_db no_fault 0%Z 1%Z provider_down [] 0%Z.

Definition provider_empty : Request.t → http_outcome :=
  λ _, http_response 200 (openai_reply "[]").

Definition empty_reply_world : Sim.t :=
  Sim.mk scenario_db no_fault 0%Z 1%Z provider_empty [] 0%Z.

Definition disk_error : error := errorString "disk I/O error".

Definition snapshots_fail : statement → option error :=
  λ s, match s with stmt_get_snapshots => Some disk_error | _ => None end.

Definition upsert_fails : statement → option error :=
  λ s, match s with stmt_upsert_trend => Some disk_error | _ => None end.

Definition list_fails : statement → option error :=
  λ s, match s with stmt_list_items => Some disk_error | _ => None end.

Definition snapshots_fail_world : Sim.t :=
  Sim.mk scenario_db snapshots_fail 0%Z 1%Z provider_down [] 0%Z.

Definition upsert_fails_world : Sim.t :=
  Sim.mk scenario_db upsert_fails 0%Z 1%Z provider_down [] 0%Z.

Definition list_fails_world : Sim.t :=
  Sim.mk scenario_db list_fails 0%Z 1%Z provider_down [] 0%Z.

Definition plain_engine : Engine.t := NewEngine 0%Q 0%Q 0%Q None.

Definition openai_evaluator : LLMEvaluator.t :=
  NewLLMEvaluator "openai" EmptyString "sk-test" EmptyString 0%Q.

Definition llm_engine : Engine.t :=
  NewEngine 0%Q 0%Q 0%Q (Some openai_evaluator).


(** ** Further notions used to state properties *)

(** The groups of indices behind the clusters, in the order of the
    clusters. *)
Definition clusterIndexGroups `{GoLib} (items : list Item.t)
    : option (list (list nat)) :=
  (λ groups, snd <$> map_to_list groups) <$> clusterGroups items.

(** The sum of the scores of [items] as [clusterItems] accumulates it. *)
Definition score_sum (items : list Item.t) : Z :=
  foldl (λ total item, int64_wrap (total + Item.Score item)) 0%Z items.

(** [best] is the first item of [items] with the highest score. *)
Definition first_best (items : list Item.t) (best : Item.t) : Prop :=
  ∃ k, items !! k = Some best ∧
       (∀ item, item ∈ items → (Item.Score item ≤ Item.Score best)%Z) ∧
       (∀ j item, j < k → items !! j = Some item →
                  (Item.Score item < Item.Score best)%Z).

(** The scenario with a fourth item whose title holds only stopwords, and
    two items carrying the same headline in other words. *)
Definition four_items : list Item.t :=
  three_items ++ [item "rss:31" "rss" "It is what it is" 5].

Definition reposted_items : list Item.t := [
  item "hackernews:11" "hackernews" "GPT-5 is here" 90;
  item "arxiv:2" "arxiv" "Scaling laws revisited" 0;
  item "reddit:21" "reddit" "Here it is: GPT-5!" 40
].

(** ** Additional scoring utilities *)

(** The map [thresholds] of [NormalizeScore]. *)
Definition thresholds : gmap string float64 :=
  {[ "hackernews"%string := 500%Q;
     "reddit"%string := 1000%Q;
     "github"%string := 100%Q;
     "youtube"%string := 10000%Q ]}.

Definition NormalizeScore (score : Z) (sourceType : string) : float64 :=
  match thresholds !! sourceType with
  | Some threshold =>
      if Qeq_bool threshold 0 then 0%Q
      else
        let ratio := (float64_of_int score / threshold)%Q in
        if Qgtb ratio 1 then 100%Q else (ratio * 100)%Q
  | None => 0%Q
  end.

(** ** Notions for the LLM stage *)

(** The URL the evaluator posts to, and the header that carries its key. *)
Definition endpoint (e : LLMEvaluator.t) : string :=
  if String.eqb (LLMEvaluator.provider e) "anthropic"
  then ((if String.eqb (LLMEvaluator.baseURL e) EmptyString
         then "https://api.anthropic.com" else LLMEvaluator.baseURL e)
        ++ "/v1/messages")%string
  else ((if String.eqb (LLMEvaluator.baseURL e) EmptyString
         then "https://api.openai.com" else LLMEvaluator.baseURL e)
        ++ "/v1/chat/completions")%string.

Definition credential (e : LLMEvaluator.t) : string * string :=
  if String.eqb (LLMEvaluator.provider e) "anthropic"
  then ("x-api-key", LLMEvaluator.apiKey e)%string
  else ("Authorization", "Bearer " ++ LLMEvaluator.apiKey e)%string.

(** The last of the results that carry the given item ID. *)
Definition last_result (results : list LLMResult.t) (id : string)
    : option LLMResult.t :=
  last (filter (λ r, LLMResult.ID r = id) results).

(** The item relabelled by the result for it, if there is one. *)
Definition relabel (results : list LLMResult.t) (item : Item.t)
    : option Item.t :=
  (λ r, if String.eqb (LLMResult.Topic r) EmptyString then item
        else Item.with_Title (LLMResult.Topic r) item)
  <$> last_result results (Item.ID item).

(** ** Notions for a cycle over the SQLite store *)

(** The two worlds differ at most in the reading of the clock. *)
Definition clock_only (w w' : Sim.t) : Prop :=
  Sim.db w' = Sim.db w ∧ Sim.fault w' = Sim.fault w ∧
  Sim.tick w' = Sim.tick w ∧ Sim.provider w' = Sim.provider w ∧
  Sim.stdout w' = Sim.stdout w ∧ Sim.zone w' = Sim.zone w.

(** The trend as the table holds it under the given id. *)
Definition with_ID (id : Z) (t : Trend.t) : Trend.t :=
  Trend.mk id (Trend.Topic t) (Trend.Score t) (Trend.SourceCount t)
    (Trend.ItemIDs t) (Trend.FirstSeen t) (Trend.LastUpdated t)
    (Trend.Alerted t).

(** The trend was built at [now] for the cluster. *)
Definition trend_of (now : Time) (c : TopicCluster.t) (t : Trend.t) : Prop :=
  Trend.Topic t = TopicCluster.Topic c ∧
  Trend.SourceCount t = Z.of_nat (size (TopicCluster.Sources c)) ∧
  Trend.ItemIDs t = Item.ID <$> TopicCluster.Items c ∧
  Trend.FirstSeen t = now ∧ Trend.LastUpdated t = now ∧
  Trend.Alerted t = false.

(** The ids [first], [first + 1], ... given to [n] new rows. *)
Definition fresh_ids (first : Z) (n : nat) : list Z :=
  (λ k, (first + Z.of_nat k)%Z) <$> seq 0 n.

(** ** Package store, continued *)

Module TrendListOpts.
Record t : Type := mk {
  MinScore : float64;
  Limit : Z;
  Unalerted : bool
}.
End TrendListOpts.

(** The rows selected by [ListTrends]. *)
Definition select_trends (s : SQLiteStore.t) (opts : TrendListOpts.t)
    : list Trend.t :=
  let rows := SQLiteStore.trends s in
  let rows :=
    if Qgtb (TrendListOpts.MinScore opts) 0
    then filter (λ r, Qgeb (Trend.Score r) (TrendListOpts.MinScore opts)
                      = true) rows
    else rows in
  let rows :=
    if TrendListOpts.Unalerted opts
    then filter (λ r, Trend.Alerted r = false) rows else rows in
  let rows :=
    order_by (λ a b, Qle_bool (Trend.Score b) (Trend.Score a)) rows in
  let limit :=
    if (TrendListOpts.Limit opts <=? 0)%Z
    then 50%Z else TrendListOpts.Limit opts in
  take (Z.to_nat limit) rows.

(** The effect of a successful [MarkAlerted] on the table. *)
Definition mark_alerted (s : SQLiteStore.t) (trendID : Z) : SQLiteStore.t :=
  SQLiteStore.mk (SQLiteStore.items s) (SQLiteStore.score_snapshots s)
    (map (λ row,
           if (Trend.ID row =? trendID)%Z
           then Trend.mk (Trend.ID row) (Trend.Topic row) (Trend.Score row)
                  (Trend.SourceCount row) (Trend.ItemIDs row)
                  (Trend.FirstSeen row) (Trend.LastUpdated row) true
           else row)
         (SQLiteStore.trends s))
    (SQLiteStore.trends_seq s).

(** The ids of the trends table are distinct, positive and at most the
    last id given out, which is not negative. *)
Definition trend_ids_ok (s : SQLiteStore.t) : Prop :=
  (0 ≤ SQLiteStore.trends_seq s)%Z ∧
  NoDup (Trend.ID <$> SQLiteStore.trends s) ∧
  Forall (λ row, (0 < Trend.ID row ≤ SQLiteStore.trends_seq s)%Z)
    (SQLiteStore.trends s).


(** The row matches the options of [ListTrends]. *)
Definition trend_matches (opts : TrendListOpts.t) (r : Trend.t) : Prop :=
  ((0 < TrendListOpts.MinScore opts)%Q →
   (TrendListOpts.MinScore opts <= Trend.Score r)%Q) ∧
  (TrendListOpts.Unalerted opts = true → Trend.Alerted r = false).

(** A store with two trends, one of them alerted. *)
Definition trends_db : SQLiteStore.t :=
  SQLiteStore.mk []
    []
    [Trend.mk 1 "GPT-5" 72%Q 2 ["hackernews:10"; "reddit:20"] 0%Z 0%Z true;
     Trend.mk 2 "Rust 2.0" 35%Q 1 ["github:30"] 0%Z 0%Z false]%string
    2%Z.

(** ** Package alert *)

Module Notification.
Record t : Type := mk {
  Title : string;
  Body : string;
  URL : string;
  Score : float64;
  Sources : list string;
  Items : list Item.t
}.
End Notification.

(** A [Notifier] in a world [W]: its name, and what [Send] answers and
    does to the world. *)
Module Notifier.
Record t (W : Type) : Type := mk {
  Name : string;
  Send : Notification.t → W → option error * W
}.
Arguments mk {W} _ _.
Arguments Name {W} _.
Arguments Send {W} _ _ _.
End Notifier.

(** [errors.Join] of errors none of which is nil: nil when there is
    none, else the error that wraps them all. *)
Definition errors_Join (errs : list error) : option (list error) :=
  match errs with
  | [] => None
  | _ :: _ => Some errs
  end.

(** [Manager], as its [notifiers]. *)
Definition HasNotifiers {W : Type} (m : list (Notifier.t W)) : bool :=
  0 <? length m.

Definition Broadcast {W : Type} (m : list (Notifier.t W))
    (n : Notification.t) : M W (option (list error)) :=
  errs <~
    st_foldl (λ errs notifier,
        err <~ call (Notifier.Send notifier n);
        match err with
        | Some err =>
            st_ret (errs ++ [wrapError (Notifier.Name notifier ++ ": ") err])
        | None => st_ret errs
        end)
      [] m;
  st_ret (errors_Join errs).

(** What the notifiers answer when each is sent [n] in turn, and the
    world they leave. *)
Fixpoint send_each {W : Type} (m : list (Notifier.t W)) (n : Notification.t)
    (w : W) : list (string * option error) * W :=
  match m with
  | [] => ([], w)
  | notifier :: m' =>
      let '(err, w1) := Notifier.Send notifier n w in
      let '(outcomes, w') := send_each m' n w1 in
      ((Notifier.Name notifier, err) :: outcomes, w')
  end.

(** A notifier that always succeeds, and one that always fails; both
    leave a line on standard output. *)
Definition notifier_ok (name : string) : Notifier.t Sim.t :=
  Notifier.mk name
    (λ _ w, (None, (fmt_Printf (log_llm_passed 0 0) w).2)).

Definition notifier_down (name : string) : Notifier.t Sim.t :=
  Notifier.mk name
    (λ _ w, (Some (errorString "status 500"),
             (fmt_Printf (log_llm_passed 0 0) w).2)).

(** ** Package source: the keyword filter *)

(** [strings.Contains(s, substr)]. *)
Definition strings_Contains (s substr : string) : bool :=
  match strings_Index s substr with
  | Some _ => true
  | None => false
  end.

Definition DefaultAIKeywords : list string := [
  "artificial intelligence"; "machine learning"; "deep learning";
  "neural network"; "LLM"; "large language model"; "GPT";
  "transformer"; "diffusion"; "stable diffusion"; "midjourney";
  "computer vision"; "NLP"; "natural language processing";
  "generative AI"; "gen AI"; "genai";
  "AGI"; "reinforcement learning"; "fine-tuning"; "fine tuning";
  "RAG"; "retrieval augmented"; "vector database"; "embedding";
  "tokenizer"; "inference"; "AI agent"; "agentic";
  "copilot"; "chatbot"; "foundation model";
  "llama"; "mistral"; "gemini"; "openai"; "anthropic"; "claude";
  "hugging face"; "huggingface"; "pytorch"; "tensorflow";
  "CUDA"; "GPU"; "TPU";
  "text-to-image"; "text-to-video"; "text-to-speech";
  "speech recognition"; "object detection"; "image generation";
  "prompt engineering"; "AI safety"; "alignment";
  "multimodal"; "vision language model"; "VLM";
  "AI coding"; "code generation"; "AI assistant"
]%string.

Module Filter.
Record t : Type := mk {
  keywords : list string;
  exclude : list string
}.
End Filter.

Definition NewFilter `{GoLib} (extraKeywords excludeKeywords : list string)
    : Filter.t :=
  let keywords := DefaultAIKeywords ++ extraKeywords in
  let keywords := map strings_ToLower keywords in
  let exclude := map strings_ToLower excludeKeywords in
  Filter.mk keywords exclude.

Definition MatchesAI `{GoLib} (f : Filter.t) (text : string) : bool :=
  let lower := strings_ToLower text in
  if existsb (λ ex, strings_Contains lower ex) (Filter.exclude f) then false
  else existsb (λ kw, strings_Contains lower kw) (Filter.keywords f).

Definition MatchesAIDefault `{GoLib} (text : string) : bool :=
  let lower := strings_ToLower text in
  existsb (λ kw, strings_Contains lower (strings_ToLower kw))
    DefaultAIKeywords.

(** ** Storing a batch of items *)

(** [UpsertItems], over what [UpsertItem] answers and does to the world
    for one item. *)
Fixpoint UpsertItems {W : Type} (UpsertItem : Item.t → W → option error * W)
    (items : list Item.t) : M W (option error) :=
  match items with
  | [] => st_ret None
  | item :: items' =>
      err <~ call (UpsertItem item);
      match err with
      | Some err => st_ret (Some err)
      | None => UpsertItems UpsertItem items'
      end
  end.

(** The world after upserting the given items one after the other. *)
Definition upserted {W : Type} (UpsertItem : Item.t → W → option error * W)
    (items : list Item.t) (w : W) : W :=
  foldl (λ w item, (UpsertItem item w).2) w items.

(** An [UpsertItem] on the simulated store that refuses items without a
    title and appends the others. *)
Definition upsert_titled (item : Item.t) (s : SQLiteStore.t)
    : option error * SQLiteStore.t :=
  if String.eqb (Item.Title item) EmptyString
  then (Some (wrapError ("upsert item " ++ Item.ID item ++ ": ")
                (errorString "NOT NULL constraint failed")), s)
  else (None,
        SQLiteStore.mk (SQLiteStore.items s ++ [item])
          (SQLiteStore.score_snapshots s) (SQLiteStore.trends s)
          (SQLiteStore.trends_seq s)).
(** * Properties *)

(** ** Comparisons on rationals *)

Lemma Qgtb_true (x y : Q) : Qgtb x y = true ↔ (y < x)%Q.
Proof.
  unfold Qgtb. rewrite negb_true_iff, <- not_true_iff_false, Qle_bool_iff.
  split; [apply Qnot_le_lt | apply Qlt_not_le].
Qed.

Lemma Qgtb_false (x y : Q) : Qgtb x y = false ↔ (x <= y)%Q.
Proof. unfold Qgtb. by rewrite negb_false_iff, Qle_bool_iff. Qed.


Lemma Qltb_false (x y : Q) : Qltb x y = false ↔ (y <= x)%Q.
Proof. apply Qgtb_false. Qed.

Lemma Qgeb_true (x y : Q) : Qgeb x y = true ↔ (y <= x)%Q.
Proof. apply Qle_bool_iff. Qed.

(** ** Jaccard similarity *)

Lemma intersection_count (A B : gset string) :
  length (filter (λ t, t ∈ B) (elements A)) = size (A ∩ B).
Proof.
  unfold size, set_size. simpl. apply Permutation_length.
  apply NoDup_Permutation.
  - apply NoDup_filter, NoDup_elements.
  - apply NoDup_elements.
  - intros t. rewrite list_elem_of_filter, !elem_of_elements. set_solver.
Qed.

Lemma jaccard_unfold (a b : list string) :
  jaccardSimilarity a b =
  if (length a =? 0) || (length b =? 0) then 0%Q
  else
    let A : gset string := list_to_set a in
    let B : gset string := list_to_set b in
    let i := Z.of_nat (size (A ∩ B)) in
    let u := (Z.of_nat (size A) + Z.of_nat (size B) - i)%Z in
    if (u =? 0)%Z then 0%Q else (inject_Z i / inject_Z u)%Q.
Proof. unfold jaccardSimilarity. by rewrite intersection_count. Qed.

Lemma jaccard_sym (a b : list string) :
  jaccardSimilarity a b = jaccardSimilarity b a.
Proof.
  rewrite !jaccard_unfold. rewrite (orb_comm (length a =? 0)).
  destruct ((length b =? 0) || (length a =? 0)); [done|]. simpl.
  replace (list_to_set b ∩ list_to_set a : gset string)
    with (list_to_set a ∩ list_to_set b : gset string) by set_solver.
  by rewrite (Z.add_comm (Z.of_nat (size (list_to_set a : gset string)))).
Qed.

Lemma jaccard_empty (a b : list string) :
  a = [] ∨ b = [] → jaccardSimilarity a b = 0%Q.
Proof.
  intros [-> | ->]; unfold jaccardSimilarity; simpl; [done|].
  by rewrite orb_true_r.
Qed.

Lemma union_size (A B : gset string) :
  (Z.of_nat (size A) + Z.of_nat (size B) - Z.of_nat (size (A ∩ B)))%Z
  = Z.of_nat (size (A ∪ B)).
Proof.
  assert (size A = size (A ∩ B) + size (A ∖ B)) as HA.
  { rewrite <- size_union by set_solver. f_equal.
    apply set_eq. intros t. destruct (decide (t ∈ B)); set_solver. }
  assert (size (A ∪ B) = size B + size (A ∖ B)) as HU.
  { rewrite <- size_union_alt. f_equal. set_solver. }
  lia.
Qed.

(** For two non-empty token lists the similarity is the size of the
    intersection over the size of the union, which is not 0. *)
Lemma jaccard_quotient (a b : list string) :
  a ≠ [] → b ≠ [] →
  let A : gset string := list_to_set a in
  let B : gset string := list_to_set b in
  jaccardSimilarity a b
  = (inject_Z (Z.of_nat (size (A ∩ B))) / inject_Z (Z.of_nat (size (A ∪ B))))%Q
  ∧ 0 < size (A ∪ B).
Proof.
  intros Ha Hb A B. rewrite jaccard_unfold.
  destruct a as [|t a]; [done|]. destruct b as [|t' b]; [done|].
  cbn [length Nat.eqb orb]. cbv zeta. fold A B. rewrite union_size.
  assert (0 < size (A ∪ B)) as Hpos.
  { assert (size (A ∪ B) ≠ 0); [|lia]. apply size_non_empty_iff.
    unfold A. set_solver. }
  destruct (Z.eqb_spec (Z.of_nat (size (A ∪ B))) 0); [lia | done].
Qed.

Lemma jaccard_index_empty (A B : gset string) :
  A = ∅ ∨ B = ∅ → (jaccard_index A B == 0)%Q.
Proof.
  intros Hempty. unfold jaccard_index. case_decide; [done|].
  assert (A ∩ B = ∅) as -> by (destruct Hempty; set_solver).
  rewrite size_empty. unfold Qdiv. simpl. apply Qmult_0_l.
Qed.

(** What the code computes is the Jaccard index of the two sets of
    tokens. *)
Lemma jaccardSimilarity_index (a b : list string) :
  (jaccardSimilarity a b
   == jaccard_index (list_to_set a) (list_to_set b))%Q.
Proof.
  destruct (decide (a = [])) as [->|Ha].
  { rewrite jaccard_empty by (by left).
    symmetry. apply jaccard_index_empty. by left. }
  destruct (decide (b = [])) as [->|Hb].
  { rewrite jaccard_empty by (by right).
    symmetry. apply jaccard_index_empty. by right. }
  destruct (jaccard_quotient a b Ha Hb) as [-> Hpos].
  unfold jaccard_index. case_decide; [lia | done].
Qed.

Lemma similar_index (a b : list string) :
  Qgeb (jaccardSimilarity a b) threshold = true
  ↔ (3 # 10 <= jaccard_index (list_to_set a) (list_to_set b))%Q.
Proof.
  rewrite Qgeb_true. unfold threshold.
  by rewrite (jaccardSimilarity_index a b).
Qed.

Lemma jaccard_same_set (a b : list string) :
  a ≠ [] → (list_to_set a : gset string) = list_to_set b →
  (jaccardSimilarity a b == 1)%Q.
Proof.
  intros Ha Hab. rewrite jaccard_unfold.
  assert (b ≠ []) as Hb.
  { intros ->. destruct a as [|t a]; [done|]. simpl in Hab. set_solver. }
  destruct a as [|t a]; [done|]. destruct b as [|t' b]; [done|].
  cbn [length Nat.eqb orb]. cbv zeta.
  rewrite <- Hab.
  replace (list_to_set (t :: a) ∩ list_to_set (t :: a) : gset string)
    with (list_to_set (t :: a) : gset string) by set_solver.
  set (n := size (list_to_set (t :: a) : gset string)).
  assert (n ≠ 0) as Hn.
  { unfold n. apply size_non_empty_iff. set_solver. }
  replace (Z.of_nat n + Z.of_nat n - Z.of_nat n)%Z with (Z.of_nat n) by lia.
  destruct (Z.eqb_spec (Z.of_nat n) 0) as [|Hz]; [lia|].
  apply Qmult_inv_r. unfold Qeq. simpl. lia.
Qed.

(** C9. The Jaccard similarity is symmetric, is 0 as soon as one of the
    two token lists is empty, and is 1 for two non-empty token lists with
    the same set of tokens. *)
Theorem jaccardSimilarity_properties :
  (∀ a b : list string, jaccardSimilarity a b = jaccardSimilarity b a) ∧
  (∀ a b : list string, a = [] ∨ b = [] → jaccardSimilarity a b = 0%Q) ∧
  (∀ a b : list string,
     a ≠ [] → (list_to_set a : gset string) = list_to_set b →
     (jaccardSimilarity a b == 1)%Q).
Proof.
  split; [exact jaccard_sym|]. split; [exact jaccard_empty|].
  exact jaccard_same_set.
Qed.

Lemma jaccardSimilarity_properties_witness :
  jaccardSimilarity [] ["gpt"; "openai"]%string = 0%Q ∧
  (jaccardSimilarity ["gpt"; "openai"; "gpt"] ["openai"; "gpt"]%string == 1)%Q.
Proof.
  split.
  - apply (proj1 (proj2 jaccardSimilarity_properties)). left. reflexivity.
  - apply (proj2 (proj2 jaccardSimilarity_properties)).
    + discriminate.
    + vm_compute. reflexivity.
Defined.

(** ** The absolute component *)

Lemma Qeq_bool_true (x y : Q) : Qeq_bool x y = true ↔ (x == y)%Q.
Proof. apply Qeq_bool_iff. Qed.

Lemma Qeq_bool_false (x y : Q) : Qeq_bool x y = false ↔ ¬ (x == y)%Q.
Proof. rewrite <- not_true_iff_false, Qeq_bool_iff. done. Qed.

Lemma Qle_bool_false (x y : Q) : Qle_bool x y = false ↔ (y < x)%Q.
Proof.
  rewrite <- not_true_iff_false, Qle_bool_iff.
  split; [apply Qnot_le_lt | apply Qlt_not_le].
Qed.

Lemma inject_Z_pos (z : Z) : (0 < z)%Z ↔ (0 < inject_Z z)%Q.
Proof. unfold Qlt. simpl. lia. Qed.

Lemma inject_Z_neg (z : Z) : (z < 0)%Z ↔ (inject_Z z < 0)%Q.
Proof. unfold Qlt. simpl. lia. Qed.

Lemma mean_pos (total : Z) (count : nat) :
  0 < count →
  ((0 < total)%Z ↔ (0 < inject_Z total / inject_Z (Z.of_nat count))%Q) ∧
  ((total = 0)%Z ↔ (inject_Z total / inject_Z (Z.of_nat count) == 0)%Q).
Proof.
  intros Hc.
  assert (0 < inject_Z (Z.of_nat count))%Q as Hn.
  { apply (proj1 (inject_Z_pos _)). lia. }
  assert (inject_Z total ==
          inject_Z total / inject_Z (Z.of_nat count) * inject_Z (Z.of_nat count))%Q
    as Heq.
  { field. intros E. rewrite E in Hn. by apply Qlt_irrefl in Hn. }
  set (m := (inject_Z total / inject_Z (Z.of_nat count))%Q) in *.
  split; split.
  - intros Ht. apply (proj1 (inject_Z_pos _)) in Ht. rewrite Heq in Ht.
    destruct (Qlt_le_dec 0 m) as [|Hm]; [done|]. exfalso.
    apply (Qlt_not_le _ _ Ht). 
    rewrite <- (Qmult_0_l (inject_Z (Z.of_nat count))).
    apply Qmult_le_compat_r; [done | by apply Qlt_le_weak].
  - intros Hm. apply (proj2 (inject_Z_pos _)). rewrite Heq.
    rewrite <- (Qmult_0_l (inject_Z (Z.of_nat count))).
    apply Qmult_lt_compat_r; done.
  - intros ->. unfold m. field. intros E. rewrite E in Hn.
    by apply Qlt_irrefl in Hn.
  - intros Hm. rewrite Hm, Qmult_0_l in Heq.
    unfold Qeq in Heq. simpl in Heq. lia.
Qed.

Lemma absoluteScore_scale (total : Z) (count : nat) :
  0 < count →
  (0 <= inject_Z total / inject_Z (Z.of_nat count))%Q →
  (absoluteScore total count
   == absolute_scale (inject_Z total / inject_Z (Z.of_nat count)))%Q.
Proof.
  intros Hc Hm. destruct (mean_pos total count Hc) as [Hpos Hzero].
  unfold absoluteScore, absolute_scale, float64_of_int.
  set (m := (inject_Z total / inject_Z (Z.of_nat count))%Q) in *.
  destruct (Z.gtb_spec total 0) as [Ht|Ht].
  - apply Hpos in Ht.
    destruct (Qeq_bool m 0) eqn:E0.
    { apply Qeq_bool_true in E0. rewrite E0 in Ht. by apply Qlt_irrefl in Ht. }
    destruct (Qgtb m 1000) eqn:E1.
    { apply Qgtb_true in E1.
      assert (Qle_bool m 10 = false) as -> by (apply Qle_bool_false; lra).
      assert (Qle_bool m 100 = false) as -> by (apply Qle_bool_false; lra).
      assert (Qle_bool m 1000 = false) as -> by (apply Qle_bool_false; lra).
      reflexivity. }
    apply Qgtb_false in E1.
    destruct (Qgtb m 100) eqn:E2.
    { apply Qgtb_true in E2.
      assert (Qle_bool m 10 = false) as -> by (apply Qle_bool_false; lra).
      assert (Qle_bool m 100 = false) as -> by (apply Qle_bool_false; lra).
      assert (Qle_bool m 1000 = true) as -> by (by apply Qle_bool_iff).
      unfold line_through. field. }
    apply Qgtb_false in E2.
    destruct (Qgtb m 10) eqn:E3.
    { apply Qgtb_true in E3.
      assert (Qle_bool m 10 = false) as -> by (apply Qle_bool_false; lra).
      assert (Qle_bool m 100 = true) as -> by (by apply Qle_bool_iff).
      unfold line_through. field. }
    apply Qgtb_false in E3.
    assert (Qle_bool m 10 = true) as -> by (by apply Qle_bool_iff).
    unfold line_through. field.
  - assert (total = 0)%Z as Hz.
    { destruct (Z.eq_dec total 0%Z) as [|Hne]; [done|]. exfalso.
      assert (total < 0)%Z as Hneg by lia.
      apply (proj1 (inject_Z_neg _)) in Hneg.
      assert (0 < inject_Z (Z.of_nat count))%Q as Hn
        by (apply (proj1 (inject_Z_pos _)); lia).
      assert (inject_Z total == m * inject_Z (Z.of_nat count))%Q as Heq.
      { unfold m. field. intros E. rewrite E in Hn.
        by apply Qlt_irrefl in Hn. }
      rewrite Heq in Hneg. apply (Qlt_not_le _ _ Hneg).
      apply Qmult_le_0_compat; [done | by apply Qlt_le_weak]. }
    apply Hzero in Hz.
    assert (Qeq_bool m 0 = true) as -> by (by apply Qeq_bool_true).
    reflexivity.
Qed.

Lemma absolute_scale_100 (m : Q) : (m == 100)%Q → (absolute_scale m == 60)%Q.
Proof.
  intros Hm. unfold absolute_scale.
  assert (Qeq_bool m 0 = false) as -> by (apply Qeq_bool_false; lra).
  assert (Qle_bool m 10 = false) as -> by (apply Qle_bool_false; lra).
  assert (Qle_bool m 100 = true) as -> by (apply Qle_bool_iff; lra).
  unfold line_through. rewrite Hm. reflexivity.
Qed.

Lemma absolute_scale_1000 (m : Q) : (m == 1000)%Q → (absolute_scale m == 100)%Q.
Proof.
  intros Hm. unfold absolute_scale.
  assert (Qeq_bool m 0 = false) as -> by (apply Qeq_bool_false; lra).
  assert (Qle_bool m 10 = false) as -> by (apply Qle_bool_false; lra).
  assert (Qle_bool m 100 = false) as -> by (apply Qle_bool_false; lra).
  assert (Qle_bool m 1000 = true) as -> by (apply Qle_bool_iff; lra).
  unfold line_through. rewrite Hm. reflexivity.
Qed.

(** ** The state monad *)

Lemma st_bind_Some {S A B : Type} (m : M S A) (k : A → M S B) s a s' :
  m s = Some (a, s') → st_bind m k s = k a s'.
Proof. unfold st_bind. by intros ->. Qed.

Lemma call_bind {W A B : Type} (f : W → A * W) (k : A → M W B) w :
  st_bind (call f) k w = k (f w).1 (f w).2.
Proof. unfold st_bind, call. by destruct (f w). Qed.

Lemma st_foldl_app {S A B : Type} (body : B → A → M S B) acc l1 l2 s :
  st_foldl body acc (l1 ++ l2) s =
  st_bind (st_foldl body acc l1) (λ acc', st_foldl body acc' l2) s.
Proof.
  revert acc s. induction l1 as [|a l1 IH]; intros acc s; simpl;
    [reflexivity|].
  unfold st_bind. destruct (body acc a s) as [[acc' s']|]; [|done].
  apply IH.
Qed.

(** A loop whose body always returns and keeps an invariant returns and
    keeps the invariant. *)
Lemma st_foldl_invariant {S A B : Type} (I : B → S → Prop)
    (body : B → A → M S B) (l : list A) :
  (∀ acc a s, I acc s → a ∈ l →
     ∃ acc' s', body acc a s = Some (acc', s') ∧ I acc' s') →
  ∀ acc s, I acc s →
    ∃ acc' s', st_foldl body acc l s = Some (acc', s') ∧ I acc' s'.
Proof.
  induction l as [|a l IH]; intros Hbody acc s HI; simpl.
  - by exists acc, s.
  - destruct (Hbody acc a s HI) as (acc1 & s1 & Hb & HI1); [left|].
    rewrite (st_bind_Some _ _ _ _ _ Hb).
    apply IH; [|done]. intros acc2 a2 s2 HI2 Ha2.
    apply Hbody; [done | by right].
Qed.

(** ** Velocity *)

Section Velocity.
Context {W : Type} `{World W}.

Lemma itemVelocity_total (item : Item.t) (w : W) :
  ∃ v w', itemVelocity item w = Some (v, w').
Proof.
  unfold itemVelocity. rewrite call_bind. rewrite call_bind.
  destruct (store_GetSnapshots _ _ _) as [[snaps err] w2]. simpl.
  destruct err, (head snaps), (last snaps);
    try (eexists _, _; reflexivity).
  destruct (length snaps <? 2); [eexists _, _; reflexivity|].
  destruct (Qltb _ _); eexists _, _; reflexivity.
Qed.

Lemma st_mapM_itemVelocity_total (items : list Item.t) (w : W) :
  ∃ vs w', st_mapM itemVelocity items w = Some (vs, w') ∧
           length vs = length items.
Proof.
  revert w. induction items as [|item items IH]; intros w; simpl.
  - by exists [], w.
  - destruct (itemVelocity_total item w) as (v & w1 & Hv).
    rewrite (st_bind_Some _ _ _ _ _ Hv).
    destruct (IH w1) as (vs & w2 & Hvs & Hlen).
    rewrite (st_bind_Some _ _ _ _ _ Hvs).
    exists (v :: vs), w2. split; [done|]. simpl. by rewrite Hlen.
Qed.

Lemma velocity_loop (items : list Item.t) (acc : Q) (w : W) vs w' :
  st_mapM itemVelocity items w = Some (vs, w') →
  st_foldl (λ velocityScore item,
      v <~ itemVelocity item;
      st_ret (if Qgtb v velocityScore then v else velocityScore))
    acc items w
  = Some (foldl (λ m v, if Qgtb v m then v else m) acc vs, w').
Proof.
  revert acc w vs. induction items as [|item items IH]; intros acc w vs; simpl.
  - unfold st_ret. by intros [= <- <-].
  - destruct (itemVelocity_total item w) as (v & w1 & Hv).
    destruct (st_mapM_itemVelocity_total items w1) as (vs1 & w2 & Hvs & _).
    unfold st_bind at 1 2 3 4. rewrite Hv, Hvs. unfold st_ret at 1 2.
    intros [= <- <-]. simpl. by apply IH.
Qed.

Lemma velocityScore_run (items : list Item.t) (w : W) vs w' :
  st_mapM itemVelocity items w = Some (vs, w') →
  velocityScore items w
  = Some (let m := foldl (λ m v, if Qgtb v m then v else m) 0%Q vs in
          if Qgtb m 100 then 100%Q else m, w').
Proof.
  intros Hvs. unfold velocityScore.
  by rewrite (st_bind_Some _ _ _ _ _ (velocity_loop items 0%Q w vs w' Hvs)).
Qed.
End Velocity.

Lemma max_loop_Qmax (vs : list Q) (a b : Q) :
  (a == b)%Q →
  (foldl (λ m v, if Qgtb v m then v else m) a vs == foldl Qmax b vs)%Q.
Proof.
  revert a b. induction vs as [|v vs IH]; intros a b Hab; simpl; [done|].
  apply IH. destruct (Qgtb v a) eqn:E.
  - apply Qgtb_true in E. symmetry. apply Q.max_r. rewrite <- Hab.
    by apply Qlt_le_weak.
  - apply Qgtb_false in E. rewrite Hab. symmetry. apply Q.max_l.
    by rewrite <- Hab.
Qed.

Lemma foldl_Qmax_ge (vs : list Q) (a : Q) : (a <= foldl Qmax a vs)%Q.
Proof.
  revert a. induction vs as [|v vs IH]; intros a; simpl; [apply Qle_refl|].
  eapply Qle_trans; [apply (Q.le_max_l a v) | apply IH].
Qed.

Lemma cap_floor_cap (vs : list Q) :
  (let m := foldl (λ m v, if Qgtb v m then v else m) 0%Q vs in
   (if Qgtb m 100 then 100%Q else m) == floor_cap vs)%Q.
Proof.
  cbv zeta. unfold floor_cap.
  pose proof (max_loop_Qmax vs 0 0 (Qeq_refl 0)) as Hm.
  destruct (Qgtb _ 100) eqn:E.
  - apply Qgtb_true in E. symmetry. apply Q.min_l. rewrite <- Hm.
    by apply Qlt_le_weak.
  - apply Qgtb_false in E. rewrite Hm in *. symmetry. by apply Q.min_r.
Qed.

Lemma floor_cap_range (vs : list Q) : (0 <= floor_cap vs <= 100)%Q.
Proof.
  unfold floor_cap. split.
  - apply Q.min_glb; [done | apply foldl_Qmax_ge].
  - apply Q.le_min_l.
Qed.

(** ** The three components and the composite score *)

Lemma inject_Z_nat_nonneg (n : nat) : (0 <= inject_Z (Z.of_nat n))%Q.
Proof. unfold Qle. simpl. lia. Qed.

Lemma crossScore_range (sources : gset SourceType) :
  (0 <= crossScore sources <= 100)%Q.
Proof.
  unfold crossScore, float64_of_int.
  pose proof (inject_Z_nat_nonneg (size sources)) as Hn.
  destruct (Qgtb _ 100) eqn:E; [lra|].
  apply Qgtb_false in E. lra.
Qed.

Lemma absoluteScore_range (total : Z) (count : nat) :
  0 < count → (0 <= absoluteScore total count <= 100)%Q.
Proof.
  intros Hc. destruct (mean_pos total count Hc) as [Hpos _].
  unfold absoluteScore, float64_of_int.
  set (m := (inject_Z total / inject_Z (Z.of_nat count))%Q) in *.
  destruct (Z.gtb_spec total 0) as [Ht|Ht]; [|lra].
  apply Hpos in Ht. clear Hpos. clearbody m.
  destruct (Qgtb m 1000) eqn:E1; [lra|]. apply Qgtb_false in E1.
  destruct (Qgtb m 100) eqn:E2.
  { apply Qgtb_true in E2.
    assert ((m - 100) / 900 * 40 == (m - 100) * (40 # 900))%Q as -> by field.
    lra. }
  apply Qgtb_false in E2.
  destruct (Qgtb m 10) eqn:E3.
  { apply Qgtb_true in E3.
    assert ((m - 10) / 90 * 40 == (m - 10) * (40 # 90))%Q as -> by field.
    lra. }
  apply Qgtb_false in E3.
  assert (m / 10 * 20 == m * 2)%Q as -> by field. lra.
Qed.

Section Score.
Context {W : Type} `{World W}.

Lemma scoreCluster_run (e : Engine.t) (c : TopicCluster.t) (w : W) vs w' :
  st_mapM itemVelocity (TopicCluster.Items c) w = Some (vs, w') →
  ∃ vel,
    (vel == floor_cap vs)%Q ∧
    scoreCluster e c w =
    Some ((crossScore (TopicCluster.Sources c) * Engine.crossSourceWeight e
           + vel * Engine.velocityWeight e
           + absoluteScore (TopicCluster.TotalScore c)
               (length (TopicCluster.Items c)) * Engine.absoluteWeight e)%Q,
          w').
Proof.
  intros Hvs. eexists. split; [apply (cap_floor_cap vs)|].
  unfold scoreCluster.
  by rewrite (st_bind_Some _ _ _ _ _ (velocityScore_run _ _ _ _ Hvs)).
Qed.
End Score.

Lemma NewEngine_zero_sum (vw cw aw : float64) (llm : option LLMEvaluator.t) :
  (vw + cw + aw == 0)%Q → default_weights (NewEngine vw cw aw llm).
Proof.
  intros Hsum. unfold NewEngine.
  apply Qeq_bool_true in Hsum. rewrite Hsum.
  repeat split; reflexivity.
Qed.

(** C3, as the code has it. The velocity component is the largest of 0
    and the per-item velocities, capped at 100: the running maximum starts
    at 0, so when every velocity is negative the component is 0. *)
Theorem velocity_component_floor_cap {W : Type} `{World W}
    (items : list Item.t) (w : W) :
  ∃ vs w' v,
    st_mapM itemVelocity items w = Some (vs, w') ∧
    length vs = length items ∧
    velocityScore items w = Some (v, w') ∧
    (v == floor_cap vs)%Q ∧
    (Forall (λ x, (x < 0)%Q) vs → (v == 0)%Q).
Proof.
  destruct (st_mapM_itemVelocity_total items w) as (vs & w' & Hvs & Hlen).
  exists vs, w'. eexists. split; [done|]. split; [done|].
  split; [apply (velocityScore_run _ _ _ _ Hvs)|].
  pose proof (cap_floor_cap vs) as Hcap. cbv zeta in Hcap.
  split; [done|]. intros Hneg. rewrite Hcap. unfold floor_cap.
  assert (foldl Qmax 0%Q vs == 0)%Q as ->; [|by apply Q.min_r].
  clear -Hneg. generalize (Qeq_refl 0).
  generalize 0%Q at 1 3 as a. 
  induction Hneg as [|v vs Hv _ IH]; intros a Ha; simpl; [done|].
  apply IH. rewrite Ha. apply Q.max_l. by apply Qlt_le_weak.
Qed.

Lemma velocity_component_floor_cap_witness :
  ∃ vs w' v,
    st_mapM itemVelocity [declining_item] declining_world = Some (vs, w') ∧
    length vs = 1 ∧
    velocityScore [declining_item] declining_world = Some (v, w') ∧
    (v == floor_cap vs)%Q ∧
    (Forall (λ x, (x < 0)%Q) vs → (v == 0)%Q).
Proof. exact (velocity_component_floor_cap [declining_item] declining_world). Defined.

(** C3, as stated, fails: an item whose score fell from 50 to 10 in two
    hours has velocity -20, and the velocity component of a cluster
    holding only that item is 0, not -20. *)
Lemma velocity_component_negative_counterexample :
  ∃ v w1 vel w2,
    itemVelocity declining_item declining_world = Some (v, w1) ∧
    (v == -20)%Q ∧
    velocityScore [declining_item] declining_world = Some (vel, w2) ∧
    (vel == 0)%Q ∧ ¬ (vel == v)%Q.
Proof.
  eexists _, _, _, _. split; [vm_compute; reflexivity|].
  split; [reflexivity|]. split; [vm_compute; reflexivity|].
  split; [reflexivity|]. intros E. vm_compute in E. discriminate E.
Qed.

(** C5. With all the weight on the absolute component, the score of a
    non-empty cluster is the piecewise scale of its mean raw score; a mean
    of 100 gives 60 and a mean of 1000 gives 100. *)
Theorem absolute_component_scale {W : Type} `{World W}
    (c : TopicCluster.t) (llm : option LLMEvaluator.t) (w : W) :
  TopicCluster.Items c ≠ [] →
  (0 <= mean_score c)%Q →
  ∃ score w',
    scoreCluster (Engine.mk 0%Q 0%Q 1%Q llm) c w = Some (score, w') ∧
    (score == absoluteScore (TopicCluster.TotalScore c)
                (length (TopicCluster.Items c)))%Q ∧
    (score == absolute_scale (mean_score c))%Q ∧
    ((mean_score c == 100)%Q → (score == 60)%Q) ∧
    ((mean_score c == 1000)%Q → (score == 100)%Q).
Proof.
  intros Hne Hmean.
  destruct (st_mapM_itemVelocity_total (TopicCluster.Items c) w)
    as (vs & w' & Hvs & _).
  destruct (scoreCluster_run (Engine.mk 0%Q 0%Q 1%Q llm) c w vs w' Hvs)
    as (vel & _ & Hrun).
  eexists _, w'. split; [exact Hrun|]. simpl.
  assert (0 < length (TopicCluster.Items c)) as Hc.
  { destruct (TopicCluster.Items c); [done | simpl; lia]. }
  pose proof (absoluteScore_scale _ _ Hc Hmean) as Hscale.
  fold (mean_score c) in Hscale.
  set (a := absoluteScore _ _) in *.
  assert (crossScore (TopicCluster.Sources c) * 0 + vel * 0 + a * 1 == a)%Q
    as Hsc by ring.
  split; [done|]. split; [by rewrite Hsc|].
  split; intros Hm; rewrite Hsc, Hscale.
  - by apply absolute_scale_100.
  - by apply absolute_scale_1000.
Qed.

Lemma absolute_component_scale_witness :
  ∃ score w',
    scoreCluster (Engine.mk 0%Q 0%Q 1%Q None) cluster_mean_100 declining_world
      = Some (score, w') ∧
    (score == absoluteScore 200 2)%Q ∧
    (score == absolute_scale (mean_score cluster_mean_100))%Q ∧
    ((mean_score cluster_mean_100 == 100)%Q → (score == 60)%Q) ∧
    ((mean_score cluster_mean_100 == 1000)%Q → (score == 100)%Q).
Proof.
  apply (absolute_component_scale cluster_mean_100 None declining_world).
  - discriminate.
  - vm_compute. discriminate.
Defined.

(** C10. Under the default weights, which [NewEngine] also substitutes
    when the three configured weights sum to zero, the score of a
    non-empty cluster is returned and lies between 0 and 100. *)
Theorem scoreCluster_default_range {W : Type} `{World W}
    (e : Engine.t) (c : TopicCluster.t) (w : W) :
  (default_weights e ∨
   ∃ vw cw aw llm, (vw + cw + aw == 0)%Q ∧ e = NewEngine vw cw aw llm) →
  TopicCluster.Items c ≠ [] →
  ∃ score w',
    scoreCluster e c w = Some (score, w') ∧ (0 <= score <= 100)%Q.
Proof.
  intros He Hne.
  assert (default_weights e) as (Hcw & Hvw & Haw).
  { destruct He as [|(vw & cw & aw & llm & Hsum & ->)]; [done|].
    by apply NewEngine_zero_sum. }
  destruct (st_mapM_itemVelocity_total (TopicCluster.Items c) w)
    as (vs & w' & Hvs & _).
  destruct (scoreCluster_run e c w vs w' Hvs) as (vel & Hvel & Hrun).
  eexists _, w'. split; [exact Hrun|].
  assert (0 < length (TopicCluster.Items c)) as Hc.
  { destruct (TopicCluster.Items c); [done | simpl; lia]. }
  pose proof (crossScore_range (TopicCluster.Sources c)) as Hcross.
  pose proof (absoluteScore_range (TopicCluster.TotalScore c) _ Hc) as Habs.
  pose proof (floor_cap_range vs) as Hfc. rewrite <- Hvel in Hfc.
  rewrite Hcw, Hvw, Haw. lra.
Qed.

Lemma scoreCluster_default_range_witness :
  ∃ score w',
    scoreCluster (NewEngine 0%Q 0%Q 0%Q None) cluster_mean_100 declining_world
      = Some (score, w') ∧ (0 <= score <= 100)%Q.
Proof.
  apply (scoreCluster_default_range (NewEngine 0%Q 0%Q 0%Q None) cluster_mean_100
           declining_world).
  - right. exists 0%Q, 0%Q, 0%Q, None. split; reflexivity.
  - discriminate.
Defined.

(** ** The velocity calculator over the SQLite store *)





Lemma order_by_perm {A : Type} (le : A → A → bool) (l : list A) :
  order_by le l ≡ₚ l.
Proof. apply merge_sort_Permutation. Qed.

Lemma StronglySorted_weaken {A : Type} (R R' : A → A → Prop) (l : list A) :
  (∀ a b, R a b → R' a b) → StronglySorted R l → StronglySorted R' l.
Proof.
  intros HR. induction 1 as [|a l _ IH Hall]; constructor; [done|].
  eapply Forall_impl; [exact Hall | apply HR].
Qed.






(** C4. The window is the last six hours only in a process on UTC. For
    an item whose score rose from 100 to 120 between two snapshots taken
    two hours and one hour ago, the claim gives 20 points per hour, and so
    does the code in a process on UTC. In a process nine hours ahead of
    UTC the code returns 0: the bound [time.Now().Add(-6 * time.Hour)] is
    in local time, three hours ahead of every clock reading in UTC, and no
    row, all written with [time.Now().UTC()], is selected. *)
Theorem itemVelocity_local_bound :
  (∃ v w', itemVelocity rising_item utc_world = Some (v, w') ∧ (v == 20)%Q) ∧
  (∃ w', itemVelocity rising_item tokyo_world = Some (0%Q, w')) ∧
  select_snapshots (Sim.zone tokyo_world) (Sim.db tokyo_world)
    (Item.ID rising_item) (time_Add (Sim.clock tokyo_world) (-6 * Hour)%Z)
  = [].
Proof.
  split; [|split].
  - eexists _, _. split; [vm_compute; reflexivity|]. reflexivity.
  - eexists. vm_compute. reflexivity.
  - vm_compute. reflexivity.
Qed.

(** ** Union-find: roots and path compression *)

Lemma reach_det (uf : list nat) x r d r' d' :
  reach uf x r d → reach uf x r' d' → r = r' ∧ d = d'.
Proof.
  intros Hr. revert r' d'.
  induction Hr as [x Hx | x p r d Hx Hp Hr IH]; intros r' d' Hr'.
  - inversion Hr'; subst; [done | congruence].
  - inversion Hr' as [? Hx' | ? p' ? d0 Hx' Hp' Hr0]; subst; [congruence|].
    assert (p' = p) as -> by congruence.
    destruct (IH _ _ Hr0) as [-> ->]. done.
Qed.

Lemma reach_lt (uf : list nat) x r d :
  reach uf x r d → x < length uf ∧ r < length uf.
Proof.
  induction 1 as [x Hx | x p r d Hx Hp Hr [_ IH]].
  - apply lookup_lt_Some in Hx. done.
  - apply lookup_lt_Some in Hx. done.
Qed.

Lemma reach_root_fixed (uf : list nat) x r d :
  reach uf x r d → uf !! r = Some r.
Proof. induction 1; done. Qed.

Lemma root_of_det (uf : list nat) x r r' :
  root_of uf x r → root_of uf x r' → r = r'.
Proof. intros [d Hr] [d' Hr']. by destruct (reach_det _ _ _ _ _ _ Hr Hr'). Qed.

Lemma root_of_root (uf : list nat) r : uf !! r = Some r → root_of uf r r.
Proof. intros Hr. exists 0. by constructor. Qed.

Lemma root_of_fixed (uf : list nat) x r : root_of uf x r → uf !! r = Some r.
Proof. intros [d Hr]. by eapply reach_root_fixed. Qed.

Lemma root_of_lt (uf : list nat) x r :
  root_of uf x r → x < length uf ∧ r < length uf.
Proof. intros [d Hr]. by eapply reach_lt. Qed.

(** The nodes on the way from [x] to its root are pairwise different. *)
Lemma reach_path (uf : list nat) x r d :
  reach uf x r d →
  ∃ l : list nat,
    length l = S d ∧ NoDup l ∧
    ∀ y, y ∈ l → y < length uf ∧ ∃ d', d' ≤ d ∧ reach uf y r d'.
Proof.
  induction 1 as [x Hx | x p r d Hx Hp Hr (l & Hlen & Hnd & Hl)].
  - exists [x]. split; [done|]. split; [apply NoDup_singleton|].
    intros y ->%list_elem_of_singleton. split.
    + by apply lookup_lt_Some in Hx.
    + exists 0. split; [done | by constructor].
  - exists (x :: l). split; [simpl; by rewrite Hlen|]. split.
    + apply NoDup_cons. split; [|done]. intros Hin.
      destruct (Hl x Hin) as (_ & d' & Hle & Hr').
      assert (reach uf x r (S d)) as Hrx by (by econstructor).
      destruct (reach_det _ _ _ _ _ _ Hr' Hrx) as [_ ->]. lia.
    + intros y [->|Hy]%elem_of_cons.
      * split; [by apply lookup_lt_Some in Hx|].
        exists (S d). split; [done | by econstructor].
      * destruct (Hl y Hy) as (Hlt & d' & Hle & Hr').
        split; [done|]. exists d'. split; [lia | done].
Qed.

Lemma reach_depth_bound (uf : list nat) x r d :
  reach uf x r d → d < length uf.
Proof.
  intros (l & Hlen & Hnd & Hl)%reach_path.
  assert (l ⊆+ seq 0 (length uf)) as Hsub.
  { apply NoDup_submseteq; [done|]. intros y Hy.
    apply elem_of_seq. destruct (Hl y Hy) as [Hlt _]. lia. }
  apply submseteq_length in Hsub. rewrite length_seq in Hsub. lia.
Qed.

(** Pointing a node at its own root changes nobody's root. *)
Lemma compress_root_of (uf : list nat) x r :
  root_of uf x r → x ≠ r →
  ∀ y ry, root_of uf y ry → root_of (<[x:=r]> uf) y ry.
Proof.
  intros Hxr Hne y ry [d Hy].
  assert (uf !! r = Some r) as Hr by (by eapply root_of_fixed).
  assert (root_of (<[x:=r]> uf) r r) as Hrr.
  { apply root_of_root. by rewrite list_lookup_insert_ne. }
  induction Hy as [y Hy | y p ry d Hy Hp Hpr IH].
  - destruct (decide (y = x)) as [->|Hyx].
    + destruct Hne. eapply root_of_det; [apply (root_of_root _ _ Hy) | done].
    + apply root_of_root. by rewrite list_lookup_insert_ne.
  - destruct (decide (y = x)) as [->|Hyx].
    + assert (ry = r) as ->.
      { eapply root_of_det; [|exact Hxr]. exists (S d). by econstructor. }
      destruct Hrr as [d' Hd']. exists (S d').
      apply (reach_step _ x r r d'); [|done|done].
      apply list_lookup_insert_eq. by apply lookup_lt_Some in Hy.
    + destruct IH as [d' Hd']. exists (S d').
      apply (reach_step _ y p ry d'); [|done|done].
      by rewrite list_lookup_insert_ne.
Qed.

(** [find] returns the root, keeps the length, and changes nobody's root. *)
Lemma find_reach (uf : list nat) x r d :
  reach uf x r d → ∀ fuel, d < fuel →
  ∃ uf', find fuel x uf = Some (r, uf') ∧ length uf' = length uf ∧
         ∀ y ry, root_of uf y ry → root_of uf' y ry.
Proof.
  induction 1 as [x Hx | x p r d Hx Hp Hr IH]; intros fuel Hfuel.
  - destruct fuel as [|fuel]; [lia|]. exists uf. simpl.
    unfold st_bind, uf_read. rewrite Hx.
    destruct (decide (x ≠ x)); [done|]. unfold st_ret. by rewrite Hx.
  - destruct fuel as [|fuel]; [lia|].
    destruct (IH fuel) as (uf1 & Hfind & Hlen & Hroots); [lia|].
    exists (<[x:=r]> uf1). simpl.
    unfold st_bind at 1, uf_read at 1. rewrite Hx.
    destruct (decide (p ≠ x)); [|done].
    unfold st_bind at 1 2. rewrite Hfind.
    assert (x < length uf1) as Hlt.
    { rewrite Hlen. by apply lookup_lt_Some in Hx. }
    unfold uf_write. destruct (decide (x < length uf1)); [|done].
    unfold uf_read. rewrite list_lookup_insert_eq by done.
    split; [done|]. split; [by rewrite length_insert|].
    intros y ry Hy. apply compress_root_of; [| |by apply Hroots].
    + apply Hroots. exists (S d). by econstructor.
    + intros ->. apply reach_root_fixed in Hr. congruence.
Qed.

Lemma find_root_of (uf : list nat) x r :
  root_of uf x r →
  ∃ uf', find (length uf) x uf = Some (r, uf') ∧ length uf' = length uf ∧
         ∀ y ry, root_of uf y ry → root_of uf' y ry.
Proof.
  intros [d Hr]. eapply find_reach; [done|]. by eapply reach_depth_bound.
Qed.

(** Linking the root [px] below another root [py] moves the set of [px]
    under [py] and leaves the other roots alone. *)
Lemma link_root_of (uf : list nat) px py :
  uf !! px = Some px → uf !! py = Some py → px ≠ py →
  ∀ y ry, root_of uf y ry →
    root_of (<[px:=py]> uf) y (if decide (ry = px) then py else ry).
Proof.
  intros Hpx Hpy Hne y ry [d Hy].
  assert (root_of (<[px:=py]> uf) py py) as Hpy'.
  { apply root_of_root. by rewrite list_lookup_insert_ne. }
  induction Hy as [y Hy | y p ry d Hy Hp Hpr IH].
  - destruct (decide (y = px)) as [->|Hyx].
    + destruct Hpy' as [d' Hd']. exists (S d').
      apply (reach_step _ px py py d'); [|done|done].
      apply list_lookup_insert_eq. by apply lookup_lt_Some in Hpx.
    + apply root_of_root. by rewrite list_lookup_insert_ne.
  - assert (y ≠ px) as Hyx by congruence.
    destruct IH as [d' Hd']. exists (S d').
    apply (reach_step _ y p _ d'); [|done|done].
    by rewrite list_lookup_insert_ne.
Qed.

(** ** Union-find: the sets *)

Lemma same_set_preserved (uf uf' : list nat) x y :
  (∀ z rz, root_of uf z rz → root_of uf' z rz) →
  same_set uf x y → same_set uf' x y.
Proof. intros Hp (r & Hx & Hy). exists r. split; by apply Hp. Qed.

Lemma same_set_reflected (uf uf' : list nat) x y :
  forest uf → length uf' = length uf →
  (∀ z rz, root_of uf z rz → root_of uf' z rz) →
  same_set uf' x y → same_set uf x y.
Proof.
  intros Hf Hlen Hp (r & Hx & Hy).
  destruct (Hf x) as [rx Hrx].
  { rewrite <- Hlen. by apply root_of_lt in Hx as [? _]. }
  destruct (Hf y) as [ry Hry].
  { rewrite <- Hlen. by apply root_of_lt in Hy as [? _]. }
  assert (rx = r) as -> by (eapply root_of_det; [apply Hp|]; done).
  assert (ry = r) as -> by (eapply root_of_det; [apply Hp|]; done).
  by exists r.
Qed.

Lemma forest_preserved (uf uf' : list nat) :
  forest uf → length uf' = length uf →
  (∀ z rz, root_of uf z rz → root_of uf' z rz) → forest uf'.
Proof.
  intros Hf Hlen Hp x Hx. rewrite Hlen in Hx.
  destruct (Hf x Hx) as [r Hr]. exists r. by apply Hp.
Qed.

Lemma same_set_sym (uf : list nat) x y : same_set uf x y → same_set uf y x.
Proof. intros (r & Hx & Hy). by exists r. Qed.

Lemma same_set_trans (uf : list nat) x y z :
  same_set uf x y → same_set uf y z → same_set uf x z.
Proof.
  intros (r & Hx & Hy) (r' & Hy' & Hz).
  assert (r' = r) as -> by (eapply root_of_det; [exact Hy' | exact Hy]).
  by exists r.
Qed.

Lemma same_set_refl (uf : list nat) x :
  forest uf → x < length uf → same_set uf x x.
Proof. intros Hf Hx. destruct (Hf x Hx) as [r Hr]. by exists r. Qed.

Lemma rtsc_subrel (E E' : relation nat) x y :
  (∀ a b, E a b → E' a b) → rtsc E x y → rtsc E' x y.
Proof.
  intros HE. apply (rtsc_congruence id). intros a b Hab. by apply HE.
Qed.

Lemma represents_iff (n : nat) (uf : list nat) (E E' : relation nat) :
  (∀ a b, E a b ↔ E' a b) → represents n uf E → represents n uf E'.
Proof.
  intros HE (Hlen & Hf & H1 & H2). split; [done|]. split; [done|]. split.
  - intros a b Hab. apply H1. by apply HE.
  - intros x y Hxy. apply (rtsc_subrel E); [|by apply H2].
    intros a b. apply HE.
Qed.

(** Chains of pairs of [E] stay within one set. *)
Lemma represents_chain (n : nat) (uf : list nat) (E : relation nat) x y :
  represents n uf E → x < n → rtsc E x y → same_set uf x y ∧ y < n.
Proof.
  intros (Hlen & Hf & H1 & H2) Hx Hxy.
  induction Hxy as [x | x z y Hxz Hzy IH].
  - split; [|done]. apply same_set_refl; [done | by rewrite Hlen].
  - assert (same_set uf x z ∧ z < n) as [Hs Hz].
    { destruct Hxz as [Hxz|Hzx].
      - destruct (H1 _ _ Hxz) as (_ & ? & ?). done.
      - destruct (H1 _ _ Hzx) as (? & _ & ?). split; [|done].
        by apply same_set_sym. }
    destruct (IH Hz) as [Hs' Hy]. split; [|done].
    by eapply same_set_trans.
Qed.

Lemma represents_initial (n : nat) : represents n (seq 0 n) (λ _ _, False).
Proof.
  split; [apply length_seq|]. split; [|split].
  - intros x Hx. rewrite length_seq in Hx. exists x.
    apply root_of_root. by apply lookup_seq.
  - done.
  - intros x y (r & Hx & Hy).
    assert (x < n ∧ y < n) as [Hxn Hyn].
    { apply root_of_lt in Hx as [Hx _], Hy as [Hy _].
      by rewrite length_seq in Hx, Hy. }
    assert (r = x) as ->.
    { apply (root_of_det (seq 0 n) x r x Hx).
      apply root_of_root. by apply lookup_seq. }
    assert (x = y) as ->.
    { apply (root_of_det (seq 0 n) y x y Hy).
      apply root_of_root. by apply lookup_seq. }
    done.
Qed.

(** The effect of [union(i, j)]. *)
Lemma union_step (n : nat) (uf : list nat) (E : relation nat) (i j : nat) :
  represents n uf E → i < n → j < n →
  ∃ uf', union n i j uf = Some (tt, uf') ∧
         represents n uf' (λ a b, E a b ∨ (a = i ∧ b = j)).
Proof.
  intros (Hlen & Hf & H1 & H2) Hi Hj.
  destruct (Hf i) as [ri Hri]; [by rewrite Hlen|].
  destruct (Hf j) as [rj Hrj]; [by rewrite Hlen|].
  destruct (find_root_of uf i ri Hri) as (uf1 & Hfind1 & Hlen1 & Hp1).
  destruct (find_root_of uf1 j rj (Hp1 _ _ Hrj)) as (uf2 & Hfind2 & Hlen2 & Hp2).
  rewrite Hlen in Hfind1. rewrite Hlen1, Hlen in Hfind2.
  assert (∀ z rz, root_of uf z rz → root_of uf2 z rz) as Hp
    by (intros z rz Hz; by apply Hp2, Hp1).
  assert (length uf2 = length uf) as Hl2 by congruence.
  unfold union, st_bind. rewrite Hfind1, Hfind2.
  destruct (decide (ri ≠ rj)) as [Hne|Heq].
  - assert (uf2 !! ri = Some ri) as Hroot_i
      by (eapply root_of_fixed; by apply Hp).
    assert (uf2 !! rj = Some rj) as Hroot_j
      by (eapply root_of_fixed; by apply Hp).
    pose proof (link_root_of uf2 ri rj Hroot_i Hroot_j Hne) as Hlink.
    unfold uf_write.
    destruct (decide (ri < length uf2)) as [_|Hge]; cycle 1.
    { destruct Hge. by apply lookup_lt_Some in Hroot_i. }
    eexists. split; [reflexivity|].
    set (uf3 := <[ri:=rj]> uf2) in *.
    assert (∀ x y, same_set uf x y → same_set uf3 x y) as Hmono.
    { intros x y (r & Hx & Hy). exists (if decide (r = ri) then rj else r).
      split; by apply Hlink, Hp. }
    split; [unfold uf3; rewrite length_insert; congruence|]. split; [|split].
    + intros x Hx. unfold uf3 in Hx. rewrite length_insert, Hl2 in Hx.
      destruct (Hf x Hx) as [r Hr]. eexists. by apply Hlink, Hp.
    + intros a b [Hab|[-> ->]].
      * destruct (H1 _ _ Hab) as (? & ? & ?). by auto.
      * split; [done|]. split; [done|]. exists rj. split.
        -- pose proof (Hlink _ _ (Hp _ _ Hri)) as Hi3.
           by rewrite decide_True in Hi3.
        -- pose proof (Hlink _ _ (Hp _ _ Hrj)) as Hj3.
           by rewrite decide_False in Hj3.
    + intros x y (r3 & Hx3 & Hy3).
      assert (x < length uf ∧ y < length uf) as [Hxn Hyn].
      { apply root_of_lt in Hx3 as [Hx3 _], Hy3 as [Hy3 _].
        unfold uf3 in Hx3, Hy3. rewrite length_insert, Hl2 in Hx3, Hy3.
        done. }
      destruct (Hf x Hxn) as [rx Hrx]. destruct (Hf y Hyn) as [ry Hry].
      pose proof (Hlink _ _ (Hp _ _ Hrx)) as Hx3'.
      pose proof (Hlink _ _ (Hp _ _ Hry)) as Hy3'.
      pose proof (root_of_det _ _ _ _ Hx3 Hx3') as Ex.
      pose proof (root_of_det _ _ _ _ Hy3 Hy3') as Ey.
      assert (∀ a b, E a b → E a b ∨ a = i ∧ b = j) as Hsub by auto.
      assert (rtsc (λ a b, E a b ∨ a = i ∧ b = j) i j) as Hij
        by (apply rtsc_lr; auto).
      assert (∀ a b, same_set uf a b →
                rtsc (λ a b, E a b ∨ a = i ∧ b = j) a b) as Hold.
      { intros a b Hab. apply (rtsc_subrel E); [done | by apply H2]. }
      destruct (decide (rx = ri)) as [->|Hxi], (decide (ry = ri)) as [->|Hyi].
      * apply Hold. by exists ri.
      * (* x with i, y with j *)
        assert (ry = rj) as -> by congruence.
        transitivity i; [apply Hold; by exists ri|].
        transitivity j; [done|]. apply Hold. by exists rj.
      * assert (rx = rj) as -> by congruence.
        transitivity j; [apply Hold; by exists rj|].
        transitivity i; [by symmetry|]. apply Hold. by exists ri.
      * apply Hold. exists rx. split; [done|]. congruence.
  - assert (ri = rj) as -> by (destruct (decide (ri = rj)); [done|]; by destruct Heq).
    eexists. split; [reflexivity|]. split; [congruence|]. split; [|split].
    + by apply (forest_preserved uf).
    + intros a b [Hab|[-> ->]].
      * destruct (H1 _ _ Hab) as (? & ? & ?). split; [done|]. split; [done|].
        by apply (same_set_preserved uf).
      * split; [done|]. split; [done|]. exists rj. split; by apply Hp.
    + intros x y Hxy. apply (rtsc_subrel E); [by auto|]. apply H2.
      by apply (same_set_reflected uf uf2).
Qed.

(** ** The loop comparing all pairs *)

Lemma st_for_cons {S A : Type} (a : A) (l : list A) (body : A → M S unit) s :
  st_for (a :: l) body s = st_bind (body a) (λ _, st_for l body) s.
Proof.
  unfold st_for. simpl. unfold st_bind.
  by destruct (body a s) as [[[] s']|].
Qed.

Lemma inner_loop (n : nat) (sim : nat → nat → bool) (i : nat) (js : list nat) :
  ∀ (uf : list nat) (E : relation nat),
    represents n uf E → i < n → Forall (λ j, j < n) js →
    ∃ uf',
      st_for js (λ j, if sim i j then union n i j else st_ret tt) uf
        = Some (tt, uf') ∧
      represents n uf'
        (λ a b, E a b ∨ (a = i ∧ b ∈ js ∧ sim i b = true)).
Proof.
  induction js as [|j js IH]; intros uf E Hrep Hi Hjs.
  - exists uf. split; [done|]. eapply represents_iff; [|done].
    intros a b. split; [by left|]. intros [?|(_ & []%elem_of_nil & _)]. done.
  - apply Forall_cons in Hjs as [Hj Hjs]. rewrite st_for_cons.
    destruct (sim i j) eqn:Hsim.
    + destruct (union_step n uf E i j Hrep Hi Hj) as (uf1 & Hu & Hrep1).
      rewrite (st_bind_Some _ _ _ _ _ Hu).
      destruct (IH uf1 _ Hrep1 Hi Hjs) as (uf' & Hfor & Hrep').
      exists uf'. split; [done|]. eapply represents_iff; [|done].
      intros a b. simpl. rewrite elem_of_cons. split.
      * intros [[?|[-> ->]]|(-> & ? & ?)]; auto.
      * intros [?|(-> & [->|?] & ?)]; auto.
    + destruct (IH uf E Hrep Hi Hjs) as (uf' & Hfor & Hrep').
      exists uf'. split; [done|]. eapply represents_iff; [|done].
      intros a b. simpl. rewrite elem_of_cons. split.
      * intros [?|(-> & ? & ?)]; auto.
      * intros [?|(-> & [->|?] & ?)]; auto. congruence.
Qed.

Lemma outer_loop (n : nat) (sim : nat → nat → bool) (idxs : list nat) :
  ∀ (uf : list nat) (E : relation nat),
    represents n uf E → Forall (λ i, i < n) idxs →
    ∃ uf',
      st_for idxs (λ i,
        st_for (seq (i + 1) (n - (i + 1))) (λ j,
          if sim i j then union n i j else st_ret tt)) uf
        = Some (tt, uf') ∧
      represents n uf'
        (λ a b, E a b ∨ (a ∈ idxs ∧ a < b < n ∧ sim a b = true)).
Proof.
  induction idxs as [|i idxs IH]; intros uf E Hrep Hidxs.
  - exists uf. split; [done|]. eapply represents_iff; [|done].
    intros a b. split; [by left|]. intros [?|([]%elem_of_nil & _)]. done.
  - apply Forall_cons in Hidxs as [Hi Hidxs]. rewrite st_for_cons.
    destruct (inner_loop n sim i (seq (i + 1) (n - (i + 1))) uf E Hrep Hi)
      as (uf1 & Hin & Hrep1).
    { apply Forall_forall. intros j Hj%elem_of_seq. lia. }
    rewrite (st_bind_Some _ _ _ _ _ Hin).
    destruct (IH uf1 _ Hrep1 Hidxs) as (uf' & Hfor & Hrep').
    exists uf'. split; [done|]. eapply represents_iff; [|done].
    intros a b. simpl. rewrite elem_of_cons, elem_of_seq. split.
    + intros [[?|(-> & ? & ?)]|(? & ? & ?)]; auto.
      right. split; [by left|]. split; [lia | done].
    + intros [?|([->|?] & ? & ?)]; auto.
      left. right. split; [done|]. split; [lia | done].
Qed.

Lemma compareAll_represents (n : nat) (tokens : list (list string)) :
  ∃ uf',
    compareAll n tokens (seq 0 n) = Some (tt, uf') ∧
    represents n uf' (λ a b, a < b < n ∧ similar tokens a b = true).
Proof.
  destruct (outer_loop n (similar tokens) (seq 0 n) (seq 0 n) _
              (represents_initial n)) as (uf' & Hfor & Hrep).
  { apply Forall_forall. intros i Hi%elem_of_seq. lia. }
  exists uf'. split; [done|]. eapply represents_iff; [|done].
  intros a b. simpl. rewrite elem_of_seq. split.
  - intros [[]|(? & ? & ?)]. done.
  - intros (? & ?). right. split; [lia | done].
Qed.

(** ** The loop grouping the indices by root *)

Lemma root_fn_root_of (uf : list nat) x r :
  root_of uf x r → root_fn uf x = r.
Proof.
  intros Hr. unfold root_fn.
  destruct (find_root_of uf x r Hr) as (uf' & -> & _). done.
Qed.

Lemma group_fold_ext (rf rf' : nat → nat) (idxs : list nat) :
  ∀ g, Forall (λ i, rf i = rf' i) idxs →
       group_fold rf g idxs = group_fold rf' g idxs.
Proof.
  induction idxs as [|i idxs IH]; intros g Hall; [done|].
  apply Forall_cons in Hall as [Hi Hall]. unfold group_fold in *. simpl.
  rewrite Hi. by apply IH.
Qed.

Lemma group_loop (n : nat) (idxs : list nat) :
  ∀ (g : gmap nat (list nat)) (uf : list nat),
    length uf = n → forest uf → Forall (λ i, i < n) idxs →
    ∃ uf',
      st_foldl (λ (groups : gmap nat (list nat)) i,
          root <~ find n i;
          st_ret (<[root := default [] (groups !! root) ++ [i]]> groups))
        g idxs uf
      = Some (group_fold (root_fn uf) g idxs, uf') ∧
      length uf' = n ∧
      ∀ y ry, root_of uf y ry → root_of uf' y ry.
Proof.
  induction idxs as [|i idxs IH]; intros g uf Hlen Hf Hall.
  - exists uf. done.
  - apply Forall_cons in Hall as [Hi Hall].
    destruct (Hf i) as [ri Hri]; [by rewrite Hlen|].
    destruct (find_root_of uf i ri Hri) as (uf1 & Hfind & Hlen1 & Hp1).
    rewrite Hlen in Hfind. simpl. unfold st_bind at 1 2. rewrite Hfind.
    unfold st_ret at 1.
    destruct (IH (<[ri := default [] (g !! ri) ++ [i]]> g) uf1)
      as (uf' & Hloop & Hlen' & Hp'); [congruence | | done |].
    { by apply (forest_preserved uf). }
    exists uf'. split; [|split; [done|]]; cycle 1.
    { intros y ry Hy. by apply Hp', Hp1. }
    rewrite Hloop. f_equal. f_equal.
    unfold group_fold at 2. simpl. rewrite (root_fn_root_of uf i ri Hri).
    apply group_fold_ext. apply Forall_forall. intros k Hk.
    assert (k < length uf) as Hkn.
    { rewrite Hlen. by apply (proj1 (Forall_forall _ _) Hall). }
    destruct (Hf k Hkn) as [rk Hrk].
    rewrite (root_fn_root_of uf k rk Hrk).
    apply root_fn_root_of. by apply Hp1.
Qed.

Lemma group_fold_lookup (rf : nat → nat) (idxs : list nat) (r : nat) :
  ∀ g : gmap nat (list nat),
    group_fold rf g idxs !! r =
    match filter (λ i, rf i = r) idxs with
    | [] => g !! r
    | l => Some (default [] (g !! r) ++ l)
    end.
Proof.
  induction idxs as [|i idxs IH]; intros g; [done|].
  unfold group_fold in *. simpl. rewrite IH.
  rewrite filter_cons. destruct (decide (rf i = r)) as [<-|Hne].
  - rewrite lookup_insert_eq. simpl.
    destruct (filter _ idxs) as [|k l]; [done|].
    by rewrite <- app_assoc.
  - by rewrite lookup_insert_ne.
Qed.

Lemma group_fold_concat (rf : nat → nat) (idxs : list nat) :
  ∀ g : gmap nat (list nat),
    concat (snd <$> map_to_list (group_fold rf g idxs))
    ≡ₚ concat (snd <$> map_to_list g) ++ idxs.
Proof.
  induction idxs as [|i idxs IH]; intros g.
  - by rewrite app_nil_r.
  - unfold group_fold in *. simpl. rewrite IH.
    change (i :: idxs) with ([i] ++ idxs). rewrite app_assoc.
    apply Permutation_app_tail.
    destruct (g !! rf i) as [l|] eqn:Hg; simpl.
    + rewrite <- (insert_delete_eq g).
      rewrite map_to_list_insert by apply lookup_delete_eq.
      rewrite <- (map_to_list_delete g (rf i) l Hg).
      simpl. rewrite <- !app_assoc. apply Permutation_app_head.
      apply Permutation_app_comm.
    + rewrite map_to_list_insert by done. simpl.
      apply Permutation_cons_append.
Qed.

(** ** From the map of groups to the clusters *)

Lemma lookup_total_seq (items : list Item.t) :
  (λ idx, items !!! idx) <$> seq 0 (length items) = items.
Proof.
  apply list_eq. intros i. rewrite list_lookup_fmap.
  destruct (decide (i < length items)) as [Hi|Hi].
  - rewrite lookup_seq_lt by done. simpl.
    destruct (lookup_lt_is_Some_2 items i Hi) as [x Hx].
    by rewrite (list_lookup_total_correct _ _ _ Hx).
  - rewrite lookup_seq_ge by lia. simpl. symmetry.
    apply lookup_ge_None. lia.
Qed.

Lemma items_at_total (items : list Item.t) (l : list nat) :
  Forall (λ idx, idx < length items) l →
  items_at items l = Some ((λ idx, items !!! idx) <$> l).
Proof.
  induction 1 as [|idx l Hidx _ IH]; [done|].
  unfold items_at in *. simpl. rewrite IH.
  destruct (lookup_lt_is_Some_2 items idx Hidx) as [x Hx].
  rewrite Hx. simpl. by rewrite (list_lookup_total_correct _ _ _ Hx).
Qed.

Lemma buildCluster_fold (items : list Item.t) (l : list nat) :
  Forall (λ idx, idx < length items) l →
  ∀ (sources : gset SourceType) (clusterItems : list Item.t) (totalScore : Z),
  ∃ sources' totalScore',
    foldl (λ acc idx,
        '(sources, clusterItems, totalScore) ← acc;
        item ← items !! idx;
        Some ({[Item.Source item]} ∪ sources, clusterItems ++ [item],
              int64_wrap (totalScore + Item.Score item)))
      (Some (sources, clusterItems, totalScore)) l
    = Some (sources', clusterItems ++ ((λ idx, items !!! idx) <$> l),
            totalScore').
Proof.
  induction 1 as [|idx l Hidx _ IH]; intros sources clusterItems totalScore.
  - exists sources, totalScore. simpl. by rewrite app_nil_r.
  - destruct (lookup_lt_is_Some_2 items idx Hidx) as [x Hx].
    simpl. rewrite Hx. simpl.
    edestruct IH as (s' & t' & ->). exists s', t'.
    rewrite (list_lookup_total_correct _ _ _ Hx).
    by rewrite <- app_assoc.
Qed.

Lemma buildCluster_Some (items : list Item.t) (l : list nat) :
  Forall (λ idx, idx < length items) l → l ≠ [] →
  ∃ c, buildCluster items l = Some c ∧
       TopicCluster.Items c = (λ idx, items !!! idx) <$> l ∧
       items_at items l = Some (TopicCluster.Items c).
Proof.
  intros Hall Hne. unfold buildCluster.
  destruct (buildCluster_fold items l Hall ∅ [] 0%Z) as (s' & t' & ->).
  rewrite (items_at_total items l Hall).
  simpl. destruct l as [|idx l]; [done|]. simpl. eexists. done.
Qed.

Lemma buildClusters_Some (items : list Item.t) (groups : list (list nat)) :
  Forall (λ l, Forall (λ idx, idx < length items) l ∧ l ≠ []) groups →
  ∃ cs, mapM (buildCluster items) groups = Some cs ∧
        Forall2 (λ c l, TopicCluster.Items c = (λ idx, items !!! idx) <$> l)
          cs groups ∧
        Forall2 (λ c l, items_at items l = Some (TopicCluster.Items c))
          cs groups.
Proof.
  induction 1 as [|l groups [Hall Hne] _ (cs & Hcs & Hf2 & Hat)].
  - by exists [].
  - destruct (buildCluster_Some items l Hall Hne) as (c & Hc & Hitems & Hc').
    exists (c :: cs). simpl. rewrite Hc, Hcs. simpl. split; [done|].
    split; by constructor.
Qed.

Lemma cluster_items_concat (items : list Item.t) cs (groups : list (list nat)) :
  Forall2 (λ c l, TopicCluster.Items c = (λ idx, items !!! idx) <$> l)
    cs groups →
  concat (TopicCluster.Items <$> cs)
  = (λ idx, items !!! idx) <$> concat groups.
Proof.
  induction 1 as [|c l cs groups Hc _ IH]; [done|].
  change (TopicCluster.Items c ++ concat (TopicCluster.Items <$> cs)
          = (λ idx, items !!! idx) <$> (l ++ concat groups)).
  by rewrite fmap_app, Hc, IH.
Qed.

(** ** Clustering *)

Section Clustering.
Context `{GoLib}.

Lemma group_members (rf : nat → nat) (n : nat) (l : list nat) :
  l ∈ (snd <$> map_to_list (group_fold rf ∅ (seq 0 n))) ↔
  l ≠ [] ∧ ∃ r, l = filter (λ i, rf i = r) (seq 0 n).
Proof.
  rewrite list_elem_of_fmap. split.
  - intros ([r l'] & -> & Hin). apply elem_of_map_to_list in Hin.
    rewrite group_fold_lookup, lookup_empty in Hin. simpl.
    destruct (filter _ (seq 0 n)) as [|k l''] eqn:Hfl; [done|].
    injection Hin as <-. split; [done|]. exists r. by rewrite Hfl.
  - intros (Hne & r & ->). exists (r, filter (λ i, rf i = r) (seq 0 n)).
    split; [done|]. apply elem_of_map_to_list.
    rewrite group_fold_lookup, lookup_empty.
    by destruct (filter _ (seq 0 n)).
Qed.

Lemma clustering_run (items : list Item.t) :
  ∃ uf g cs,
    represents (length items) uf
      (λ a b, a < b < length items ∧
              similar (titleTokens items) a b = true) ∧
    clusterGroups items = Some g ∧
    g = group_fold (root_fn uf) ∅ (seq 0 (length items)) ∧
    clusterItems items = Some cs ∧
    Forall2 (λ c l, TopicCluster.Items c = (λ idx, items !!! idx) <$> l)
      cs (snd <$> map_to_list g) ∧
    Forall2 (λ c l, items_at items l = Some (TopicCluster.Items c))
      cs (snd <$> map_to_list g).
Proof.
  destruct (compareAll_represents (length items) (titleTokens items))
    as (uf & Hcmp & Hrep).
  pose proof Hrep as (Hlen & Hf & _).
  destruct (group_loop (length items) (seq 0 (length items)) ∅ uf Hlen Hf)
    as (uf' & Hloop & _).
  { apply Forall_forall. intros i Hi%elem_of_seq. lia. }
  assert (clusterGroups items
          = Some (group_fold (root_fn uf) ∅ (seq 0 (length items)))) as Hg.
  { unfold clusterGroups, groupByRoot.
    rewrite (st_bind_Some _ _ _ _ _ Hcmp), Hloop. done. }
  destruct (buildClusters_Some items
              (snd <$> map_to_list
                 (group_fold (root_fn uf) ∅ (seq 0 (length items)))))
    as (cs & Hcs & Hitems & Hat).
  { apply Forall_forall. intros l (Hne & r & ->)%group_members.
    split; [|done]. apply Forall_forall.
    intros i (_ & Hi%elem_of_seq)%list_elem_of_filter. lia. }
  exists uf, (group_fold (root_fn uf) ∅ (seq 0 (length items))), cs.
  split; [done|]. split; [done|]. split; [done|]. split; [|done].
  unfold clusterItems. rewrite Hg. simpl. exact Hcs.
Qed.

Lemma similar_sym (tokens : list (list string)) (a b : nat) :
  similar tokens a b = similar tokens b a.
Proof. unfold similar. by rewrite jaccard_sym. Qed.

Lemma titleTokens_lookup (items : list Item.t) (i : nat) (it : Item.t) :
  items !! i = Some it →
  titleTokens items !!! i = significantTokens (Item.Title it).
Proof.
  intros Hi. apply list_lookup_total_correct.
  unfold titleTokens. change (map ?f ?l) with (f <$> l).
  by rewrite list_lookup_fmap, Hi.
Qed.

(** The test the double loop runs on two positions is the test of the
    Jaccard index of the two titles against 0.3. *)
Lemma similar_titles_code (items : list Item.t) (i j : nat) :
  similar_titles items i j
  ↔ i < length items ∧ j < length items ∧
    similar (titleTokens items) i j = true.
Proof.
  unfold similar_titles, similar, token_set. split.
  - intros (a & b & Hi & Hj & Hsim).
    split; [by eapply lookup_lt_Some|]. split; [by eapply lookup_lt_Some|].
    rewrite (titleTokens_lookup _ _ _ Hi), (titleTokens_lookup _ _ _ Hj).
    by apply similar_index.
  - intros (Hi & Hj & Hsim).
    destruct (lookup_lt_is_Some_2 items i Hi) as [a Ha].
    destruct (lookup_lt_is_Some_2 items j Hj) as [b Hb].
    exists a, b. split; [done|]. split; [done|].
    rewrite (titleTokens_lookup _ _ _ Ha), (titleTokens_lookup _ _ _ Hb)
      in Hsim.
    by apply similar_index.
Qed.

Lemma connected_pairs (items : list Item.t) (x y : nat) :
  rtsc (λ a b, a < b < length items ∧
               similar (titleTokens items) a b = true) x y
  ↔ connected items x y.
Proof.
  unfold connected. split.
  - apply rtsc_subrel. intros a b ([? ?] & ?).
    apply similar_titles_code. split; [lia|]. split; [lia | done].
  - induction 1 as [x | x z y Hxz _ IH]; [done|].
    transitivity z; [|done]. clear IH.
    assert (∀ a b, similar_titles items a b →
              rtsc (λ a b, a < b < length items ∧
                           similar (titleTokens items) a b = true) a b)
      as Hstep.
    { intros a b (Ha & Hb & Hsim)%similar_titles_code.
      destruct (Nat.lt_total a b) as [Hlt|[->|Hgt]].
      - apply rtsc_lr. split; [lia | done].
      - done.
      - apply rtsc_rl. split; [lia|]. by rewrite similar_sym. }
    destruct Hxz as [Hxz|Hzx]; [by apply Hstep|].
    symmetry. by apply Hstep.
Qed.

Lemma groups_same_root (uf : list nat) (n i j : nat) :
  i < n → j < n →
  same_group (snd <$> map_to_list (group_fold (root_fn uf) ∅ (seq 0 n))) i j
  ↔ root_fn uf i = root_fn uf j.
Proof.
  intros Hi Hj. unfold same_group. split.
  - intros (l & (_ & r & ->)%group_members & Hil & Hjl).
    apply list_elem_of_filter in Hil as [-> _].
    by apply list_elem_of_filter in Hjl as [-> _].
  - intros Hij.
    exists (filter (λ k, root_fn uf k = root_fn uf i) (seq 0 n)).
    assert (i ∈ filter (λ k, root_fn uf k = root_fn uf i) (seq 0 n)) as Hil.
    { apply list_elem_of_filter. split; [done|]. apply elem_of_seq. lia. }
    split; [|split; [done|]].
    + apply group_members. split; [|by eexists].
      intros Hnil. rewrite Hnil in Hil. by apply elem_of_nil in Hil.
    + apply list_elem_of_filter. split; [done|]. apply elem_of_seq. lia.
Qed.

Lemma same_root_same_set (uf : list nat) (i j : nat) :
  forest uf → i < length uf → j < length uf →
  root_fn uf i = root_fn uf j ↔ same_set uf i j.
Proof.
  intros Hf Hi Hj.
  destruct (Hf i Hi) as [ri Hri]. destruct (Hf j Hj) as [rj Hrj].
  rewrite (root_fn_root_of _ _ _ Hri), (root_fn_root_of _ _ _ Hrj). split.
  - intros ->. by exists rj.
  - intros (r & Hir & Hjr).
    rewrite (root_of_det _ _ _ _ Hri Hir). by eapply root_of_det.
Qed.

(** C1. [clusterItems] returns, and two positions of the input lie in
    one group of indices, hence their items in one cluster, exactly when
    a chain of pairs of titles with Jaccard similarity at least 0.3
    connects them. *)
Theorem clusterItems_connected (items : list Item.t) :
  ∃ groups cs,
    (λ g, snd <$> map_to_list g) <$> clusterGroups items = Some groups ∧
    clusterItems items = Some cs ∧
    Forall2 (λ c g, items_at items g = Some (TopicCluster.Items c))
      cs groups ∧
    ∀ i j, i < length items → j < length items →
           (same_group groups i j ↔ connected items i j).
Proof.
  destruct (clustering_run items)
    as (uf & g & cs & Hrep & Hg & -> & Hcs & _ & Hat).
  eexists _, cs. split; [by rewrite Hg|]. split; [done|].
  split; [done|].
  intros i j Hi Hj. rewrite (groups_same_root uf _ i j Hi Hj).
  pose proof Hrep as (Hlen & Hf & H1 & H2).
  rewrite same_root_same_set by (done || by rewrite Hlen).
  rewrite <- connected_pairs. split; [apply H2|].
  intros Hc. by destruct (represents_chain _ _ _ _ _ Hrep Hi Hc).
Qed.

(** C2. The clusters partition the input: every position of the input
    occurs exactly once in the groups of indices, and the items of the
    clusters, taken together, are the input items, none lost and none
    duplicated. *)
Theorem clusterItems_partition (items : list Item.t) :
  ∃ groups cs,
    (λ g, snd <$> map_to_list g) <$> clusterGroups items = Some groups ∧
    clusterItems items = Some cs ∧
    Forall2 (λ c g, items_at items g = Some (TopicCluster.Items c))
      cs groups ∧
    concat groups ≡ₚ seq 0 (length items) ∧
    concat (TopicCluster.Items <$> cs) ≡ₚ items.
Proof.
  destruct (clustering_run items)
    as (uf & g & cs & Hrep & Hg & -> & Hcs & Hitems & Hat).
  eexists _, cs. split; [by rewrite Hg|]. split; [done|].
  split; [done|].
  pose proof (group_fold_concat (root_fn uf) (seq 0 (length items)) ∅)
    as Hperm.
  rewrite map_to_list_empty in Hperm. simpl in Hperm.
  split; [done|].
  rewrite (cluster_items_concat items cs _ Hitems), Hperm.
  by rewrite lookup_total_seq.
Qed.
End Clustering.

Lemma clusterItems_connected_witness :
  ∃ groups cs,
    (λ g, snd <$> map_to_list g) <$> clusterGroups three_items = Some groups ∧
    clusterItems three_items = Some cs ∧
    Forall2 (λ c g, items_at three_items g = Some (TopicCluster.Items c))
      cs groups ∧
    ∀ i j, i < 3 → j < 3 →
           (same_group groups i j ↔ connected three_items i j).
Proof. exact (clusterItems_connected three_items). Defined.

Lemma clusterItems_partition_witness :
  ∃ groups cs,
    (λ g, snd <$> map_to_list g) <$> clusterGroups three_items = Some groups ∧
    clusterItems three_items = Some cs ∧
    Forall2 (λ c g, items_at three_items g = Some (TopicCluster.Items c))
      cs groups ∧
    concat groups ≡ₚ [0; 1; 2] ∧
    concat (TopicCluster.Items <$> cs) ≡ₚ three_items.
Proof. exact (clusterItems_partition three_items). Defined.

(** ** The detection cycle *)

Lemma Qgtb_strict_weak_order :
  strict_weak_order (λ ti tj, Qgtb (Trend.Score ti) (Trend.Score tj)).
Proof.
  split; [|split].
  - intros a. apply Qgtb_false, Qle_refl.
  - intros a b c Hab%Qgtb_true Hbc%Qgtb_true. apply Qgtb_true.
    by eapply Qlt_trans.
  - intros a b c Hab%Qgtb_false Hba%Qgtb_false Hbc%Qgtb_false Hcb%Qgtb_false.
    split; apply Qgtb_false; by eapply Qle_trans.
Qed.

Section Detect.
Context {G : GoLib} {W : Type} `{World W}.

Lemma scoreCluster_total (e : Engine.t) (c : TopicCluster.t) (w : W) :
  ∃ score w', scoreCluster e c w = Some (score, w').
Proof.
  destruct (st_mapM_itemVelocity_total (TopicCluster.Items c) w)
    as (vs & w' & Hvs & _).
  destruct (scoreCluster_run e c w vs w' Hvs) as (vel & _ & Hrun).
  by eexists _, _.
Qed.

Lemma detectCluster_total (e : Engine.t) (now : Time)
    (trends : list Trend.t) (c : TopicCluster.t) (w : W) :
  ∃ trends' w', detectCluster e now trends c w = Some (trends', w').
Proof.
  unfold detectCluster.
  destruct (scoreCluster_total e c w) as (score & w1 & Hscore).
  rewrite (st_bind_Some _ _ _ _ _ Hscore). rewrite call_bind.
  destruct (store_UpsertTrend _ w1) as [[trend err] w2]. simpl.
  destruct err as [err|]; [|by eexists _, _].
  rewrite call_bind. by eexists _, _.
Qed.

(** From the clustering on, a cycle always completes without error. *)
Lemma detectItems_total (e : Engine.t) (items : list Item.t) (w : W) :
  ∃ trends w',
    detectItems e items w
    = Some ((sort_Slice _ trends
               (λ ti tj, Qgtb (Trend.Score ti) (Trend.Score tj)), None), w').
Proof.
  unfold detectItems.
  destruct (clustering_run items) as (_ & _ & cs & _ & _ & _ & Hcs & _).
  rewrite Hcs. unfold st_bind at 1, pure_or_panic. rewrite call_bind.
  destruct (st_foldl_invariant (λ _ _, True)
              (detectCluster e (time_Now w).1) cs) with (acc := @nil Trend.t)
              (s := (time_Now w).2) as (trends & w' & Hloop & _); [|done|].
  { intros acc c s _ _.
    destruct (detectCluster_total e (time_Now w).1 acc c s) as (t' & s' & ?).
    by exists t', s'. }
  rewrite (st_bind_Some _ _ _ _ _ Hloop). by eexists _, _.
Qed.

Lemma detectItems_sorted (e : Engine.t) (items : list Item.t) (w : W)
    trends err w' :
  sort_Slice_contract G →
  detectItems e items w = Some ((trends, err), w') →
  err = None ∧ by_score_descending trends.
Proof.
  intros Hsort Hrun.
  destruct (detectItems_total e items w) as (ts & w1 & Htot).
  rewrite Htot in Hrun. injection Hrun as <- <- <-. split; [done|].
  destruct (Hsort _ ts _ Qgtb_strict_weak_order) as [_ Hsorted].
  eapply StronglySorted_weaken; [|exact Hsorted].
  intros a b Hab. by apply Qgtb_false in Hab.
Qed.

(** The shape of a cycle, by what the store and the evaluator answer. *)
Lemma Detect_list_error (e : Engine.t) (w : W) items err w2 :
  store_ListItems (recent (time_Now w).1) (time_Now w).2
    = ((items, Some err), w2) →
  Detect e w = Some (([], Some (wrapError "list recent items: " err)), w2).
Proof.
  intros Hlist. unfold Detect. rewrite call_bind, call_bind.
  fold (recent (time_Now w).1). by rewrite Hlist.
Qed.

Lemma Detect_no_items (e : Engine.t) (w : W) w2 :
  store_ListItems (recent (time_Now w).1) (time_Now w).2
    = (([], None), w2) →
  Detect e w = Some (([], None), w2).
Proof.
  intros Hlist. unfold Detect. rewrite call_bind, call_bind.
  fold (recent (time_Now w).1). by rewrite Hlist.
Qed.

Lemma Detect_clear_error (e : Engine.t) (w : W) items w2 err w3 :
  store_ListItems (recent (time_Now w).1) (time_Now w).2
    = ((items, None), w2) →
  items ≠ [] →
  store_ClearTrends w2 = (Some err, w3) →
  Detect e w = Some (([], Some (wrapError "clear trends: " err)), w3).
Proof.
  intros Hlist Hne Hclear. unfold Detect. rewrite call_bind, call_bind.
  fold (recent (time_Now w).1). rewrite Hlist. simpl.
  destruct items as [|item items]; [done|]. simpl.
  rewrite call_bind. by rewrite Hclear.
Qed.

Lemma Detect_cleared (e : Engine.t) (w : W) items w2 w3 :
  store_ListItems (recent (time_Now w).1) (time_Now w).2
    = ((items, None), w2) →
  items ≠ [] →
  store_ClearTrends w2 = (None, w3) →
  Detect e w =
  match Engine.llm e with
  | Some llm =>
      ('(items, err) <~ llmFilter llm items;
       _ <~ match err with
            | Some err => call (fmt_Printf (log_llm_error err))
            | None => st_ret tt
            end;
       if length items =? 0 then st_ret ([], None)
       else detectItems e items) w3
  | None => detectItems e items w3
  end.
Proof.
  intros Hlist Hne Hclear. unfold Detect. rewrite call_bind, call_bind.
  fold (recent (time_Now w).1). rewrite Hlist. simpl.
  destruct items as [|item items]; [done|]. simpl.
  rewrite call_bind. rewrite Hclear. simpl. by destruct (Engine.llm e).
Qed.
End Detect.

Section Filter.
Context {G : GoLib} {W : Type} `{World W}.

Lemma callOpenAI_total (llm : LLMEvaluator.t) (prompt : string) (w : W) :
  ∃ raw err w', callOpenAI llm prompt w = Some ((raw, err), w').
Proof.
  unfold callOpenAI. destruct (http_NewRequest _); [by eexists _, _, _|].
  rewrite call_bind. destruct (http_Do _ w).1; [by eexists _, _, _|].
  destruct (negb _); [by eexists _, _, _|].
  destruct (json_Decode_openai _) as [choices [derr|]];
    [by eexists _, _, _|].
  destruct choices; by eexists _, _, _.
Qed.

Lemma callAnthropic_total (llm : LLMEvaluator.t) (prompt : string) (w : W) :
  ∃ raw err w', callAnthropic llm prompt w = Some ((raw, err), w').
Proof.
  unfold callAnthropic. destruct (http_NewRequest _); [by eexists _, _, _|].
  rewrite call_bind. destruct (http_Do _ w).1; [by eexists _, _, _|].
  destruct (negb _); [by eexists _, _, _|].
  destruct (json_Decode_anthropic _) as [content [derr|]];
    [by eexists _, _, _|].
  destruct content; by eexists _, _, _.
Qed.

Lemma EvaluateItems_total (llm : LLMEvaluator.t) (items : list Item.t)
    (w : W) :
  ∃ results err w', EvaluateItems llm items w = Some ((results, err), w').
Proof.
  unfold EvaluateItems. destruct (length items =? 0); [by eexists _, _, _|].
  set (prompt := (_ ++ _)%string).
  assert (∃ raw err w',
            (if String.eqb (LLMEvaluator.provider llm) "anthropic"
             then callAnthropic llm prompt else callOpenAI llm prompt) w
            = Some ((raw, err), w')) as (raw & err & w' & Hcall).
  { destruct (String.eqb _ _);
      [apply callAnthropic_total | apply callOpenAI_total]. }
  rewrite (st_bind_Some _ _ _ _ _ Hcall).
  destruct err; [by eexists _, _, _|].
  destruct (json_Unmarshal_results _) as [results [perr|]];
    by eexists _, _, _.
Qed.

Lemma llmFilter_total (llm : LLMEvaluator.t) (items : list Item.t) (w : W) :
  ∃ items' err w', llmFilter llm items w = Some ((items', err), w').
Proof.
  unfold llmFilter.
  destruct (EvaluateItems_total llm items w) as (results & err & w' & Hev).
  rewrite (st_bind_Some _ _ _ _ _ Hev).
  destruct err; [by eexists _, _, _|].
  destruct (length results =? 0); [by eexists _, _, _|].
  rewrite call_bind. by eexists _, _, _.
Qed.

Lemma llmFilter_error (llm : LLMEvaluator.t) (items : list Item.t) (w : W)
    results err w' :
  EvaluateItems llm items w = Some ((results, Some err), w') →
  llmFilter llm items w = Some ((items, Some err), w').
Proof.
  intros Hev. unfold llmFilter. by rewrite (st_bind_Some _ _ _ _ _ Hev).
Qed.

Lemma llmFilter_zero (llm : LLMEvaluator.t) (items : list Item.t) (w : W) w' :
  EvaluateItems llm items w = Some (([], None), w') →
  llmFilter llm items w = Some (([], None), w').
Proof.
  intros Hev. unfold llmFilter. by rewrite (st_bind_Some _ _ _ _ _ Hev).
Qed.

(** Every failing reply makes [EvaluateItems] return an error. *)
Lemma EvaluateItems_failure (llm : LLMEvaluator.t) (items : list Item.t)
    (w : W) :
  items ≠ [] →
  (∀ req, reply_fails (LLMEvaluator.provider llm) (http_Do req w).1) →
  ∃ err w', EvaluateItems llm items w = Some (([], Some err), w').
Proof.
  intros Hne Hfail. unfold EvaluateItems.
  destruct items as [|item items]; [done|].
  cbn [length Nat.eqb]. set (prompt := (_ ++ _)%string). clearbody prompt.
  destruct (String.eqb (LLMEvaluator.provider llm) "anthropic") eqn:Hprov.
  - unfold callAnthropic.
    destruct (http_NewRequest _) as [rerr|].
    { unfold st_bind, st_ret. by eexists _, _. }
    set (req := Request.mk _ _ _). specialize (Hfail req).
    unfold reply_fails in Hfail. rewrite Hprov in Hfail.
    unfold st_bind at 1. rewrite call_bind.
    destruct (http_Do req w).1 as [herr|status body].
    { unfold st_ret. by eexists _, _. }
    destruct (Z.eqb_spec status 200) as [->|Hstatus]; simpl;
      [|unfold st_ret; by eexists _, _].
    destruct Hfail as [Hfail|Hfail]; [done|].
    destruct (json_Decode_anthropic body) as [texts [derr|]];
      [unfold st_ret; by eexists _, _|].
    destruct Hfail as [Hfail|Hfail]; [done|].
    destruct texts as [|text texts]; [unfold st_ret; by eexists _, _|].
    unfold st_ret at 1.
    destruct (json_Unmarshal_results (stripFence text)) as [results [perr|]];
      [unfold st_ret; by eexists _, _ | done].
  - unfold callOpenAI.
    destruct (http_NewRequest _) as [rerr|].
    { unfold st_bind, st_ret. by eexists _, _. }
    set (req := Request.mk _ _ _). specialize (Hfail req).
    unfold reply_fails in Hfail. rewrite Hprov in Hfail.
    unfold st_bind at 1. rewrite call_bind.
    destruct (http_Do req w).1 as [herr|status body].
    { unfold st_ret. by eexists _, _. }
    destruct (Z.eqb_spec status 200) as [->|Hstatus]; simpl;
      [|unfold st_ret; by eexists _, _].
    destruct Hfail as [Hfail|Hfail]; [done|].
    destruct (json_Decode_openai body) as [texts [derr|]];
      [unfold st_ret; by eexists _, _|].
    destruct Hfail as [Hfail|Hfail]; [done|].
    destruct texts as [|text texts]; [unfold st_ret; by eexists _, _|].
    unfold st_ret at 1.
    destruct (json_Unmarshal_results (stripFence text)) as [results [perr|]];
      [unfold st_ret; by eexists _, _ | done].
Qed.
End Filter.

(** ** The stand-in library sorts as [sort.Slice] promises *)

Lemma asciiLib_sort_contract : sort_Slice_contract asciiLib.
Proof.
  intros A l less (Hirr & Htrans & Hinc). simpl. unfold order_by.
  set (R := λ a b : A, Is_true (negb (less b a))).
  assert (∀ a b, R a b ↔ less b a = false) as HR.
  { intros a b. unfold R. destruct (less b a); simpl; naive_solver. }
  split; [apply merge_sort_Permutation|].
  assert (Total R) as Htot.
  { intros a b. rewrite !HR.
    destruct (less b a) eqn:Hba; [|by left]. right.
    destruct (less a b) eqn:Hab; [|done].
    rewrite <- (Hirr a). symmetry. by apply (Htrans a b a). }
  assert (Transitive R) as Htr.
  { intros a b c. rewrite !HR. intros Hba Hcb.
    destruct (less c a) eqn:Hca; [|done]. exfalso.
    destruct (less a b) eqn:Hab.
    { pose proof (Htrans c a b Hca Hab). congruence. }
    destruct (less b c) eqn:Hbc.
    { pose proof (Htrans b c a Hbc Hca). congruence. }
    destruct (Hinc a b c Hab Hba Hbc Hcb) as [_ ?]. congruence. }
  eapply StronglySorted_weaken; [|apply (StronglySorted_merge_sort R)].
  intros a b. apply HR.
Qed.

(** ** The three claims about [Detect] *)





(** C7, as the code has it. Once the items are listed and the old trends
    cleared: if the reply of the provider fails (transport error, status
    other than 200, undecodable reply, unparseable payload), the evaluator
    returns an error and [Detect] runs the rest of the cycle on the
    original items and returns without error; if the evaluator returns no
    result and no error, [Detect] returns an empty result and no error. *)
Theorem Detect_llm_fail_soft {G : GoLib} {W : Type} `{World W}
    (e : Engine.t) (llm : LLMEvaluator.t) (w : W) items w2 w3 :
  Engine.llm e = Some llm →
  store_ListItems (recent (time_Now w).1) (time_Now w).2
    = ((items, None), w2) →
  items ≠ [] →
  store_ClearTrends w2 = (None, w3) →
  ((∀ req, reply_fails (LLMEvaluator.provider llm) (http_Do req w3).1) →
   ∃ err w4 trends w',
     EvaluateItems llm items w3 = Some (([], Some err), w4) ∧
     Detect e w
       = detectItems e items (fmt_Printf (log_llm_error err) w4).2 ∧
     Detect e w = Some ((trends, None), w')) ∧
  (∀ w4, EvaluateItems llm items w3 = Some (([], None), w4) →
         Detect e w = Some (([], None), w4)).
Proof.
  intros Hllm Hlist Hne Hclear.
  pose proof (Detect_cleared e w items w2 w3 Hlist Hne Hclear) as Hrun.
  rewrite Hllm in Hrun. split.
  - intros Hfail.
    destruct (EvaluateItems_failure llm items w3 Hne Hfail) as (err & w4 & Hev).
    exists err, w4.
    rewrite (st_bind_Some _ _ _ _ _ (llmFilter_error _ _ _ _ _ _ Hev)) in Hrun.
    rewrite call_bind in Hrun.
    destruct items as [|item items]; [done|]. simpl in Hrun.
    destruct (detectItems_total e (item :: items)
                (fmt_Printf (log_llm_error err) w4).2) as (ts & w' & Htot).
    eexists _, w'. split; [done|]. split; [done|]. by rewrite Hrun.
  - intros w4 Hev.
    by rewrite (st_bind_Some _ _ _ _ _ (llmFilter_zero _ _ _ _ Hev)) in Hrun.
Qed.

Lemma Detect_llm_fail_soft_witness :
  ∃ err w4 trends w',
    EvaluateItems openai_evaluator
      (select_items scenario_db (recent 0%Z))
      (store_ClearTrends (time_Now down_world).2).2
      = Some (([], Some err), w4) ∧
    Detect llm_engine down_world = Some ((trends, None), w').
Proof.
  destruct (Detect_llm_fail_soft llm_engine openai_evaluator down_world
              (select_items scenario_db (recent 0%Z))
              (time_Now down_world).2
              (store_ClearTrends (time_Now down_world).2).2)
    as [Hfail _].
  - reflexivity.
  - reflexivity.
  - vm_compute. discriminate.
  - reflexivity.
  - destruct Hfail as (err & w4 & trends & w' & Hev & _ & Hrun).
    + intros req. simpl. left. discriminate.
    + exists err, w4, trends, w'. split; [|exact Hrun].
      exact Hev.
Defined.

(** C7, as stated, fails for a reply with zero results: with a provider
    answering the empty array, the evaluator returns no result and no
    error, and [Detect] returns no trend, while the cycle on the
    unfiltered items yields trends. *)
Lemma Detect_zero_results_counterexample :
  ∃ w4 w5 trends w6,
    EvaluateItems openai_evaluator
      (select_items scenario_db (recent 0%Z))
      (store_ClearTrends (time_Now empty_reply_world).2).2
      = Some (([], None), w4) ∧
    Detect llm_engine empty_reply_world = Some (([], None), w5) ∧
    Detect plain_engine empty_reply_world = Some ((trends, None), w6) ∧
    length trends = 2.
Proof.
  eexists _, _, _, _. split; [vm_compute; reflexivity|].
  split; [vm_compute; reflexivity|]. split; [vm_compute; reflexivity|].
  reflexivity.
Qed.

(** C8, as the code has it. An error of [ListItems] or of [ClearTrends]
    aborts the cycle and is returned, wrapped; an error of [GetSnapshots]
    makes the velocity of that item 0; an error of [UpsertTrend] drops
    that trend from the result; and once listing and clearing succeeded,
    [Detect] returns no error whatever the other store calls answer. *)
Theorem Detect_store_errors {G : GoLib} {W : Type} `{World W}
    (e : Engine.t) (w : W) :
  (∀ items err w2,
     store_ListItems (recent (time_Now w).1) (time_Now w).2
       = ((items, Some err), w2) →
     Detect e w
       = Some (([], Some (wrapError "list recent items: " err)), w2)) ∧
  (∀ items w2 err w3,
     store_ListItems (recent (time_Now w).1) (time_Now w).2
       = ((items, None), w2) →
     items ≠ [] →
     store_ClearTrends w2 = (Some err, w3) →
     Detect e w = Some (([], Some (wrapError "clear trends: " err)), w3)) ∧
  (∀ item w0 snaps err w1,
     store_GetSnapshots (Item.ID item)
       (time_Add (time_Now w0).1 (-6 * Hour)%Z) (time_Now w0).2
       = ((snaps, Some err), w1) →
     itemVelocity item w0 = Some (0%Q, w1)) ∧
  (∀ now trends cluster w0 score w1 trend err w2,
     scoreCluster e cluster w0 = Some (score, w1) →
     store_UpsertTrend (newTrend cluster score now) w1
       = ((trend, Some err), w2) →
     detectCluster e now trends cluster w0
       = Some (trends, (fmt_Printf (log_upsert_error err) w2).2)) ∧
  (∀ items w2 w3,
     store_ListItems (recent (time_Now w).1) (time_Now w).2
       = ((items, None), w2) →
     store_ClearTrends w2 = (None, w3) →
     ∃ trends w', Detect e w = Some ((trends, None), w')).
Proof.
  split; [intros *; apply Detect_list_error|].
  split; [intros *; apply Detect_clear_error|].
  split; [|split].
  - intros item w0 snaps err w1 Hsnaps. unfold itemVelocity.
    rewrite call_bind, call_bind, Hsnaps. done.
  - intros now trends cluster w0 score w1 trend err w2 Hscore Hupsert.
    unfold detectCluster. rewrite (st_bind_Some _ _ _ _ _ Hscore).
    rewrite call_bind, Hupsert. simpl. by rewrite call_bind.
  - intros items w2 w3 Hlist Hclear.
    destruct (decide (items = [])) as [->|Hne].
    { eexists _, _. by eapply Detect_no_items. }
    pose proof (Detect_cleared e w items w2 w3 Hlist Hne Hclear) as Hrun.
    destruct (Engine.llm e) as [llm|].
    + destruct (llmFilter_total llm items w3) as (items' & ferr & w4 & Hfilter).
      rewrite (st_bind_Some _ _ _ _ _ Hfilter) in Hrun.
      assert (∃ w5, (match ferr with
                     | Some err => call (fmt_Printf (log_llm_error err))
                     | None => st_ret tt
                     end) w4 = Some (tt, w5)) as (w5 & Hprint).
      { destruct ferr; [|by eexists]. unfold call.
        destruct (fmt_Printf _ w4) as [[] w5]. by eexists. }
      rewrite (st_bind_Some _ _ _ _ _ Hprint) in Hrun.
      destruct (length items' =? 0); [by eexists _, _|].
      destruct (detectItems_total e items' w5) as (ts & w6 & Htot).
      rewrite Htot in Hrun. by eexists _, _.
    + destruct (detectItems_total e items w3) as (ts & w6 & Htot).
      rewrite Htot in Hrun. by eexists _, _.
Qed.

Lemma Detect_store_errors_witness :
  Detect plain_engine list_fails_world
  = Some (([], Some (wrapError "list recent items: "
                       (wrapError "list items: " disk_error))),
          (time_Now list_fails_world).2).
Proof.
  apply (proj1 (Detect_store_errors plain_engine list_fails_world) []).
  reflexivity.
Defined.

(** C8, as stated, fails: when [GetSnapshots] fails for every item, and
    when [UpsertTrend] fails for every trend, [Detect] still returns
    without error (with both trends, and with none). *)
Lemma Detect_swallows_store_errors_counterexample :
  (∃ w1 trends w',
     store_GetSnapshots "hackernews:10" 0%Z snapshots_fail_world
       = (([], Some (wrapError "get snapshots hackernews:10: " disk_error)),
          w1) ∧
     Detect plain_engine snapshots_fail_world = Some ((trends, None), w') ∧
     length trends = 2) ∧
  (∃ trend w1 w',
     store_UpsertTrend trend upsert_fails_world
       = ((trend, Some (wrapError "insert trend: " disk_error)), w1) ∧
     Detect plain_engine upsert_fails_world = Some (([], None), w')).
Proof.
  split.
  - eexists _, _, _. split; [reflexivity|].
    split; [vm_compute; reflexivity | reflexivity].
  - exists (newTrend cluster_mean_100 0%Q 0%Z). eexists _, _.
    split; [reflexivity | vm_compute; reflexivity].
Qed.

(** * Further properties of the code *)

(** ** Jaccard similarity, continued *)

Lemma Qdiv_nat_range (i u : nat) :
  i ≤ u → 0 < u →
  (0 <= inject_Z (Z.of_nat i) / inject_Z (Z.of_nat u) <= 1)%Q.
Proof.
  intros Hiu Hu. unfold Qle, Qdiv, Qmult, Qinv, inject_Z. simpl.
  destruct (Z.of_nat u) as [|p|p] eqn:Hp; [lia | | lia]. simpl. lia.
Qed.

Lemma Qdiv_nat_zero (i u : nat) :
  0 < u → (inject_Z (Z.of_nat i) / inject_Z (Z.of_nat u) == 0)%Q ↔ i = 0.
Proof.
  intros Hu. unfold Qeq, Qdiv, Qmult, Qinv, inject_Z. simpl.
  destruct (Z.of_nat u) as [|p|p] eqn:Hp; [lia | | lia]. simpl. lia.
Qed.

Lemma Qdiv_nat_one (i u : nat) :
  0 < u → (inject_Z (Z.of_nat i) / inject_Z (Z.of_nat u) == 1)%Q ↔ i = u.
Proof.
  intros Hu. unfold Qeq, Qdiv, Qmult, Qinv, inject_Z. simpl.
  destruct (Z.of_nat u) as [|p|p] eqn:Hp; [lia | | lia]. simpl. lia.
Qed.

(** X1. The similarity of any two token lists lies between 0 and 1. *)
Theorem jaccardSimilarity_range (a b : list string) :
  (0 <= jaccardSimilarity a b <= 1)%Q.
Proof.
  destruct (decide (a = [])) as [->|Ha].
  { rewrite jaccard_empty by auto. done. }
  destruct (decide (b = [])) as [->|Hb].
  { rewrite jaccard_empty by auto. done. }
  destruct (jaccard_quotient a b Ha Hb) as [-> Hpos].
  apply Qdiv_nat_range; [|done]. apply subseteq_size. set_solver.
Qed.

(** X2. The similarity depends only on the sets of tokens: repeating or
    reordering the tokens of either list does not change it. *)
Theorem jaccardSimilarity_set (a a' b b' : list string) :
  (list_to_set a : gset string) = list_to_set a' →
  (list_to_set b : gset string) = list_to_set b' →
  jaccardSimilarity a b = jaccardSimilarity a' b'.
Proof.
  intros Ha Hb.
  assert (∀ l l' : list string,
            (list_to_set l : gset string) = list_to_set l' →
            (length l =? 0) = (length l' =? 0)) as Hlen.
  { intros [|t l] [|t' l'] Hl; try done; simpl in Hl; set_solver. }
  rewrite !jaccard_unfold, (Hlen _ _ Ha), (Hlen _ _ Hb), Ha, Hb. done.
Qed.

Lemma jaccardSimilarity_set_witness :
  jaccardSimilarity ["gpt"; "openai"; "gpt"] ["launch"; "gpt"]%string
  = jaccardSimilarity ["openai"; "gpt"] ["gpt"; "launch"; "launch"]%string.
Proof.
  apply jaccardSimilarity_set; vm_compute; reflexivity.
Defined.

(** X3. For non-empty token lists the similarity is 0 exactly when no
    token is shared and 1 exactly when the token sets are equal. *)
Theorem jaccardSimilarity_extremes (a b : list string) :
  a ≠ [] → b ≠ [] →
  ((jaccardSimilarity a b == 0)%Q ↔
   (list_to_set a : gset string) ## list_to_set b) ∧
  ((jaccardSimilarity a b == 1)%Q ↔
   (list_to_set a : gset string) = list_to_set b).
Proof.
  intros Ha Hb. destruct (jaccard_quotient a b Ha Hb) as [-> Hpos].
  set (A := list_to_set a : gset string) in *.
  set (B := list_to_set b : gset string) in *.
  rewrite (Qdiv_nat_zero _ _ Hpos), (Qdiv_nat_one _ _ Hpos). split.
  - rewrite size_empty_iff. set_solver.
  - split.
    + intros Hsize. 
      assert (A ∩ B = A ∪ B) as Heq.
      { apply set_subseteq_size_eq; [set_solver | lia]. }
      apply set_eq. intros t. 
      assert (t ∈ A ∩ B ↔ t ∈ A ∪ B) as Ht by (by rewrite Heq).
      set_solver.
    + intros ->. f_equal. set_solver.
Qed.

Lemma jaccardSimilarity_extremes_witness :
  ((jaccardSimilarity ["gpt"] ["weather"]%string == 0)%Q ↔
   (list_to_set ["gpt"%string] : gset string) ## list_to_set ["weather"%string]) ∧
  ((jaccardSimilarity ["gpt"] ["weather"]%string == 1)%Q ↔
   (list_to_set ["gpt"%string] : gset string) = list_to_set ["weather"%string]).
Proof. apply jaccardSimilarity_extremes; discriminate. Defined.

(** ** Union-find, continued *)

Lemma find_parent (uf : list nat) x r d fuel uf' :
  reach uf x r d → d < fuel →
  find fuel x uf = Some (r, uf') → uf' !! x = Some r.
Proof.
  intros Hr Hfuel. destruct fuel as [|fuel]; [lia|]. simpl.
  inversion Hr as [? Hx | ? p ? d0 Hx Hp Hpr]; subst.
  - unfold st_bind, uf_read. rewrite Hx.
    destruct (decide (r ≠ r)); [done|]. unfold st_ret. rewrite Hx.
    by intros [= <-].
  - destruct (find_reach uf p r d0 Hpr fuel) as (uf1 & Hfind & Hlen & _);
      [lia|].
    unfold st_bind at 1, uf_read at 1. rewrite Hx.
    destruct (decide (p ≠ x)); [|done].
    unfold st_bind at 1 2. rewrite Hfind. unfold uf_write.
    assert (x < length uf1) as Hlt.
    { rewrite Hlen. by apply lookup_lt_Some in Hx. }
    destruct (decide (x < length uf1)); [|done].
    unfold uf_read. rewrite list_lookup_insert_eq by done.
    intros [= <-]. by apply list_lookup_insert_eq.
Qed.

(** X4. On a forest, [find(x)] returns the root of [x]; afterwards the
    parent of [x] is that root (the path is compressed), and every index
    has the root it had before. *)
Theorem find_compresses (uf : list nat) (x : nat) :
  forest uf → x < length uf →
  ∃ r uf',
    find (length uf) x uf = Some (r, uf') ∧
    root_of uf x r ∧
    uf' !! x = Some r ∧
    length uf' = length uf ∧
    ∀ y ry, root_of uf' y ry ↔ root_of uf y ry.
Proof.
  intros Hf Hx. destruct (Hf x Hx) as [r [d Hr]].
  pose proof (reach_depth_bound _ _ _ _ Hr) as Hd.
  destruct (find_reach uf x r d Hr (length uf) Hd) as (uf' & Hfind & Hlen & Hp).
  exists r, uf'. split; [done|]. split; [by exists d|].
  split; [by eapply find_parent|]. split; [done|].
  intros y ry. split; [|apply Hp]. intros Hy.
  destruct (Hf y) as [ry' Hry'].
  { rewrite <- Hlen. by apply root_of_lt in Hy as [? _]. }
  by rewrite (root_of_det _ _ _ _ Hy (Hp _ _ Hry')).
Qed.

Lemma find_compresses_witness :
  ∃ r uf',
    find 4 0 [1; 2; 2; 3] = Some (r, uf') ∧
    root_of [1; 2; 2; 3] 0 r ∧
    uf' !! 0 = Some r ∧
    length uf' = 4 ∧
    ∀ y ry, root_of uf' y ry ↔ root_of [1; 2; 2; 3] y ry.
Proof.
  apply (find_compresses [1; 2; 2; 3] 0); [|simpl; lia].
  intros y Hy. simpl in Hy.
  assert (root_of [1; 2; 2; 3] 2 2) as H2 by (by apply root_of_root).
  assert (root_of [1; 2; 2; 3] 1 2) as H1.
  { destruct H2 as [d Hd]. exists (S d). by apply (reach_step _ 1 2 2 d). }
  destruct y as [|[|[|[|y]]]]; [| | | |lia].
  - exists 2. destruct H1 as [d Hd]. exists (S d).
    by apply (reach_step _ 0 1 2 d).
  - by exists 2.
  - by exists 2.
  - exists 3. by apply root_of_root.
Defined.

Lemma merged_chain (uf : list nat) (x y a b : nat) :
  forest uf → x < length uf → y < length uf →
  rtsc (λ a b, same_set uf a b ∨ (a = x ∧ b = y)) a b →
  a = b ∨ same_set uf a b ∨
  (same_set uf a x ∧ same_set uf y b) ∨ (same_set uf a y ∧ same_set uf x b).
Proof.
  intros Hf Hx Hy.
  pose proof (same_set_refl uf x Hf Hx) as Hxx.
  pose proof (same_set_refl uf y Hf Hy) as Hyy.
  induction 1 as [a | a c b Hac _ IH]; [by left|]. right.
  assert (∀ u v w, same_set uf u v → same_set uf v w → same_set uf u w)
    as Htr by apply same_set_trans.
  assert (∀ u v, same_set uf u v → same_set uf v u) as Hsy
    by apply same_set_sym.
  destruct Hac as [[Hac|[-> ->]]|[Hca|[-> ->]]].
  - destruct IH as [<-|[?|[[? ?]|[? ?]]]]; eauto 6.
  - destruct IH as [<-|[?|[[? ?]|[? ?]]]]; eauto 6.
  - destruct IH as [<-|[?|[[? ?]|[? ?]]]]; eauto 6.
  - destruct IH as [<-|[?|[[? ?]|[? ?]]]]; eauto 6.
Qed.

(** X5. On a forest, [union(x, y)] returns a forest of the same size in
    which two indices share a set exactly when they did before, or one
    was with [x] and the other with [y]. *)
Theorem union_merges (uf : list nat) (x y : nat) :
  forest uf → x < length uf → y < length uf →
  ∃ uf',
    union (length uf) x y uf = Some (tt, uf') ∧
    length uf' = length uf ∧ forest uf' ∧
    ∀ a b, same_set uf' a b ↔
           same_set uf a b ∨
           (same_set uf a x ∧ same_set uf y b) ∨
           (same_set uf a y ∧ same_set uf x b).
Proof.
  intros Hf Hx Hy.
  assert (represents (length uf) uf (same_set uf)) as Hrep.
  { split; [done|]. split; [done|]. split.
    - intros a b Hab. split; [|split; [|done]].
      + destruct Hab as (r & Ha & _). by apply root_of_lt in Ha as [? _].
      + destruct Hab as (r & _ & Hb). by apply root_of_lt in Hb as [? _].
    - intros a b Hab. by apply rtsc_lr. }
  destruct (union_step _ uf _ x y Hrep Hx Hy)
    as (uf' & Hunion & Hlen & Hf' & H1 & H2).
  exists uf'. split; [done|]. split; [done|]. split; [done|].
  intros a b. split.
  - intros Hab. 
    destruct (merged_chain uf x y a b Hf Hx Hy (H2 _ _ Hab))
      as [<-|?]; [|done].
    left. apply same_set_refl; [done|]. rewrite <- Hlen.
    destruct Hab as (r & Ha & _). by apply root_of_lt in Ha as [? _].
  - assert (same_set uf' x y) as Hxy.
    { destruct (H1 x y) as (_ & _ & ?); auto. }
    assert (∀ u v, same_set uf u v → same_set uf' u v) as Hold.
    { intros u v Huv. destruct (H1 u v) as (_ & _ & ?); auto. }
    intros [Hab|[[Hax Hyb]|[Hay Hxb]]].
    + by apply Hold.
    + eapply same_set_trans; [by apply Hold|].
      eapply same_set_trans; [exact Hxy | by apply Hold].
    + eapply same_set_trans; [by apply Hold|].
      eapply same_set_trans; [apply same_set_sym, Hxy | by apply Hold].
Qed.

Lemma union_merges_witness :
  ∃ uf',
    union 3 0 2 [0; 1; 2] = Some (tt, uf') ∧
    length uf' = 3 ∧ forest uf' ∧
    ∀ a b, same_set uf' a b ↔
           same_set [0; 1; 2] a b ∨
           (same_set [0; 1; 2] a 0 ∧ same_set [0; 1; 2] 2 b) ∨
           (same_set [0; 1; 2] a 2 ∧ same_set [0; 1; 2] 0 b).
Proof.
  apply (union_merges [0; 1; 2] 0 2); [|simpl; lia|simpl; lia].
  intros y Hy. exists y. apply root_of_root.
  destruct y as [|[|[|y]]]; [done|done|done|simpl in Hy; lia].
Defined.

(** ** Clusters, continued *)

Lemma buildCluster_fold_full (items : list Item.t) (l : list nat) :
  Forall (λ idx, idx < length items) l →
  ∀ (sources : gset SourceType) (clusterItems : list Item.t) (totalScore : Z),
    foldl (λ acc idx,
        '(sources, clusterItems, totalScore) ← acc;
        item ← items !! idx;
        Some ({[Item.Source item]} ∪ sources, clusterItems ++ [item],
              int64_wrap (totalScore + Item.Score item)))
      (Some (sources, clusterItems, totalScore)) l
    = Some (list_to_set (Item.Source <$> ((λ idx, items !!! idx) <$> l))
              ∪ sources,
            clusterItems ++ ((λ idx, items !!! idx) <$> l),
            foldl (λ total item, int64_wrap (total + Item.Score item))
              totalScore ((λ idx, items !!! idx) <$> l)).
Proof.
  induction 1 as [|idx l Hidx _ IH]; intros sources clusterItems totalScore.
  - simpl. rewrite app_nil_r. f_equal. f_equal. f_equal. set_solver.
  - destruct (lookup_lt_is_Some_2 items idx Hidx) as [x Hx].
    simpl. rewrite Hx. simpl. rewrite IH.
    rewrite (list_lookup_total_correct _ _ _ Hx).
    rewrite <- app_assoc. f_equal. f_equal. f_equal. set_solver.
Qed.

Lemma best_loop (first : Item.t) (rest : list Item.t) :
  first_best (first :: rest)
    (foldl (λ best item,
        if (Item.Score item >? Item.Score best)%Z then item else best)
      first rest).
Proof.
  induction rest as [|x rest IH] using rev_ind.
  - exists 0. split; [done|]. split.
    + intros item ->%list_elem_of_singleton. simpl. lia.
    + intros j item Hj. lia.
  - rewrite foldl_app. simpl.
    destruct IH as (k & Hk & Hmax & Hfirst).
    set (best := foldl _ first rest) in *.
    destruct (Z.gtb_spec (Item.Score x) (Item.Score best)) as [Hgt|Hle].
    + exists (length (first :: rest)). split; [|split].
      * rewrite app_comm_cons.
        rewrite lookup_app_r by done. by rewrite Nat.sub_diag.
      * intros item. rewrite app_comm_cons, elem_of_app.
        intros [Hin|Hx%list_elem_of_singleton]; [|subst; lia].
        specialize (Hmax item Hin). lia.
      * intros j item Hj Hitem.
        rewrite app_comm_cons, lookup_app_l in Hitem by done.
        assert (item ∈ first :: rest) as Hin
          by (by eapply list_elem_of_lookup_2).
        specialize (Hmax item Hin). lia.
    + exists k. split; [|split].
      * rewrite app_comm_cons. apply lookup_app_l_Some. done.
      * intros item. rewrite app_comm_cons, elem_of_app.
        intros [Hin|Hx%list_elem_of_singleton]; [by apply Hmax | by subst].
      * intros j item Hj Hitem. apply (Hfirst j item Hj).
        rewrite app_comm_cons, lookup_app_l in Hitem; [done|].
        apply lookup_lt_Some in Hk. lia.
Qed.

Lemma buildCluster_facts (items : list Item.t) (l : list nat) c :
  Forall (λ idx, idx < length items) l →
  buildCluster items l = Some c →
  TopicCluster.Items c = (λ idx, items !!! idx) <$> l ∧
  TopicCluster.Items c ≠ [] ∧
  TopicCluster.Sources c
    = list_to_set (Item.Source <$> TopicCluster.Items c) ∧
  TopicCluster.TotalScore c = score_sum (TopicCluster.Items c) ∧
  TopicCluster.MaxVelocity c = 0%Q ∧
  ∃ best, first_best (TopicCluster.Items c) best ∧
          TopicCluster.Topic c = Item.Title best.
Proof.
  intros Hall. unfold buildCluster.
  rewrite (buildCluster_fold_full items l Hall ∅ [] 0%Z). simpl.
  set (its := (λ idx, items !!! idx) <$> l).
  destruct its as [|first rest] eqn:Hits; [done|]. simpl.
  intros [= <-]. simpl. split; [done|]. split; [done|].
  split; [set_solver|]. split; [done|]. split; [done|].
  eexists. split; [|reflexivity].
  destruct (Z.gtb_spec (Item.Score first) (Item.Score first)); [lia|].
  apply best_loop.
Qed.

Section Clusters.
Context `{GoLib}.

Lemma clustering_groups (items : list Item.t) :
  ∃ uf groups cs,
    represents (length items) uf
      (λ a b, a < b < length items ∧
              similar (titleTokens items) a b = true) ∧
    clusterIndexGroups items = Some groups ∧
    clusterItems items = Some cs ∧
    Forall2 (λ l c, buildCluster items l = Some c) groups cs ∧
    (∀ l, l ∈ groups ↔
          l ≠ [] ∧ ∃ r, l = filter (λ i, root_fn uf i = r)
                            (seq 0 (length items))) ∧
    (∀ i j, i < length items → j < length items →
            (same_group groups i j ↔ connected items i j)).
Proof.
  destruct (clustering_run items)
    as (uf & g & cs & Hrep & Hg & -> & Hcs & _ & _).
  exists uf. eexists _, cs. split; [done|].
  split; [unfold clusterIndexGroups; by rewrite Hg|]. split; [done|].
  split; [|split].
  - unfold clusterItems in Hcs. rewrite Hg in Hcs. simpl in Hcs.
    by apply mapM_Some in Hcs.
  - intros l. apply group_members.
  - intros i j Hi Hj. rewrite (groups_same_root uf _ i j Hi Hj).
    pose proof Hrep as (Hlen & Hf & H1 & H2).
    rewrite same_root_same_set by (done || by rewrite Hlen).
    rewrite <- connected_pairs. split; [apply H2|].
    intros Hc. by destruct (represents_chain _ _ _ _ _ Hrep Hi Hc).
Qed.

Lemma group_indices_valid (uf : list nat) (n : nat) (r : nat) :
  Forall (λ idx, idx < n) (filter (λ i, root_fn uf i = r) (seq 0 n)).
Proof.
  apply Forall_forall.
  intros i (_ & Hi%elem_of_seq)%list_elem_of_filter. lia.
Qed.

(** X6. Every cluster returned by [clusterItems] is non-empty; its
    sources are the sources of its items, its total score is the sum of
    their scores, its topic is the title of the first of its items with
    the highest score, and its maximal velocity is left at 0. *)
Theorem clusterItems_contents (items : list Item.t) :
  ∃ cs,
    clusterItems items = Some cs ∧
    Forall (λ c,
        TopicCluster.Items c ≠ [] ∧
        TopicCluster.Sources c
          = list_to_set (Item.Source <$> TopicCluster.Items c) ∧
        TopicCluster.TotalScore c = score_sum (TopicCluster.Items c) ∧
        TopicCluster.MaxVelocity c = 0%Q ∧
        ∃ best, first_best (TopicCluster.Items c) best ∧
                TopicCluster.Topic c = Item.Title best) cs.
Proof.
  destruct (clustering_groups items)
    as (uf & groups & cs & _ & _ & Hcs & Hbuild & Hgroups & _).
  exists cs. split; [done|].
  assert (Forall (λ l, Forall (λ idx, idx < length items) l) groups) as Hvalid.
  { apply Forall_forall. intros l (_ & r & ->)%Hgroups.
    apply group_indices_valid. }
  clear Hgroups Hcs.
  induction Hbuild as [|l c groups cs Hc _ IH]; [constructor|].
  apply Forall_cons in Hvalid as [Hl Hvalid].
  constructor; [|by apply IH].
  by destruct (buildCluster_facts items l c Hl Hc) as (_ & ? & ? & ? & ? & ?).
Qed.

Lemma sorted_seq (a n : nat) : StronglySorted lt (seq a n).
Proof.
  revert a. induction n as [|n IH]; intros a; simpl; constructor; [done|].
  apply Forall_forall. intros j Hj%elem_of_seq. lia.
Qed.

Lemma sorted_filter (P : nat → Prop) `{∀ i, Decision (P i)} (l : list nat) :
  StronglySorted lt l → StronglySorted lt (filter P l).
Proof.
  induction 1 as [|a l _ IH Hall]; [constructor|].
  rewrite filter_cons. destruct (decide (P a)); [|done].
  constructor; [done|]. apply Forall_forall.
  intros j [_ Hj]%list_elem_of_filter.
  by apply (proj1 (Forall_forall _ _) Hall).
Qed.

Lemma concat_length_ge (ls : list (list nat)) :
  Forall (λ l, l ≠ []) ls → length ls ≤ length (concat ls).
Proof.
  induction 1 as [|l ls Hl _ IH]; [done|]. simpl. rewrite length_app.
  destruct l; [done|]. simpl. lia.
Qed.

(** X7. The indices of every cluster are in increasing order, so the
    items of a cluster keep the order of the input; no cluster is empty,
    and there are at most as many clusters as items. *)
Theorem clusterItems_order (items : list Item.t) :
  ∃ groups cs,
    clusterIndexGroups items = Some groups ∧
    clusterItems items = Some cs ∧
    Forall2 (λ c l, items_at items l = Some (TopicCluster.Items c))
      cs groups ∧
    Forall (λ l, l ≠ [] ∧ StronglySorted lt l) groups ∧
    length cs ≤ length items.
Proof.
  destruct (clustering_run items)
    as (uf & g & cs & _ & Hg & -> & Hcs & _ & Hat).
  eexists _, cs. split; [unfold clusterIndexGroups; by rewrite Hg|].
  split; [done|]. split; [done|].
  assert (Forall (λ l, l ≠ [] ∧ StronglySorted lt l)
            (snd <$> map_to_list
               (group_fold (root_fn uf) ∅ (seq 0 (length items))))) as Hsorted.
  { apply Forall_forall. intros l (Hne & r & ->)%group_members.
    split; [done|]. apply sorted_filter, sorted_seq. }
  split; [done|].
  rewrite (Forall2_length _ _ _ Hat).
  pose proof (group_fold_concat (root_fn uf) (seq 0 (length items)) ∅)
    as Hperm.
  rewrite map_to_list_empty in Hperm. simpl in Hperm.
  apply Permutation_length in Hperm. rewrite length_seq in Hperm.
  etrans; [|apply Nat.eq_le_incl, Hperm]. apply concat_length_ge.
  eapply Forall_impl; [exact Hsorted|]. by intros l [? _].
Qed.

Lemma tokens_at (items : list Item.t) (i : nat) (it : Item.t) :
  items !! i = Some it →
  titleTokens items !!! i = significantTokens (Item.Title it).
Proof.
  intros Hi. apply list_lookup_total_correct.
  unfold titleTokens. change (map ?f ?l) with (f <$> l).
  by rewrite list_lookup_fmap, Hi.
Qed.

Lemma group_of (uf : list nat) (n i : nat) (groups : list (list nat)) :
  (∀ l, l ∈ groups ↔
        l ≠ [] ∧ ∃ r, l = filter (λ k, root_fn uf k = r) (seq 0 n)) →
  i < n →
  ∃ l, l ∈ groups ∧ i ∈ l ∧ NoDup l ∧ Forall (λ k, k < n) l.
Proof.
  intros Hgroups Hi.
  exists (filter (λ k, root_fn uf k = root_fn uf i) (seq 0 n)).
  assert (i ∈ filter (λ k, root_fn uf k = root_fn uf i) (seq 0 n)) as Hin.
  { apply list_elem_of_filter. split; [done|]. apply elem_of_seq. lia. }
  split; [|split; [done|split]].
  - apply Hgroups. split; [|by eexists].
    intros Hnil. rewrite Hnil in Hin. by apply elem_of_nil in Hin.
  - apply NoDup_filter, NoDup_seq.
  - apply group_indices_valid.
Qed.

Lemma all_equal_singleton (l : list nat) (i : nat) :
  NoDup l → i ∈ l → (∀ j, j ∈ l → j = i) → l = [i].
Proof.
  intros Hnd Hi Hall. destruct l as [|a l]; [by apply elem_of_nil in Hi|].
  assert (a = i) as -> by (apply Hall; left).
  destruct l as [|b l]; [done|].
  assert (b = i) as -> by (apply Hall; right; left).
  apply NoDup_cons in Hnd as [Hnotin _]. destruct Hnotin. left.
Qed.

(** X8. An item whose title has no significant token is never merged
    with another item: its cluster consists of that item alone. *)
Theorem tokenless_item_alone (items : list Item.t) (i : nat) (it : Item.t) :
  items !! i = Some it →
  significantTokens (Item.Title it) = [] →
  ∃ groups,
    clusterIndexGroups items = Some groups ∧
    [i] ∈ groups ∧
    ∀ l, l ∈ groups → i ∈ l → l = [i].
Proof.
  intros Hi Htok.
  destruct (clustering_groups items)
    as (uf & groups & cs & _ & Hg & _ & _ & Hgroups & Hconn).
  exists groups. split; [done|].
  assert (i < length items) as Hlt by (by eapply lookup_lt_Some).
  assert (∀ j, ¬ similar (titleTokens items) i j = true ∧
               ¬ similar (titleTokens items) j i = true) as Hnone.
  { intros j. unfold similar. rewrite (tokens_at items i it Hi), Htok.
    rewrite (jaccard_sym _ []), !jaccard_empty by auto. done. }
  assert (∀ j, connected items i j → j = i) as Halone.
  { intros j Hc. symmetry. eapply rtsc_nf; [exact Hc|].
    intros (y & [(_ & _ & Hs)%similar_titles_code
                 |(_ & _ & Hs)%similar_titles_code]);
      by destruct (Hnone y). }
  assert (∀ l, l ∈ groups → i ∈ l → l = [i]) as Honly.
  { intros l Hl Hil. pose proof Hl as (_ & r & Hfilter)%Hgroups.
    apply all_equal_singleton; [| done |].
    - rewrite Hfilter. apply NoDup_filter, NoDup_seq.
    - intros j Hj. apply Halone. apply Hconn; [done| |by exists l].
      rewrite Hfilter in Hj.
      apply list_elem_of_filter in Hj as [_ Hj%elem_of_seq]. lia. }
  split; [|done].
  destruct (group_of uf _ i groups Hgroups Hlt) as (l & Hl & Hil & _).
  by rewrite <- (Honly l Hl Hil).
Qed.

(** X9. Two items whose titles have the same set of significant tokens,
    and at least one, always land in one cluster: titles that are equal,
    or that differ only in what the tokenizer drops or in the order and
    the repetition of their words. *)
Theorem same_tokens_same_cluster (items : list Item.t) (i j : nat)
    (a b : Item.t) :
  items !! i = Some a → items !! j = Some b →
  (list_to_set (significantTokens (Item.Title a)) : gset string)
    = list_to_set (significantTokens (Item.Title b)) →
  significantTokens (Item.Title a) ≠ [] →
  ∃ groups,
    clusterIndexGroups items = Some groups ∧ same_group groups i j.
Proof.
  intros Hi Hj Hset Htok.
  destruct (clustering_groups items)
    as (uf & groups & cs & _ & Hg & _ & _ & _ & Hconn).
  exists groups. split; [done|].
  assert (i < length items) as Hilt by (by eapply lookup_lt_Some).
  assert (j < length items) as Hjlt by (by eapply lookup_lt_Some).
  apply Hconn; [done | done |]. apply rtsc_lr. apply similar_titles_code.
  split; [done|]. split; [done|]. unfold similar.
  rewrite (tokens_at items i a Hi), (tokens_at items j b Hj).
  apply Qgeb_true.
  rewrite (jaccard_same_set _ _ Htok Hset). done.
Qed.

End Clusters.

Lemma clusterItems_contents_witness :
  ∃ cs,
    clusterItems three_items = Some cs ∧
    Forall (λ c,
        TopicCluster.Items c ≠ [] ∧
        TopicCluster.Sources c
          = list_to_set (Item.Source <$> TopicCluster.Items c) ∧
        TopicCluster.TotalScore c = score_sum (TopicCluster.Items c) ∧
        TopicCluster.MaxVelocity c = 0%Q ∧
        ∃ best, first_best (TopicCluster.Items c) best ∧
                TopicCluster.Topic c = Item.Title best) cs.
Proof. exact (clusterItems_contents three_items). Defined.

Lemma clusterItems_order_witness :
  ∃ groups cs,
    clusterIndexGroups three_items = Some groups ∧
    clusterItems three_items = Some cs ∧
    Forall2 (λ c l, items_at three_items l = Some (TopicCluster.Items c))
      cs groups ∧
    Forall (λ l, l ≠ [] ∧ StronglySorted lt l) groups ∧
    length cs ≤ 3.
Proof. exact (clusterItems_order three_items). Defined.

Lemma tokenless_item_alone_witness :
  ∃ groups,
    clusterIndexGroups four_items = Some groups ∧
    [3] ∈ groups ∧
    ∀ l, l ∈ groups → 3 ∈ l → l = [3].
Proof.
  apply (tokenless_item_alone four_items 3
           (item "rss:31" "rss" "It is what it is" 5)).
  - reflexivity.
  - vm_compute. reflexivity.
Defined.

Lemma same_tokens_same_cluster_witness :
  ∃ groups,
    clusterIndexGroups reposted_items = Some groups ∧ same_group groups 0 2.
Proof.
  apply (same_tokens_same_cluster reposted_items 0 2
           (item "hackernews:11" "hackernews" "GPT-5 is here" 90)
           (item "reddit:21" "reddit" "Here it is: GPT-5!" 40)).
  - reflexivity.
  - reflexivity.
  - vm_compute. reflexivity.
  - vm_compute. discriminate.
Defined.

(** ** The components of the score *)

(** X10. The cross-source component is 20 points for each distinct
    source up to five sources, where it stays at 100; a cluster with more
    sources never has a smaller component. *)
Theorem crossScore_sources (s t : gset SourceType) :
  (crossScore t == inject_Z (Z.of_nat (20 * Nat.min (size t) 5)))%Q ∧
  (s ⊆ t → (crossScore s <= crossScore t)%Q).
Proof.
  assert (∀ u : gset SourceType,
            (crossScore u == inject_Z (Z.of_nat (20 * Nat.min (size u) 5)))%Q)
    as Hval.
  { intros u. unfold crossScore, float64_of_int.
    destruct (Qgtb _ 100) eqn:E.
    - apply Qgtb_true in E. unfold Qlt in E. simpl in E.
      unfold Qeq. simpl. lia.
    - apply Qgtb_false in E. unfold Qle in E. simpl in E.
      unfold Qeq. simpl. lia. }
  split; [apply Hval|]. intros Hsub.
  rewrite (Hval s), (Hval t). apply subseteq_size in Hsub.
  unfold Qle. simpl. lia.
Qed.

Lemma crossScore_sources_witness :
  (crossScore {["github"%string; "reddit"%string]}
   == inject_Z (Z.of_nat
        (20 * Nat.min (size ({["github"%string; "reddit"%string]}
                               : gset SourceType)) 5)))%Q ∧
  (({["github"%string]} : gset SourceType)
     ⊆ {["github"%string; "reddit"%string]} →
   (crossScore {["github"%string]}
    <= crossScore {["github"%string; "reddit"%string]})%Q).
Proof.
  exact (crossScore_sources {["github"%string]}
           {["github"%string; "reddit"%string]}).
Defined.

Lemma absoluteScore_mean (total : Z) (count : nat) :
  0 < count → (0 < total)%Z →
  let m := (inject_Z total / inject_Z (Z.of_nat count))%Q in
  (0 < m)%Q ∧
  (absoluteScore total count
   == if Qgtb m 1000 then 100
      else if Qgtb m 100 then 60 + (m - 100) * (40 # 900)
      else if Qgtb m 10 then 20 + (m - 10) * (40 # 90)
      else m * 2)%Q.
Proof.
  intros Hc Ht m. split; [by apply (mean_pos total count Hc)|].
  unfold absoluteScore, float64_of_int. fold m.
  destruct (Z.gtb_spec total 0) as [_|]; [|lia].
  destruct (Qgtb m 1000); [done|].
  destruct (Qgtb m 100); [field|].
  destruct (Qgtb m 10); field.
Qed.

Lemma mean_le (t1 t2 : Z) (count : nat) :
  0 < count → (t1 ≤ t2)%Z →
  (inject_Z t1 / inject_Z (Z.of_nat count)
   <= inject_Z t2 / inject_Z (Z.of_nat count))%Q.
Proof.
  intros Hc Hle. unfold Qdiv. apply Qmult_le_compat_r.
  - by rewrite <- Zle_Qle.
  - apply Qinv_le_0_compat, inject_Z_nat_nonneg.
Qed.

(** X11. For a cluster of a given size the absolute component never
    decreases when the total score grows: the four pieces of the scale
    meet at 10, 100 and 1000. *)
Theorem absoluteScore_monotone (t1 t2 : Z) (count : nat) :
  0 < count → (t1 ≤ t2)%Z →
  (absoluteScore t1 count <= absoluteScore t2 count)%Q.
Proof.
  intros Hc Hle.
  destruct (Z_lt_le_dec 0 t1) as [H1|H1].
  - assert (0 < t2)%Z as H2 by lia.
    destruct (absoluteScore_mean t1 count Hc H1) as [Hm1 ->].
    destruct (absoluteScore_mean t2 count Hc H2) as [Hm2 ->].
    pose proof (mean_le t1 t2 count Hc Hle) as Hm.
    set (m1 := (inject_Z t1 / _)%Q) in *.
    set (m2 := (inject_Z t2 / _)%Q) in *. clearbody m1 m2.
    destruct (Qgtb m1 1000) eqn:A1; [apply Qgtb_true in A1|apply Qgtb_false in A1];
    destruct (Qgtb m2 1000) eqn:B1; [apply Qgtb_true in B1|apply Qgtb_false in B1|
                                      apply Qgtb_true in B1|apply Qgtb_false in B1];
    try lra;
    destruct (Qgtb m1 100) eqn:A2; [apply Qgtb_true in A2|apply Qgtb_false in A2|
                                     apply Qgtb_true in A2|apply Qgtb_false in A2];
    try lra;
    try (destruct (Qgtb m2 100) eqn:B2;
         [apply Qgtb_true in B2|apply Qgtb_false in B2]);
    try lra;
    destruct (Qgtb m1 10) eqn:A3;
    try (apply Qgtb_true in A3); try (apply Qgtb_false in A3);
    try lra;
    try (destruct (Qgtb m2 10) eqn:B3;
         [apply Qgtb_true in B3|apply Qgtb_false in B3]);
    lra.
  - assert (absoluteScore t1 count = 0%Q) as ->.
    { unfold absoluteScore. destruct (Z.gtb_spec t1 0); [lia|done]. }
    apply (absoluteScore_range t2 count Hc).
Qed.

Lemma absoluteScore_monotone_witness :
  (absoluteScore 150 3 <= absoluteScore 4000 3)%Q.
Proof. apply (absoluteScore_monotone 150 4000 3); lia. Defined.

(** X12. With weights that are not negative, the score of a non-empty
    cluster is returned and lies between 0 and 100 times the sum of the
    weights. *)
Theorem scoreCluster_weighted_range {W : Type} `{World W}
    (e : Engine.t) (c : TopicCluster.t) (w : W) :
  (0 <= Engine.crossSourceWeight e)%Q →
  (0 <= Engine.velocityWeight e)%Q →
  (0 <= Engine.absoluteWeight e)%Q →
  TopicCluster.Items c ≠ [] →
  ∃ score w',
    scoreCluster e c w = Some (score, w') ∧
    (0 <= score
     <= 100 * (Engine.crossSourceWeight e + Engine.velocityWeight e
               + Engine.absoluteWeight e))%Q.
Proof.
  intros Hcw Hvw Haw Hne.
  destruct (st_mapM_itemVelocity_total (TopicCluster.Items c) w)
    as (vs & w' & Hvs & _).
  destruct (scoreCluster_run e c w vs w' Hvs) as (vel & Hvel & Hrun).
  eexists _, w'. split; [exact Hrun|].
  assert (0 < length (TopicCluster.Items c)) as Hc.
  { destruct (TopicCluster.Items c); [done | simpl; lia]. }
  pose proof (crossScore_range (TopicCluster.Sources c)) as Hcross.
  pose proof (absoluteScore_range (TopicCluster.TotalScore c) _ Hc) as Habs.
  pose proof (floor_cap_range vs) as Hfc. rewrite <- Hvel in Hfc.
  set (x := crossScore _) in *. set (a := absoluteScore _ _) in *.
  set (wc := Engine.crossSourceWeight e) in *.
  set (wv := Engine.velocityWeight e) in *.
  set (wa := Engine.absoluteWeight e) in *.
  clearbody x a wc wv wa. clear Hrun Hvel. nra.
Qed.

Lemma scoreCluster_weighted_range_witness :
  ∃ score w',
    scoreCluster (Engine.mk (1 # 4) (1 # 4) (1 # 2) None) cluster_mean_100
      declining_world = Some (score, w') ∧
    (0 <= score <= 100 * ((1 # 4) + (1 # 4) + (1 # 2)))%Q.
Proof.
  apply (scoreCluster_weighted_range (Engine.mk (1 # 4) (1 # 4) (1 # 2) None)
           cluster_mean_100 declining_world).
  - vm_compute. discriminate.
  - vm_compute. discriminate.
  - vm_compute. discriminate.
  - discriminate.
Defined.

Lemma thresholds_positive (sourceType : string) (threshold : float64) :
  thresholds !! sourceType = Some threshold → (100 <= threshold)%Q.
Proof.
  unfold thresholds. intros Hl.
  repeat (apply lookup_insert_Some in Hl as [[_ <-]|[_ Hl]];
          [vm_compute; discriminate|]).
  apply lookup_singleton_Some in Hl as [_ <-]. vm_compute. discriminate.
Qed.

Lemma NormalizeScore_ratio (score : Z) (sourceType : string)
    (threshold : float64) :
  thresholds !! sourceType = Some threshold →
  (NormalizeScore score sourceType
   == Qmin 100 (inject_Z score / threshold * 100))%Q.
Proof.
  intros Hl. pose proof (thresholds_positive _ _ Hl) as Hpos.
  unfold NormalizeScore, float64_of_int.
  change (@lookup string Q) with (@lookup string float64). rewrite Hl.
  destruct (Qeq_bool threshold 0) eqn:E0.
  { apply Qeq_bool_true in E0. lra. }
  set (ratio := (inject_Z score / threshold)%Q). clearbody ratio.
  destruct (Qgtb ratio 1) eqn:E.
  - apply Qgtb_true in E. symmetry. apply Q.min_l. lra.
  - apply Qgtb_false in E. symmetry. apply Q.min_r. lra.
Qed.

(** X13. [NormalizeScore] is 0 for a source without a threshold
    (ArXiv, RSS, Twitter and any unknown name). For the four sources with
    a threshold it is the score as a percentage of the threshold, capped
    at 100: it never exceeds 100, does not decrease with the score, is
    not negative for a score that is not negative, and is negative for a
    negative score, which the code does not clamp. *)
Theorem NormalizeScore_scale (score score' : Z) (sourceType : string) :
  (thresholds !! sourceType = None → NormalizeScore score sourceType = 0%Q) ∧
  (NormalizeScore score sourceType <= 100)%Q ∧
  ((score ≤ score')%Z →
   (NormalizeScore score sourceType <= NormalizeScore score' sourceType)%Q) ∧
  ((0 ≤ score)%Z → (0 <= NormalizeScore score sourceType)%Q) ∧
  ((score < 0)%Z → thresholds !! sourceType ≠ None →
   (NormalizeScore score sourceType < 0)%Q) ∧
  (∀ threshold, thresholds !! sourceType = Some threshold →
     ((NormalizeScore score sourceType == 100)%Q
      ↔ (threshold <= inject_Z score)%Q)).
Proof.
  destruct (thresholds !! sourceType) as [threshold|] eqn:Hl.
  2: { unfold NormalizeScore.
       change (@lookup string Q) with (@lookup string float64). rewrite Hl.
       repeat split; done. }
  pose proof (thresholds_positive _ _ Hl) as Hpos.
  assert (∀ z, (inject_Z z / threshold * 100
                == inject_Z z * (100 / threshold))%Q) as Hdiv.
  { intros z. field. lra. }
  assert (0 < 100 / threshold)%Q as Hk.
  { apply Qlt_shift_div_l; lra. }
  assert (100 / threshold * threshold == 100)%Q as Hkt by (field; lra).
  pose proof (NormalizeScore_ratio score _ _ Hl) as Hs.
  pose proof (NormalizeScore_ratio score' _ _ Hl) as Hs'.
  rewrite Hdiv in Hs, Hs'.
  set (k := (100 / threshold)%Q) in *. clearbody k.
  split; [done|]. split; [rewrite Hs; apply Q.le_min_l|].
  split.
  { intros Hle. rewrite Hs, Hs'. apply Q.min_le_compat_l.
    apply Qmult_le_compat_r; [|lra]. by rewrite <- Zle_Qle. }
  split.
  { intros Hz. rewrite Hs. apply Q.min_glb; [lra|].
    apply Qmult_le_0_compat; [|lra].
    change 0%Q with (inject_Z 0). by rewrite <- Zle_Qle. }
  split.
  { intros Hz _. rewrite Hs. eapply Qle_lt_trans; [apply Q.le_min_r|].
    assert (inject_Z score < 0)%Q as Hneg.
    { change 0%Q with (inject_Z 0). by rewrite <- Zlt_Qlt. }
    nra. }
  intros ? [= <-]. rewrite Hs. clear Hs Hs'.
  set (s := inject_Z score). clearbody s. split.
  - intros Hmin. destruct (Qlt_le_dec s threshold) as [Hlt|]; [|done].
    exfalso. assert (s * k < 100)%Q as Hsk by nra.
    rewrite (Q.min_r 100 (s * k)) in Hmin by lra. lra.
  - intros Hge. apply Q.min_l. nra.
Qed.

Lemma NormalizeScore_scale_witness :
  (thresholds !! "arxiv"%string = None → NormalizeScore 7 "arxiv" = 0%Q) ∧
  (NormalizeScore (-50) "github" <= 100)%Q ∧
  ((-50 ≤ 250)%Z →
   (NormalizeScore (-50) "github" <= NormalizeScore 250 "github")%Q) ∧
  ((0 ≤ 250)%Z → (0 <= NormalizeScore 250 "github")%Q) ∧
  ((-50 < 0)%Z → thresholds !! "github"%string ≠ None →
   (NormalizeScore (-50) "github" < 0)%Q) ∧
  (NormalizeScore 250 "github" == 100)%Q.
Proof.
  pose proof (NormalizeScore_scale 7 7 "arxiv") as (Ha & _).
  pose proof (NormalizeScore_scale (-50) 250 "github")
    as (_ & Hb & Hc & _ & He & _).
  pose proof (NormalizeScore_scale 250 250 "github")
    as (_ & _ & _ & Hd & _ & Hf).
  split; [exact Ha|]. split; [exact Hb|]. split; [exact Hc|].
  split; [exact Hd|]. split; [exact He|].
  apply (Hf 100%Q); [reflexivity | vm_compute; discriminate].
Defined.

(** ** The LLM stage *)

Section Evaluation.
Context {G : GoLib} {W : Type} `{World W}.

Lemma callOpenAI_world (e : LLMEvaluator.t) (prompt : string) (w : W) :
  String.eqb (LLMEvaluator.provider e) "anthropic" = false →
  ∃ raw err w',
    callOpenAI e prompt w = Some ((raw, err), w') ∧
    match http_NewRequest (endpoint e) with
    | Some _ => w' = w ∧ err ≠ None
    | None =>
        ∃ req, w' = (http_Do req w).2 ∧ Request.URL req = endpoint e ∧
               credential e ∈ Request.Header req
    end.
Proof.
  intros Hprov. unfold callOpenAI, endpoint, credential. rewrite Hprov.
  destruct (http_NewRequest _); [by eexists _, _, _|].
  rewrite call_bind. set (req := Request.mk _ _ _).
  assert (∃ req', (http_Do req w).2 = (http_Do req' w).2 ∧
                  Request.URL req' = Request.URL req ∧
                  ("Authorization", "Bearer " ++ LLMEvaluator.apiKey e)%string
                    ∈ Request.Header req') as Hreq.
  { exists req. split; [done|]. split; [done|]. simpl. set_solver. }
  destruct (http_Do req w).1; [by eexists _, _, _|].
  destruct (negb _); [by eexists _, _, _|].
  destruct (json_Decode_openai _) as [choices [derr|]];
    [by eexists _, _, _|].
  destruct choices; by eexists _, _, _.
Qed.

Lemma callAnthropic_world (e : LLMEvaluator.t) (prompt : string) (w : W) :
  String.eqb (LLMEvaluator.provider e) "anthropic" = true →
  ∃ raw err w',
    callAnthropic e prompt w = Some ((raw, err), w') ∧
    match http_NewRequest (endpoint e) with
    | Some _ => w' = w ∧ err ≠ None
    | None =>
        ∃ req, w' = (http_Do req w).2 ∧ Request.URL req = endpoint e ∧
               credential e ∈ Request.Header req
    end.
Proof.
  intros Hprov. unfold callAnthropic, endpoint, credential. rewrite Hprov.
  destruct (http_NewRequest _); [by eexists _, _, _|].
  rewrite call_bind. set (req := Request.mk _ _ _).
  assert (∃ req', (http_Do req w).2 = (http_Do req' w).2 ∧
                  Request.URL req' = Request.URL req ∧
                  ("x-api-key", LLMEvaluator.apiKey e)%string
                    ∈ Request.Header req') as Hreq.
  { exists req. split; [done|]. split; [done|]. simpl. set_solver. }
  destruct (http_Do req w).1; [by eexists _, _, _|].
  destruct (negb _); [by eexists _, _, _|].
  destruct (json_Decode_anthropic _) as [content [derr|]];
    [by eexists _, _, _|].
  destruct content; by eexists _, _, _.
Qed.

Lemma call_provider (e : LLMEvaluator.t) (prompt : string) (w : W) :
  ∃ raw err w',
    (if String.eqb (LLMEvaluator.provider e) "anthropic"
     then callAnthropic e prompt else callOpenAI e prompt) w
    = Some ((raw, err), w') ∧
    match http_NewRequest (endpoint e) with
    | Some _ => w' = w ∧ err ≠ None
    | None =>
        ∃ req, w' = (http_Do req w).2 ∧ Request.URL req = endpoint e ∧
               credential e ∈ Request.Header req
    end.
Proof.
  destruct (String.eqb _ _) eqn:Hprov;
    [by apply callAnthropic_world | by apply callOpenAI_world].
Qed.

(** X14. [EvaluateItems] always returns. With an error it returns no
    result; without one, every result it returns has a score of at least
    the evaluator's minimum. For an empty batch it returns no result and
    no error. *)
Theorem EvaluateItems_results (e : LLMEvaluator.t) (items : list Item.t)
    (w : W) :
  ∃ results err w',
    EvaluateItems e items w = Some ((results, err), w') ∧
    (err ≠ None → results = []) ∧
    Forall (λ r, (LLMEvaluator.minScore e
                  <= float64_of_int (LLMResult.Score r))%Q) results ∧
    (items = [] → results = [] ∧ err = None).
Proof.
  unfold EvaluateItems. destruct items as [|item items].
  { by eexists [], None, w. }
  cbn [length Nat.eqb]. set (prompt := (_ ++ _)%string). clearbody prompt.
  destruct (call_provider e prompt w) as (raw & err & w' & Hcall & _).
  rewrite (st_bind_Some _ _ _ _ _ Hcall).
  destruct err as [err|]; [by eexists [], (Some err), w'|].
  destruct (json_Unmarshal_results _) as [results [perr|]].
  { by eexists [], (Some _), w'. }
  eexists _, None, w'. split; [done|]. split; [done|]. split; [|done].
  apply Forall_forall. intros r [Hr _]%list_elem_of_filter.
  unfold Qgeb in Hr. by apply Qle_bool_iff.
Qed.

(** X15. [EvaluateItems] acts on the world by at most one HTTP request
    and by nothing else: none for an empty batch or when the request
    cannot be created, and otherwise exactly one, posted to the endpoint
    of the configured provider with the API key in that provider's
    header. *)
Theorem EvaluateItems_one_request (e : LLMEvaluator.t)
    (items : list Item.t) (w : W) :
  ∃ res w',
    EvaluateItems e items w = Some (res, w') ∧
    (items = [] → w' = w) ∧
    (http_NewRequest (endpoint e) ≠ None → w' = w) ∧
    (items ≠ [] → http_NewRequest (endpoint e) = None →
     ∃ req, w' = (http_Do req w).2 ∧ Request.URL req = endpoint e ∧
            credential e ∈ Request.Header req).
Proof.
  unfold EvaluateItems. destruct items as [|item items].
  { by eexists _, w. }
  cbn [length Nat.eqb]. set (prompt := (_ ++ _)%string). clearbody prompt.
  destruct (call_provider e prompt w) as (raw & err & w' & Hcall & Hw).
  rewrite (st_bind_Some _ _ _ _ _ Hcall).
  assert ((item :: items = [] → w' = w) ∧
          (http_NewRequest (endpoint e) ≠ None → w' = w) ∧
          (item :: items ≠ [] → http_NewRequest (endpoint e) = None →
           ∃ req, w' = (http_Do req w).2 ∧ Request.URL req = endpoint e ∧
                  credential e ∈ Request.Header req)) as Hfacts.
  { split; [done|]. destruct (http_NewRequest (endpoint e)); [|done].
    split; [by intros _; destruct Hw | done]. }
  destruct err as [err|]; [by eexists _, w'|]. cbv zeta.
  destruct (json_Unmarshal_results _) as [results [perr|]];
    by eexists _, w'.
Qed.

Lemma resultMap_lookup (results : list LLMResult.t)
    (m : gmap string LLMResult.t) (id : string) :
  foldl (λ m r, <[LLMResult.ID r := r]> m) m results !! id
  = match last_result results id with
    | Some r => Some r
    | None => m !! id
    end.
Proof.
  unfold last_result. revert m.
  induction results as [|r results IH]; intros m; [done|].
  simpl. rewrite IH, filter_cons.
  destruct (decide (LLMResult.ID r = id)) as [<-|Hne].
  - rewrite lookup_insert, decide_True by done.
    rewrite last_cons. by destruct (last _).
  - by rewrite lookup_insert_ne.
Qed.

Lemma filtered_loop (m : gmap string LLMResult.t) (g : Item.t → option Item.t)
    (items acc : list Item.t) :
  (∀ item, g item
           = (λ r, if negb (String.eqb (LLMResult.Topic r) EmptyString)
                   then Item.with_Title (LLMResult.Topic r) item
                   else item) <$> m !! Item.ID item) →
  foldl (λ filtered item,
      match m !! Item.ID item with
      | Some r =>
          let item :=
            if negb (String.eqb (LLMResult.Topic r) EmptyString)
            then Item.with_Title (LLMResult.Topic r) item
            else item in
          filtered ++ [item]
      | None => filtered
      end) acc items
  = acc ++ omap g items.
Proof.
  intros Hg. revert acc.
  induction items as [|item items IH]; intros acc; simpl.
  { by rewrite app_nil_r. }
  rewrite IH, Hg. destruct (m !! Item.ID item); simpl; [|done].
  by rewrite <- app_assoc.
Qed.

(** X16. What [llmFilter] keeps. If the evaluation fails, the items are
    returned unchanged together with the error. Otherwise the items for
    which a result came back are kept, in their order; when several
    results carry one ID the last one counts, and a kept item takes that
    result's topic as its title unless the topic is empty. Nothing is
    printed unless at least one result came back. *)
Theorem llmFilter_keeps (llm : LLMEvaluator.t) (items : list Item.t)
    (w : W) :
  ∃ results err w1 kept w',
    EvaluateItems llm items w = Some ((results, err), w1) ∧
    llmFilter llm items w = Some ((kept, err), w') ∧
    match err with
    | Some _ => kept = items ∧ w' = w1
    | None =>
        kept = omap (relabel results) items ∧
        w' = (if length results =? 0 then w1
              else (fmt_Printf
                      (log_llm_passed (length kept) (length items)) w1).2)
    end.
Proof.
  destruct (EvaluateItems_total llm items w) as (results & err & w1 & Hev).
  unfold llmFilter. rewrite (st_bind_Some _ _ _ _ _ Hev).
  destruct err as [err|]; [by eexists results, (Some err), w1, items, w1|].
  destruct results as [|r results].
  { eexists [], None, w1, [], w1. split; [done|]. split; [done|].
    split; [|done]. clear Hev.
    induction items as [|item items IH]; [done|]. by simpl. }
  cbn [length Nat.eqb]. rewrite call_bind.
  eexists (r :: results), None, w1, _, _.
  split; [done|]. split; [reflexivity|].
  assert (∀ acc,
    foldl (λ filtered item,
        match foldl (λ m r0, <[LLMResult.ID r0 := r0]> m)
                (∅ : gmap string LLMResult.t) (r :: results)
                !! Item.ID item with
        | Some r0 =>
            let item :=
              if negb (String.eqb (LLMResult.Topic r0) EmptyString)
              then Item.with_Title (LLMResult.Topic r0) item
              else item in
            filtered ++ [item]
        | None => filtered
        end) acc items
    = acc ++ omap (relabel (r :: results)) items) as Hloop.
  { intros acc. apply filtered_loop. intros item.
    rewrite resultMap_lookup, lookup_empty. unfold relabel.
    destruct (last_result _ _) as [r0|]; [|done]. simpl.
    by destruct (String.eqb _ _). }
  cbv zeta in Hloop. rewrite (Hloop []). done.
Qed.
End Evaluation.

Lemma EvaluateItems_results_witness :
  ∃ results err w',
    EvaluateItems openai_evaluator three_items empty_reply_world
      = Some ((results, err), w') ∧
    (err ≠ None → results = []) ∧
    Forall (λ r, (LLMEvaluator.minScore openai_evaluator
                  <= float64_of_int (LLMResult.Score r))%Q) results ∧
    (three_items = [] → results = [] ∧ err = None).
Proof.
  exact (EvaluateItems_results openai_evaluator three_items
           empty_reply_world).
Defined.

Lemma EvaluateItems_one_request_witness :
  ∃ res w',
    EvaluateItems openai_evaluator three_items down_world = Some (res, w') ∧
    (three_items = [] → w' = down_world) ∧
    (http_NewRequest (endpoint openai_evaluator) ≠ None → w' = down_world) ∧
    (three_items ≠ [] → http_NewRequest (endpoint openai_evaluator) = None →
     ∃ req, w' = (http_Do req down_world).2 ∧
            Request.URL req = endpoint openai_evaluator ∧
            credential openai_evaluator ∈ Request.Header req).
Proof.
  exact (EvaluateItems_one_request openai_evaluator three_items down_world).
Defined.

Lemma substring_length (n : nat) (s : string) :
  String.length (String.substring 0 n s) = Nat.min n (String.length s).
Proof.
  revert n. induction s as [|c s IH]; intros [|n]; simpl; try done.
  by rewrite IH.
Qed.

Lemma substring_prefix (n : nat) (s : string) :
  ∃ rest, s = (String.substring 0 n s ++ rest)%string.
Proof.
  revert n. induction s as [|c s IH]; intros [|n]; simpl.
  - by exists EmptyString.
  - by exists EmptyString.
  - by eexists.
  - destruct (IH n) as [rest Hrest]. exists rest.
    change (String c s = String c (String.substring 0 n s ++ rest)).
    by rewrite <- Hrest.
Qed.

Lemma string_app_length (a b : string) :
  String.length (a ++ b) = String.length a + String.length b.
Proof. induction a as [|c a IH]; simpl; [done | by rewrite IH]. Qed.

(** X17. [truncateStr s n] returns a string that is short enough
    unchanged, and otherwise the first [n] bytes of [s] followed by three
    dots: the result is never longer than [n + 3] bytes. *)
Theorem truncateStr_bound (s : string) (n : nat) :
  String.length (truncateStr s n) ≤ n + 3 ∧
  (String.length s ≤ n → truncateStr s n = s) ∧
  (n < String.length s →
   ∃ head rest, s = (head ++ rest)%string ∧ String.length head = n ∧
                truncateStr s n = (head ++ "...")%string).
Proof.
  unfold truncateStr, slice_to.
  destruct (Nat.leb_spec (String.length s) n) as [Hle|Hlt].
  - split; [lia|]. split; [done | lia].
  - split.
    { rewrite string_app_length, substring_length. simpl. lia. }
    split; [lia|]. intros _.
    destruct (substring_prefix n s) as [rest Hrest].
    exists (String.substring 0 n s), rest. split; [done|].
    split; [|done]. rewrite substring_length. lia.
Qed.

Lemma truncateStr_bound_witness :
  String.length (truncateStr "unexpected token" 10) ≤ 10 + 3 ∧
  (String.length "unexpected token" ≤ 10 →
   truncateStr "unexpected token" 10 = "unexpected token"%string) ∧
  (10 < String.length "unexpected token" →
   ∃ head rest, "unexpected token"%string = (head ++ rest)%string ∧
                String.length head = 10 ∧
                truncateStr "unexpected token" 10 = (head ++ "...")%string).
Proof. exact (truncateStr_bound "unexpected token" 10). Defined.

(** ** A detection cycle over the SQLite store *)

Lemma clock_only_refl (w : Sim.t) : clock_only w w.
Proof. by repeat split. Qed.

Lemma clock_only_trans (w1 w2 w3 : Sim.t) :
  clock_only w1 w2 → clock_only w2 w3 → clock_only w1 w3.
Proof.
  intros (? & ? & ? & ? & ? & ?) (? & ? & ? & ? & ? & ?).
  repeat split; congruence.
Qed.

Lemma fresh_ids_cons (first : Z) (n : nat) :
  fresh_ids first (S n) = first :: fresh_ids (first + 1) n.
Proof.
  unfold fresh_ids. rewrite <- cons_seq. simpl. f_equal; [lia|].
  rewrite <- fmap_S_seq, <- list_fmap_compose.
  apply list_fmap_ext. intros _ k _. simpl. lia.
Qed.

Section Cycle.
Context {G : GoLib}.

Lemma GetSnapshots_world (itemID : string) (since : Time) (w : Sim.t) :
  (store_GetSnapshots itemID since w).2 = w.
Proof. simpl. by destruct (Sim.fault w stmt_get_snapshots). Qed.

Lemma itemVelocity_clock (item : Item.t) (w : Sim.t) v w' :
  itemVelocity item w = Some (v, w') → clock_only w w'.
Proof.
  unfold itemVelocity. rewrite call_bind, call_bind.
  pose proof (GetSnapshots_world (Item.ID item)
                (time_Add (time_Now w).1 (-6 * Hour)%Z) (time_Now w).2) as Hw.
  destruct (store_GetSnapshots _ _ _) as [[snaps err] w2].
  cbn [fst snd] in *. subst w2. intros Hrun.
  assert (w' = (time_Now w).2) as ->; [|by repeat split].
  destruct err, (head snaps), (last snaps);
    try (by injection Hrun as _ <-).
  destruct (length snaps <? 2); [by injection Hrun as _ <-|].
  destruct (Qltb _ _); by injection Hrun as _ <-.
Qed.

Lemma velocities_clock (items : list Item.t) (w : Sim.t) vs w' :
  st_mapM itemVelocity items w = Some (vs, w') → clock_only w w'.
Proof.
  revert w vs. induction items as [|item items IH]; intros w vs; simpl.
  { intros [= _ <-]. apply clock_only_refl. }
  destruct (itemVelocity_total item w) as (v & w1 & Hv).
  rewrite (st_bind_Some _ _ _ _ _ Hv).
  destruct (st_mapM_itemVelocity_total items w1) as (vs1 & w2 & Hvs & _).
  rewrite (st_bind_Some _ _ _ _ _ Hvs). intros [= _ <-].
  eapply clock_only_trans; [by eapply itemVelocity_clock | by eapply IH].
Qed.

Lemma scoreCluster_clock (e : Engine.t) (c : TopicCluster.t) (w : Sim.t) :
  ∃ score w', scoreCluster e c w = Some (score, w') ∧ clock_only w w'.
Proof.
  destruct (st_mapM_itemVelocity_total (TopicCluster.Items c) w)
    as (vs & w' & Hvs & _).
  destruct (scoreCluster_run e c w vs w' Hvs) as (vel & _ & Hrun).
  eexists _, w'. split; [exact Hrun|]. by eapply velocities_clock.
Qed.

Lemma detectCluster_stored (e : Engine.t) (now : Time)
    (trends : list Trend.t) (c : TopicCluster.t) (w : Sim.t) :
  Sim.fault w stmt_upsert_trend = None →
  ∃ t w',
    detectCluster e now trends c w = Some (trends ++ [t], w') ∧
    trend_of now c t ∧
    Trend.ID t = (SQLiteStore.trends_seq (Sim.db w) + 1)%Z ∧
    Sim.db w'
      = SQLiteStore.mk (SQLiteStore.items (Sim.db w))
          (SQLiteStore.score_snapshots (Sim.db w))
          (SQLiteStore.trends (Sim.db w) ++ [t])
          (SQLiteStore.trends_seq (Sim.db w) + 1) ∧
    Sim.fault w' = Sim.fault w ∧ Sim.stdout w' = Sim.stdout w.
Proof.
  intros Hfault.
  destruct (scoreCluster_clock e c w)
    as (score & w1 & Hscore & Hdb & Hf & _ & _ & Hout & _).
  unfold detectCluster. rewrite (st_bind_Some _ _ _ _ _ Hscore).
  rewrite call_bind. simpl. rewrite Hf, Hfault. simpl.
  eexists _, _. split; [reflexivity|]. simpl. rewrite Hdb.
  by repeat split.
Qed.

Lemma detect_loop (e : Engine.t) (now : Time) (cs : list TopicCluster.t) :
  ∀ (acc : list Trend.t) (w : Sim.t),
    Sim.fault w stmt_upsert_trend = None →
    ∃ ts w',
      st_foldl (detectCluster e now) acc cs w = Some (acc ++ ts, w') ∧
      Forall2 (trend_of now) cs ts ∧
      Trend.ID <$> ts
        = fresh_ids (SQLiteStore.trends_seq (Sim.db w) + 1) (length cs) ∧
      Sim.db w'
        = SQLiteStore.mk (SQLiteStore.items (Sim.db w))
            (SQLiteStore.score_snapshots (Sim.db w))
            (SQLiteStore.trends (Sim.db w) ++ ts)
            (SQLiteStore.trends_seq (Sim.db w) + Z.of_nat (length cs)) ∧
      Sim.fault w' = Sim.fault w ∧ Sim.stdout w' = Sim.stdout w.
Proof.
  induction cs as [|c cs IH]; intros acc w Hfault.
  { exists [], w. simpl. rewrite !app_nil_r, Z.add_0_r.
    split; [done|]. split; [constructor|]. split; [done|].
    split; [by destruct (Sim.db w)|done]. }
  destruct (detectCluster_stored e now acc c w Hfault)
    as (t & w1 & Hstep & Ht & Hid & Hdb1 & Hf1 & Hout1).
  destruct (IH (acc ++ [t]) w1) as (ts & w' & Hloop & Hts & Hids & Hdb & Hf & Hout).
  { by rewrite Hf1. }
  exists (t :: ts), w'. cbn [st_foldl].
  rewrite (st_bind_Some _ _ _ _ _ Hstep), Hloop, <- app_assoc.
  split; [done|]. split; [by constructor|].
  rewrite Hdb1 in Hids, Hdb. simpl in Hids, Hdb.
  split.
  { rewrite fmap_cons, Hid, Hids. cbn [length].
    by rewrite fresh_ids_cons. }
  split; [|split; congruence].
  rewrite Hdb, <- app_assoc. cbn [length]. f_equal. lia.
Qed.

Lemma detectItems_stored (e : Engine.t) (items : list Item.t) (w : Sim.t) :
  Sim.fault w stmt_upsert_trend = None →
  ∃ cs ts w',
    clusterItems items = Some cs ∧
    detectItems e items w
    = Some ((sort_Slice _ ts
               (λ ti tj, Qgtb (Trend.Score ti) (Trend.Score tj)), None), w') ∧
    Forall2 (trend_of (Sim.clock w)) cs ts ∧
    Trend.ID <$> ts
      = fresh_ids (SQLiteStore.trends_seq (Sim.db w) + 1) (length ts) ∧
    Sim.db w'
      = SQLiteStore.mk (SQLiteStore.items (Sim.db w))
          (SQLiteStore.score_snapshots (Sim.db w))
          (SQLiteStore.trends (Sim.db w) ++ ts)
          (SQLiteStore.trends_seq (Sim.db w) + Z.of_nat (length ts)) ∧
    Sim.fault w' = Sim.fault w ∧ Sim.stdout w' = Sim.stdout w.
Proof.
  intros Hfault. unfold detectItems.
  destruct (clustering_run items) as (_ & _ & cs & _ & _ & _ & Hcs & _).
  rewrite Hcs. unfold st_bind at 1, pure_or_panic. rewrite call_bind.
  assert (Sim.fault (time_Now w).2 stmt_upsert_trend = None) as Hfault'
    by (by simpl).
  destruct (detect_loop e (time_Now w).1 cs [] (time_Now w).2 Hfault')
    as (ts & w' & Hloop & Hts & Hids & Hdb & Hf & Hout).
  rewrite (st_bind_Some _ _ _ _ _ Hloop).
  exists cs, ts, w'. rewrite <- (Forall2_length _ _ _ Hts).
  by repeat split.
Qed.
End Cycle.

Lemma concat_fmap_perm {A B : Type} (f : A → list B) (l l' : list A) :
  l ≡ₚ l' → concat (f <$> l) ≡ₚ concat (f <$> l').
Proof.
  induction 1 as [|x l l' _ IH|x y l|l1 l2 l3 _ IH1 _ IH2]; simpl.
  - done.
  - by rewrite IH.
  - rewrite !app_assoc. f_equiv. apply Permutation_app_comm.
  - by rewrite IH1.
Qed.

Lemma size_list_to_set_le (l : list SourceType) :
  size (list_to_set l : gset SourceType) ≤ length l.
Proof.
  induction l as [|x l IH].
  - by rewrite list_to_set_nil, size_empty.
  - rewrite list_to_set_cons, size_union_alt, size_singleton. simpl.
    assert (size (list_to_set l ∖ {[x]} : gset SourceType)
            ≤ size (list_to_set l : gset SourceType)) as Hle
      by (apply subseteq_size; set_solver).
    lia.
Qed.

Section Results.
Context {G : GoLib}.

Lemma clusters_cover (items : list Item.t) (cs : list TopicCluster.t) :
  clusterItems items = Some cs →
  concat (TopicCluster.Items <$> cs) ≡ₚ items ∧
  Forall (λ c,
      TopicCluster.Items c ≠ [] ∧
      TopicCluster.Sources c
        = list_to_set (Item.Source <$> TopicCluster.Items c)) cs.
Proof.
  intros Hcs. split.
  - destruct (clustering_run items)
      as (uf & g & cs' & _ & _ & -> & Hcs' & Hf2 & _).
    rewrite Hcs' in Hcs. injection Hcs as ->.
    rewrite (cluster_items_concat items _ _ Hf2).
    pose proof (group_fold_concat (root_fn uf) (seq 0 (length items)) ∅)
      as Hperm.
    rewrite map_to_list_empty in Hperm. simpl in Hperm.
    rewrite Hperm. by rewrite lookup_total_seq.
  - destruct (clustering_groups items)
      as (uf & groups & cs' & _ & _ & Hcs' & Hbuild & Hgroups & _).
    rewrite Hcs' in Hcs. injection Hcs as ->.
    assert (Forall (λ l, Forall (λ idx, idx < length items) l) groups)
      as Hvalid.
    { apply Forall_forall. intros l (_ & r & ->)%Hgroups.
      apply group_indices_valid. }
    clear Hgroups Hcs'.
    induction Hbuild as [|l c groups cs Hc _ IH]; [constructor|].
    apply Forall_cons in Hvalid as [Hl Hvalid].
    constructor; [|by apply IH].
    by destruct (buildCluster_facts items l c Hl Hc) as (_ & ? & ? & _).
Qed.

Lemma EvaluateItems_quiet (llm : LLMEvaluator.t) (items : list Item.t)
    (w : Sim.t) :
  ∃ results err, EvaluateItems llm items w = Some ((results, err), w).
Proof.
  unfold EvaluateItems. destruct items as [|item items]; [by eexists _, _|].
  cbn [length Nat.eqb]. set (prompt := (_ ++ _)%string). clearbody prompt.
  destruct (call_provider llm prompt w) as (raw & err & w' & Hcall & Hw).
  assert (w' = w) as ->.
  { destruct (http_NewRequest _); [by destruct Hw|].
    by destruct Hw as (req & -> & _). }
  rewrite (st_bind_Some _ _ _ _ _ Hcall).
  destruct err as [err|]; [by eexists _, _|].
  destruct (json_Unmarshal_results _) as [results [perr|]];
    by eexists _, _.
Qed.

Lemma llmFilter_quiet (llm : LLMEvaluator.t) (items : list Item.t)
    (w : Sim.t) :
  ∃ items' err w',
    llmFilter llm items w = Some ((items', err), w') ∧
    Sim.db w' = Sim.db w ∧ Sim.fault w' = Sim.fault w.
Proof.
  destruct (EvaluateItems_quiet llm items w) as (results & err & Hev).
  unfold llmFilter. rewrite (st_bind_Some _ _ _ _ _ Hev).
  destruct err; [by eexists _, _, _|].
  destruct (length results =? 0); [by eexists _, _, _|].
  rewrite call_bind. by eexists _, _, _.
Qed.

(** What the cycle leaves in the store, from the listing on. *)
Lemma Detect_stored (e : Engine.t) (w : Sim.t) :
  sort_Slice_contract G →
  Sim.fault w stmt_list_items = None →
  Sim.fault w stmt_clear_trends = None →
  Sim.fault w stmt_upsert_trend = None →
  select_items_in (Sim.zone w) (Sim.db w) (recent (Sim.clock w)) ≠ [] →
  ∃ trends ts w',
    Detect e w = Some ((trends, None), w') ∧ trends ≡ₚ ts ∧
    Trend.ID <$> ts
      = fresh_ids (SQLiteStore.trends_seq (Sim.db w) + 1) (length ts) ∧
    Forall (λ t, Trend.Alerted t = false) ts ∧
    Sim.db w'
      = SQLiteStore.mk (SQLiteStore.items (Sim.db w))
          (SQLiteStore.score_snapshots (Sim.db w)) ts
          (SQLiteStore.trends_seq (Sim.db w) + Z.of_nat (length ts)) ∧
    (Engine.llm e = None →
     ∃ cs, clusterItems (select_items_in (Sim.zone w) (Sim.db w) (recent (Sim.clock w)))
             = Some cs ∧
           Forall2 (trend_of (Sim.clock w + Sim.tick w)%Z) cs ts).
Proof.
  intros Hsort Hlist Hclear Hupsert Hne.
  set (items := select_items_in (Sim.zone w) (Sim.db w) (recent (Sim.clock w))) in *.
  set (w3 := Sim.with_db
               (SQLiteStore.mk (SQLiteStore.items (Sim.db w))
                  (SQLiteStore.score_snapshots (Sim.db w)) []
                  (SQLiteStore.trends_seq (Sim.db w))) (time_Now w).2).
  assert (Detect e w =
          match Engine.llm e with
          | Some llm =>
              ('(items, err) <~ llmFilter llm items;
               _ <~ match err with
                    | Some err => call (fmt_Printf (log_llm_error err))
                    | None => st_ret tt
                    end;
               if length items =? 0 then st_ret ([], None)
               else detectItems e items) w3
          | None => detectItems e items w3
          end) as ->.
  { apply (Detect_cleared e w items (time_Now w).2 w3); [|done|].
    - simpl. by rewrite Hlist.
    - simpl. by rewrite Hclear. }
  assert (∀ items' w5,
            Sim.db w5 = Sim.db w3 → Sim.fault w5 = Sim.fault w3 →
            ∃ cs ts w',
              clusterItems items' = Some cs ∧
              detectItems e items' w5
              = Some ((sort_Slice _ ts
                         (λ ti tj, Qgtb (Trend.Score ti) (Trend.Score tj)),
                       None), w') ∧
              Forall2 (trend_of (Sim.clock w5)) cs ts ∧
              Trend.ID <$> ts
                = fresh_ids (SQLiteStore.trends_seq (Sim.db w) + 1)
                    (length ts) ∧
              Forall (λ t, Trend.Alerted t = false) ts ∧
              Sim.db w'
                = SQLiteStore.mk (SQLiteStore.items (Sim.db w))
                    (SQLiteStore.score_snapshots (Sim.db w)) ts
                    (SQLiteStore.trends_seq (Sim.db w)
                     + Z.of_nat (length ts))) as Hrun.
  { intros items' w5 Hdb5 Hf5.
    destruct (detectItems_stored e items' w5)
      as (cs & ts & w' & Hcs & Hdet & Hts & Hids & Hdb & _).
    { by rewrite Hf5. }
    exists cs, ts, w'. rewrite Hdb5 in Hids, Hdb. simpl in Hids, Hdb.
    split; [done|]. split; [done|]. split; [done|]. split; [done|].
    split; [|done]. clear -Hts.
    induction Hts as [|c t cs ts Ht _ IH]; constructor; [|done].
    by destruct Ht as (_ & _ & _ & _ & _ & ?). }
  destruct (Engine.llm e) as [llm|].
  - destruct (llmFilter_quiet llm items w3)
      as (items' & ferr & w4 & Hfilter & Hdb4 & Hf4).
    rewrite (st_bind_Some _ _ _ _ _ Hfilter).
    assert (∃ w5, (match ferr with
                   | Some err => call (fmt_Printf (log_llm_error err))
                   | None => st_ret tt
                   end) w4 = Some (tt, w5) ∧
                  Sim.db w5 = Sim.db w3 ∧ Sim.fault w5 = Sim.fault w3)
      as (w5 & Hprint & Hdb5 & Hf5).
    { destruct ferr; by eexists. }
    rewrite (st_bind_Some _ _ _ _ _ Hprint).
    destruct items' as [|item' items'].
    + exists [], [], w5. cbn [length Nat.eqb]. unfold st_ret.
      rewrite Hdb5. simpl. rewrite Z.add_0_r. by repeat split.
    + cbn [length Nat.eqb].
      destruct (Hrun (item' :: items') w5 Hdb5 Hf5)
        as (cs & ts & w' & _ & Hdet & _ & Hids & Hal & Hdb).
      eexists _, ts, w'. split; [exact Hdet|].
      split; [apply (Hsort _ ts _ Qgtb_strict_weak_order)|].
      by repeat split.
  - destruct (Hrun items w3 eq_refl eq_refl)
      as (cs & ts & w' & Hcs & Hdet & Hts & Hids & Hal & Hdb).
    eexists _, ts, w'. split; [exact Hdet|].
    split; [apply (Hsort _ ts _ Qgtb_strict_weak_order)|].
    repeat split; try done.
    intros _. by exists cs.
Qed.
End Results.

Lemma fresh_ids_elem (first : Z) (n : nat) (x : Z) :
  x ∈ fresh_ids first n ↔ (first ≤ x < first + Z.of_nat n)%Z.
Proof.
  unfold fresh_ids. rewrite list_elem_of_fmap. split.
  - intros (k & -> & Hk%elem_of_seq). lia.
  - intros Hx. exists (Z.to_nat (x - first)). split; [lia|].
    apply elem_of_seq. lia.
Qed.

Lemma fresh_ids_NoDup (first : Z) (n : nat) : NoDup (fresh_ids first n).
Proof.
  unfold fresh_ids. apply NoDup_fmap_2; [|apply NoDup_seq].
  intros a b Hab. lia.
Qed.

Lemma trend_item_ids (now : Time) (cs : list TopicCluster.t)
    (ts : list Trend.t) :
  Forall2 (trend_of now) cs ts →
  concat (Trend.ItemIDs <$> ts)
  = Item.ID <$> concat (TopicCluster.Items <$> cs).
Proof.
  induction 1 as [|c t cs ts Ht _ IH]; [done|].
  destruct Ht as (_ & _ & Hids & _).
  change (Trend.ItemIDs t ++ concat (Trend.ItemIDs <$> ts)
          = Item.ID <$> (TopicCluster.Items c
                         ++ concat (TopicCluster.Items <$> cs))).
  by rewrite fmap_app, Hids, IH.
Qed.



(** X19. A cycle that finds recent items, over a store whose listing,
    clearing and upserting succeed, leaves in the trends table exactly
    the trends it returns: the old rows are gone, every returned trend is
    stored under a fresh id of its own, unalerted, and the items and the
    snapshots are untouched. This holds with and without an evaluator,
    whatever the provider answers. *)
Theorem Detect_persists_result {G : GoLib} (e : Engine.t) (w : Sim.t) :
  sort_Slice_contract G →
  Sim.fault w stmt_list_items = None →
  Sim.fault w stmt_clear_trends = None →
  Sim.fault w stmt_upsert_trend = None →
  select_items_in (Sim.zone w) (Sim.db w) (recent (Sim.clock w)) ≠ [] →
  ∃ trends w',
    Detect e w = Some ((trends, None), w') ∧
    SQLiteStore.trends (Sim.db w') ≡ₚ trends ∧
    SQLiteStore.items (Sim.db w') = SQLiteStore.items (Sim.db w) ∧
    SQLiteStore.score_snapshots (Sim.db w')
      = SQLiteStore.score_snapshots (Sim.db w) ∧
    SQLiteStore.trends_seq (Sim.db w')
      = (SQLiteStore.trends_seq (Sim.db w) + Z.of_nat (length trends))%Z ∧
    NoDup (Trend.ID <$> trends) ∧
    Forall (λ t,
        (SQLiteStore.trends_seq (Sim.db w) < Trend.ID t
         ≤ SQLiteStore.trends_seq (Sim.db w) + Z.of_nat (length trends))%Z ∧
        Trend.Alerted t = false) trends.
Proof.
  intros Hsort Hlist Hclear Hupsert Hne.
  destruct (Detect_stored e w Hsort Hlist Hclear Hupsert Hne)
    as (trends & ts & w' & Hrun & Hperm & Hids & Hal & Hdb & _).
  exists trends, w'. split; [done|]. rewrite Hdb. simpl.
  rewrite (Permutation_length Hperm).
  split; [done|]. split; [done|]. split; [done|]. split; [done|].
  split.
  { rewrite Hperm, Hids. apply fresh_ids_NoDup. }
  eapply Permutation_Forall; [symmetry; exact Hperm|].
  apply Forall_forall. intros t Ht. split.
  - assert (Trend.ID t ∈ Trend.ID <$> ts) as Hin
      by (by apply list_elem_of_fmap_2).
    rewrite Hids in Hin. apply fresh_ids_elem in Hin. lia.
  - by apply (proj1 (Forall_forall _ _) Hal).
Qed.

Lemma Detect_persists_result_witness :
  ∃ trends w',
    Detect llm_engine down_world = Some ((trends, None), w') ∧
    SQLiteStore.trends (Sim.db w') ≡ₚ trends ∧
    SQLiteStore.items (Sim.db w') = SQLiteStore.items (Sim.db down_world) ∧
    SQLiteStore.score_snapshots (Sim.db w')
      = SQLiteStore.score_snapshots (Sim.db down_world) ∧
    SQLiteStore.trends_seq (Sim.db w')
      = (SQLiteStore.trends_seq (Sim.db down_world)
         + Z.of_nat (length trends))%Z ∧
    NoDup (Trend.ID <$> trends) ∧
    Forall (λ t,
        (SQLiteStore.trends_seq (Sim.db down_world) < Trend.ID t
         ≤ SQLiteStore.trends_seq (Sim.db down_world)
           + Z.of_nat (length trends))%Z ∧
        Trend.Alerted t = false) trends.
Proof.
  apply (Detect_persists_result llm_engine down_world).
  - apply asciiLib_sort_contract.
  - reflexivity.
  - reflexivity.
  - reflexivity.
  - vm_compute. discriminate.
Defined.

(** X20. Without an evaluator, over a store whose listing, clearing and
    upserting succeed, every listed item is a member of exactly one of
    the returned trends. Each trend has at least one item and at least
    one source, at most as many sources as items, is first seen and last
    updated at the second reading of the clock, and is not alerted. *)
Theorem Detect_trend_items {G : GoLib} (e : Engine.t) (w : Sim.t) :
  sort_Slice_contract G →
  Engine.llm e = None →
  Sim.fault w stmt_list_items = None →
  Sim.fault w stmt_clear_trends = None →
  Sim.fault w stmt_upsert_trend = None →
  ∃ trends w',
    Detect e w = Some ((trends, None), w') ∧
    concat (Trend.ItemIDs <$> trends)
      ≡ₚ Item.ID <$> select_items_in (Sim.zone w) (Sim.db w) (recent (Sim.clock w)) ∧
    Forall (λ t,
        Trend.ItemIDs t ≠ [] ∧
        (1 ≤ Trend.SourceCount t ≤ Z.of_nat (length (Trend.ItemIDs t)))%Z ∧
        Trend.FirstSeen t = (Sim.clock w + Sim.tick w)%Z ∧
        Trend.LastUpdated t = (Sim.clock w + Sim.tick w)%Z ∧
        Trend.Alerted t = false) trends.
Proof.
  intros Hsort Hllm Hlist Hclear Hupsert.
  destruct (decide (select_items_in (Sim.zone w) (Sim.db w) (recent (Sim.clock w)) = []))
    as [Hnone|Hne].
  { exists [], (time_Now w).2. rewrite Hnone. split; [|done].
    apply Detect_no_items. simpl. by rewrite Hlist, Hnone. }
  destruct (Detect_stored e w Hsort Hlist Hclear Hupsert Hne)
    as (trends & ts & w' & Hrun & Hperm & _ & _ & _ & Hcs).
  destruct (Hcs Hllm) as (cs & Hcl & Hts).
  destruct (clusters_cover _ _ Hcl) as [Hcover Hfacts].
  exists trends, w'. split; [done|]. split.
  - rewrite (concat_fmap_perm _ _ _ Hperm), (trend_item_ids _ _ _ Hts).
    by rewrite Hcover.
  - eapply Permutation_Forall; [symmetry; exact Hperm|].
    clear -Hts Hfacts.
    induction Hts as [|c t cs ts Ht _ IH]; [constructor|].
    apply Forall_cons in Hfacts as [[Hne Hsrc] Hfacts].
    constructor; [|by apply IH].
    destruct Ht as (_ & Hcount & Hids & Hfirst & Hlast & Hal).
    rewrite Hids, Hcount, Hsrc, length_fmap.
    split; [by destruct (TopicCluster.Items c)|].
    split; [|done].
    pose proof (size_list_to_set_le (Item.Source <$> TopicCluster.Items c))
      as Hle.
    rewrite length_fmap in Hle. split; [|lia].
    destruct (TopicCluster.Items c) as [|it its]; [done|].
    rewrite fmap_cons, list_to_set_cons.
    assert (size ({[Item.Source it]} : gset SourceType)
            ≤ size ({[Item.Source it]} ∪ list_to_set (Item.Source <$> its)
                     : gset SourceType)) as Hone
      by (apply subseteq_size; set_solver).
    rewrite size_singleton in Hone. lia.
Qed.

Lemma Detect_trend_items_witness :
  ∃ trends w',
    Detect plain_engine down_world = Some ((trends, None), w') ∧
    concat (Trend.ItemIDs <$> trends)
      ≡ₚ Item.ID <$> select_items_in (Sim.zone down_world)
                        (Sim.db down_world) (recent (Sim.clock down_world)) ∧
    Forall (λ t,
        Trend.ItemIDs t ≠ [] ∧
        (1 ≤ Trend.SourceCount t ≤ Z.of_nat (length (Trend.ItemIDs t)))%Z ∧
        Trend.FirstSeen t = (Sim.clock down_world + Sim.tick down_world)%Z ∧
        Trend.LastUpdated t = (Sim.clock down_world + Sim.tick down_world)%Z ∧
        Trend.Alerted t = false) trends.
Proof.
  apply (Detect_trend_items plain_engine down_world).
  - apply asciiLib_sort_contract.
  - reflexivity.
  - reflexivity.
  - reflexivity.
  - reflexivity.
Defined.

(** ** Listing and updating rows of the store *)

Lemma order_by_sorted_total {A : Type} (le : A → A → bool) (l : list A) :
  (∀ a b c, le a b = true → le b c = true → le a c = true) →
  (∀ a b, le a b = true ∨ le b a = true) →
  StronglySorted (λ a b, le a b = true) (order_by le l).
Proof.
  intros Htrans Htot.
  assert (Transitive (λ a b : A, Is_true (le a b))) as Ht.
  { intros a b c Hab%Is_true_true Hbc%Is_true_true.
    apply Is_true_true. by eapply Htrans. }
  assert (Total (λ a b : A, Is_true (le a b))) as Hto.
  { intros a b. destruct (Htot a b); [left|right]; by apply Is_true_true. }
  eapply StronglySorted_weaken;
    [| apply (StronglySorted_merge_sort (λ a b, Is_true (le a b)))].
  intros a b Hab. by apply Is_true_true.
Qed.

Lemma sorted_take_drop {A : Type} (R : A → A → Prop) (l : list A) (n : nat) :
  StronglySorted R l →
  StronglySorted R (take n l) ∧
  ∀ a d, a ∈ take n l → d ∈ drop n l → R a d.
Proof.
  intros Hs. revert n. induction Hs as [|x l Hs IH Hall]; intros n.
  { rewrite take_nil. split; [constructor|]. by intros a d []%elem_of_nil. }
  destruct n as [|n].
  { split; [constructor|]. by intros a d []%elem_of_nil. }
  destruct (IH n) as [Htake Hcut]. simpl. split.
  - constructor; [done|]. apply Forall_forall. intros y Hy.
    apply (proj1 (Forall_forall _ _) Hall). by apply (subseteq_take n l).
  - intros a d [->|Ha]%elem_of_cons Hd; [|by apply Hcut].
    apply (proj1 (Forall_forall _ _) Hall). by apply (subseteq_drop n l).
Qed.

(** What [ORDER BY ... LIMIT n] selects from the rows that match. *)
Lemma listing_cut {A : Type} (le : A → A → bool) (l : list A) (n : nat) :
  (∀ a b c, le a b = true → le b c = true → le a c = true) →
  (∀ a b, le a b = true ∨ le b a = true) →
  let rows := take n (order_by le l) in
  (∀ r, r ∈ rows → r ∈ l) ∧
  StronglySorted (λ a b, le a b = true) rows ∧
  length rows ≤ n ∧
  (length l ≤ n → rows ≡ₚ l) ∧
  (∀ r', r' ∈ l →
     r' ∈ rows ∨ (length rows = n ∧ ∀ r, r ∈ rows → le r r' = true)).
Proof.
  intros Htrans Htot rows.
  pose proof (order_by_perm le l) as Hperm.
  pose proof (order_by_sorted_total le l Htrans Htot) as Hsorted.
  destruct (sorted_take_drop _ _ n Hsorted) as [Htake Hcut].
  split; [|split; [done|split; [|split]]].
  - intros r Hr. rewrite <- Hperm. by apply (subseteq_take n _).
  - unfold rows. rewrite length_take. lia.
  - intros Hlen. unfold rows. rewrite take_ge; [done|].
    by rewrite (Permutation_length Hperm).
  - intros r' Hr'. rewrite <- Hperm, <- (take_drop n) in Hr'.
    apply elem_of_app in Hr' as [Hr'|Hr']; [by left|]. right. split.
    + unfold rows. rewrite length_take.
      assert (n < length (order_by le l)); [|lia].
      destruct (decide (n < length (order_by le l))) as [|Hge]; [done|].
      rewrite drop_ge in Hr' by lia. by apply elem_of_nil in Hr'.
    + intros r Hr. by apply Hcut.
Qed.


Lemma elem_of_if_filter {A : Type} (b : bool) (P : A → Prop)
    `{∀ x, Decision (P x)} (l : list A) (x : A) :
  x ∈ (if b then filter P l else l) ↔ x ∈ l ∧ (b = true → P x).
Proof.
  destruct b; [|naive_solver]. rewrite list_elem_of_filter. naive_solver.
Qed.



Lemma Qle_bool_trans (x y z : Q) :
  Qle_bool x y = true → Qle_bool y z = true → Qle_bool x z = true.
Proof.
  rewrite !Qle_bool_iff. intros ? ?. by eapply Qle_trans.
Qed.

Lemma Qle_bool_total (x y : Q) : Qle_bool x y = true ∨ Qle_bool y x = true.
Proof.
  rewrite !Qle_bool_iff. destruct (Qlt_le_dec x y) as [Hlt|Hle];
    [left; by apply Qlt_le_weak | by right].
Qed.

Lemma filter_Forall_id {A : Type} (P : A → Prop) `{∀ x, Decision (P x)}
    (l : list A) :
  Forall P l → filter P l = l.
Proof.
  induction 1 as [|x l Hx _ IH]; [done|].
  by rewrite filter_cons, decide_True, IH.
Qed.

Lemma select_trends_cut (s : SQLiteStore.t) (opts : TrendListOpts.t) :
  let rows := select_trends s opts in
  let limit :=
    if (TrendListOpts.Limit opts <=? 0)%Z
    then 50%Z else TrendListOpts.Limit opts in
  ∃ matching,
    (∀ r, r ∈ matching ↔ r ∈ SQLiteStore.trends s ∧ trend_matches opts r) ∧
    (Forall (trend_matches opts) (SQLiteStore.trends s) →
     matching = SQLiteStore.trends s) ∧
    (∀ r, r ∈ rows → r ∈ matching) ∧
    by_score_descending rows ∧
    (Z.of_nat (length rows) ≤ limit)%Z ∧
    ((Z.of_nat (length matching) ≤ limit)%Z → rows ≡ₚ matching) ∧
    (∀ r', r' ∈ matching →
       r' ∈ rows ∨
       (Z.of_nat (length rows) = limit ∧
        ∀ r, r ∈ rows → (Trend.Score r' <= Trend.Score r)%Q)).
Proof.
  intros rows limit. unfold select_trends in rows. fold limit in rows.
  set (matching :=
    if TrendListOpts.Unalerted opts
    then filter (λ r, Trend.Alerted r = false)
           (if Qgtb (TrendListOpts.MinScore opts) 0
            then filter (λ r, Qgeb (Trend.Score r)
                                (TrendListOpts.MinScore opts) = true)
                   (SQLiteStore.trends s)
            else SQLiteStore.trends s)
    else (if Qgtb (TrendListOpts.MinScore opts) 0
          then filter (λ r, Qgeb (Trend.Score r)
                              (TrendListOpts.MinScore opts) = true)
                 (SQLiteStore.trends s)
          else SQLiteStore.trends s)) in *.
  exists matching.
  assert (0 < limit)%Z as Hlimit.
  { unfold limit. destruct (Z.leb_spec (TrendListOpts.Limit opts) 0); lia. }
  destruct (listing_cut
              (λ a b, Qle_bool (Trend.Score b) (Trend.Score a))
              matching (Z.to_nat limit))
    as (Hin & Hsorted & Hlen & Hall & Hcut).
  { intros a b c Hab Hbc. by eapply Qle_bool_trans. }
  { intros a b. apply Qle_bool_total. }
  split; [|split; [|split; [done|split; [|split; [|split]]]]].
  - intros r. unfold matching, trend_matches.
    rewrite elem_of_if_filter, elem_of_if_filter.
    destruct (Qgtb (TrendListOpts.MinScore opts) 0) eqn:E.
    + apply Qgtb_true in E. unfold Qgeb. rewrite Qle_bool_iff. naive_solver.
    + apply Qgtb_false in E. split; [|naive_solver].
      intros ([Hr _] & Hal). split; [done|]. split; [|done].
      intros Hpos. exfalso. by apply (Qlt_not_le _ _ Hpos).
  - intros Hall'. unfold matching.
    assert (filter (λ r, Qgeb (Trend.Score r)
                           (TrendListOpts.MinScore opts) = true)
              (SQLiteStore.trends s) = SQLiteStore.trends s
            ∨ Qgtb (TrendListOpts.MinScore opts) 0 = false) as Hmin.
    { destruct (Qgtb (TrendListOpts.MinScore opts) 0) eqn:E; [left|by right].
      apply Qgtb_true in E. apply filter_Forall_id.
      eapply Forall_impl; [exact Hall'|]. intros r [Hr _].
      unfold Qgeb. by apply Qle_bool_iff, Hr. }
    assert (filter (λ r, Trend.Alerted r = false) (SQLiteStore.trends s)
            = SQLiteStore.trends s
            ∨ TrendListOpts.Unalerted opts = false) as Hun.
    { destruct (TrendListOpts.Unalerted opts) eqn:E; [left|by right].
      apply filter_Forall_id.
      eapply Forall_impl; [exact Hall'|]. intros r [_ Hr]. by apply Hr. }
    destruct Hmin as [Hmin|Hmin], Hun as [Hun|Hun];
      rewrite ?Hmin, ?Hun; repeat case_match; congruence.
  - eapply StronglySorted_weaken; [|exact Hsorted].
    intros a b Hab. by apply Qle_bool_iff.
  - fold rows in Hlen. lia.
  - intros Hfew. apply Hall. lia.
  - intros r' Hr'. destruct (Hcut r' Hr') as [|[Hfull Hold]]; [by left|].
    right. fold rows in Hfull. split; [lia|].
    intros r Hr. by apply Qle_bool_iff, Hold.
Qed.

(** X22. [ListTrends] returns rows of the trends table that match the
    options (a positive minimum score, unalerted only), highest score
    first, and at most [Limit] of them (50 when the limit is not
    positive). A minimum score that is not positive filters nothing.
    Every matching row is listed unless the limit is reached, and then
    only rows scoring no more than every listed row are left out. *)
Theorem ListTrends_listing (s : SQLiteStore.t) (opts : TrendListOpts.t) :
  let rows := select_trends s opts in
  let limit :=
    if (TrendListOpts.Limit opts <=? 0)%Z
    then 50%Z else TrendListOpts.Limit opts in
  Forall (λ r, r ∈ SQLiteStore.trends s ∧ trend_matches opts r) rows ∧
  by_score_descending rows ∧
  (Z.of_nat (length rows) ≤ limit)%Z ∧
  (∀ r', r' ∈ SQLiteStore.trends s → trend_matches opts r' →
     r' ∈ rows ∨
     (Z.of_nat (length rows) = limit ∧
      ∀ r, r ∈ rows → (Trend.Score r' <= Trend.Score r)%Q)).
Proof.
  intros rows limit.
  destruct (select_trends_cut s opts)
    as (matching & Hmatch & _ & Hin & Hsorted & Hlen & _ & Hcut).
  split; [|split; [done|split; [done|]]].
  - apply Forall_forall. intros r Hr. by apply Hmatch, Hin.
  - intros r' Hr' Hm. apply Hcut. by apply Hmatch.
Qed.

Lemma ListTrends_listing_witness :
  let rows := select_trends trends_db (TrendListOpts.mk 30%Q 0%Z true) in
  Forall (λ r, r ∈ SQLiteStore.trends trends_db
               ∧ trend_matches (TrendListOpts.mk 30%Q 0%Z true) r) rows ∧
  by_score_descending rows ∧
  (Z.of_nat (length rows) ≤ 50)%Z ∧
  (∀ r', r' ∈ SQLiteStore.trends trends_db →
     trend_matches (TrendListOpts.mk 30%Q 0%Z true) r' →
     r' ∈ rows ∨
     (Z.of_nat (length rows) = 50%Z ∧
      ∀ r, r ∈ rows → (Trend.Score r' <= Trend.Score r)%Q)).
Proof.
  exact (ListTrends_listing trends_db (TrendListOpts.mk 30%Q 0%Z true)).
Defined.

(** X23. [UpsertTrend] keeps the ids of the trends table distinct,
    positive and at most the last id given out, and never touches the
    items or the snapshots. A trend without an id is appended under the
    next id, which no row has, and that id is written back to the
    caller. A trend with an id replaces the columns of the row with that
    id except [first_seen]; when no row has the id, nothing changes, and
    no error reports it. *)
Theorem UpsertTrend_ids (s : SQLiteStore.t) (t : Trend.t) :
  trend_ids_ok s →
  let s' := (upsert_trend s t).1 in
  let t' := (upsert_trend s t).2 in
  trend_ids_ok s' ∧
  SQLiteStore.items s' = SQLiteStore.items s ∧
  SQLiteStore.score_snapshots s' = SQLiteStore.score_snapshots s ∧
  ((Trend.ID t ≤ 0)%Z →
   t' = with_ID (SQLiteStore.trends_seq s + 1) t ∧
   SQLiteStore.trends s' = SQLiteStore.trends s ++ [t'] ∧
   Trend.ID t' ∉ Trend.ID <$> SQLiteStore.trends s) ∧
  ((0 < Trend.ID t)%Z →
   t' = t ∧
   SQLiteStore.trends_seq s' = SQLiteStore.trends_seq s ∧
   Trend.ID <$> SQLiteStore.trends s' = Trend.ID <$> SQLiteStore.trends s ∧
   Trend.FirstSeen <$> SQLiteStore.trends s'
     = Trend.FirstSeen <$> SQLiteStore.trends s ∧
   (∀ row, row ∈ SQLiteStore.trends s' →
      if (Trend.ID row =? Trend.ID t)%Z
      then Trend.Topic row = Trend.Topic t ∧
           Trend.Score row = Trend.Score t ∧
           Trend.SourceCount row = Trend.SourceCount t ∧
           Trend.ItemIDs row = Trend.ItemIDs t ∧
           Trend.LastUpdated row = Trend.LastUpdated t ∧
           Trend.Alerted row = Trend.Alerted t
      else row ∈ SQLiteStore.trends s) ∧
   (Trend.ID t ∉ Trend.ID <$> SQLiteStore.trends s →
    SQLiteStore.trends s' = SQLiteStore.trends s)).
Proof.
  intros (Hseq & Hnd & Hids) s' t'. unfold upsert_trend in s', t'.
  destruct (Z.gtb_spec (Trend.ID t) 0) as [Hpos|Hnonpos].
  - set (upd := λ row : Trend.t,
      if (Trend.ID row =? Trend.ID t)%Z
      then Trend.mk (Trend.ID row) (Trend.Topic t) (Trend.Score t)
             (Trend.SourceCount t) (Trend.ItemIDs t)
             (Trend.FirstSeen row) (Trend.LastUpdated t) (Trend.Alerted t)
      else row) in *.
    assert (∀ row, Trend.ID (upd row) = Trend.ID row) as Hid.
    { intros row. unfold upd. by destruct (_ =? _)%Z. }
    assert (∀ row, Trend.FirstSeen (upd row) = Trend.FirstSeen row) as Hfs.
    { intros row. unfold upd. by destruct (_ =? _)%Z. }
    assert (Trend.ID <$> map upd (SQLiteStore.trends s)
            = Trend.ID <$> SQLiteStore.trends s) as Hsame.
    { change (map upd ?l) with (upd <$> l). rewrite <- list_fmap_compose.
      apply list_fmap_ext. intros _ row _. apply Hid. }
    subst s' t'. unfold trend_ids_ok.
    cbn [fst snd SQLiteStore.trends SQLiteStore.items
         SQLiteStore.score_snapshots SQLiteStore.trends_seq].
    split.
    { split; [done|]. split; [by rewrite Hsame|].
      apply Forall_forall. intros row (row0 & -> & Hin)%list_elem_of_fmap.
      rewrite Hid. by apply (proj1 (Forall_forall _ _) Hids). }
    split; [done|]. split; [done|]. split; [lia|]. intros _.
    split; [done|]. split; [done|]. split; [done|]. split.
    { change (map upd ?l) with (upd <$> l). rewrite <- list_fmap_compose.
      apply list_fmap_ext. intros _ row _. apply Hfs. }
    split.
    { intros row (row0 & -> & Hin)%list_elem_of_fmap. rewrite Hid.
      unfold upd. by destruct (Trend.ID row0 =? Trend.ID t)%Z. }
    intros Hnotin. change (map upd ?l) with (upd <$> l).
    rewrite <- (list_fmap_id (SQLiteStore.trends s)) at 2.
    apply list_fmap_ext. intros _ row Hrow%list_elem_of_lookup_2.
    unfold upd. destruct (Z.eqb_spec (Trend.ID row) (Trend.ID t)) as [E|];
      [|done].
    destruct Hnotin. rewrite <- E. by apply list_elem_of_fmap_2.
  - subst s' t'. unfold trend_ids_ok.
    cbn [fst snd SQLiteStore.trends SQLiteStore.items
         SQLiteStore.score_snapshots SQLiteStore.trends_seq].
    assert ((SQLiteStore.trends_seq s + 1)%Z
            ∉ Trend.ID <$> SQLiteStore.trends s) as Hfresh.
    { intros (row & Hrow & Hin)%list_elem_of_fmap.
      apply (proj1 (Forall_forall _ _) Hids) in Hin. lia. }
    split.
    { split; simpl; [lia|]. split.
      - rewrite fmap_app. apply NoDup_app. split; [done|].
        split; [|apply NoDup_singleton].
        intros x Hx ->%list_elem_of_singleton. done.
      - apply Forall_app. split.
        + eapply Forall_impl; [exact Hids|]. intros row ?. simpl in *. lia.
        + apply Forall_singleton. simpl. lia. }
    split; [done|]. split; [done|]. split; [|lia]. intros _.
    by repeat split.
Qed.

Lemma UpsertTrend_ids_witness :
  let t := Trend.mk 0 "Llama 4" 50%Q 1 ["reddit:21"%string] 5%Z 5%Z false in
  let s' := (upsert_trend trends_db t).1 in
  let t' := (upsert_trend trends_db t).2 in
  trend_ids_ok s' ∧
  t' = with_ID 3 t ∧
  SQLiteStore.trends s' = SQLiteStore.trends trends_db ++ [t'].
Proof.
  intros t.
  destruct (UpsertTrend_ids trends_db t) as (Hok & _ & _ & Hnew & _).
  { unfold trend_ids_ok. apply (bool_decide_unpack _). vm_compute.
    reflexivity. }
  destruct Hnew as (Ht' & Hrows & _); [simpl; lia|].
  intros s' t'. split; [exact Hok|]. split; [exact Ht' | exact Hrows].
Defined.

Lemma mark_alerted_rows (s : SQLiteStore.t) (trendID : Z) :
  Trend.ID <$> SQLiteStore.trends (mark_alerted s trendID)
    = Trend.ID <$> SQLiteStore.trends s ∧
  (∀ row, row ∈ SQLiteStore.trends (mark_alerted s trendID) →
     if (Trend.ID row =? trendID)%Z then Trend.Alerted row = true
     else row ∈ SQLiteStore.trends s) ∧
  (∀ row, row ∈ SQLiteStore.trends s → Trend.ID row ≠ trendID →
     row ∈ SQLiteStore.trends (mark_alerted s trendID)).
Proof.
  unfold mark_alerted. cbn [SQLiteStore.trends].
  set (upd := λ row : Trend.t,
    if (Trend.ID row =? trendID)%Z
    then Trend.mk (Trend.ID row) (Trend.Topic row) (Trend.Score row)
           (Trend.SourceCount row) (Trend.ItemIDs row)
           (Trend.FirstSeen row) (Trend.LastUpdated row) true
    else row).
  change (map upd ?l) with (upd <$> l).
  assert (∀ row, Trend.ID (upd row) = Trend.ID row) as Hid.
  { intros row. unfold upd. by destruct (_ =? _)%Z. }
  split; [|split].
  - rewrite <- list_fmap_compose. apply list_fmap_ext. intros _ row _.
    apply Hid.
  - intros row (row0 & -> & Hin)%list_elem_of_fmap. rewrite Hid.
    unfold upd. by destruct (Trend.ID row0 =? trendID)%Z.
  - intros row Hin Hne. apply list_elem_of_fmap. exists row.
    split; [|done]. unfold upd.
    by destruct (Z.eqb_spec (Trend.ID row) trendID).
Qed.

(** X24. After [MarkAlerted], a listing of the unalerted trends never
    shows a trend with the marked id. Marking changes no other row and
    no id, marking twice is the same as marking once, and marking an id
    that no row has changes nothing. *)
Theorem MarkAlerted_listing (s : SQLiteStore.t) (trendID : Z)
    (opts : TrendListOpts.t) :
  TrendListOpts.Unalerted opts = true →
  Forall (λ r, Trend.ID r ≠ trendID ∧ r ∈ SQLiteStore.trends s)
    (select_trends (mark_alerted s trendID) opts) ∧
  Trend.ID <$> SQLiteStore.trends (mark_alerted s trendID)
    = Trend.ID <$> SQLiteStore.trends s ∧
  (∀ row, row ∈ SQLiteStore.trends s → Trend.ID row ≠ trendID →
     row ∈ SQLiteStore.trends (mark_alerted s trendID)) ∧
  mark_alerted (mark_alerted s trendID) trendID = mark_alerted s trendID ∧
  (trendID ∉ Trend.ID <$> SQLiteStore.trends s → mark_alerted s trendID = s).
Proof.
  intros Hun.
  destruct (mark_alerted_rows s trendID) as (Hids & Hrows & Hkeep).
  split; [|split; [done|split; [done|split]]].
  - destruct (select_trends_cut (mark_alerted s trendID) opts)
      as (matching & Hmatch & _ & Hin & _).
    apply Forall_forall. intros r Hr.
    apply Hin, Hmatch in Hr as [Hrow [_ Hal]].
    specialize (Hrows r Hrow). specialize (Hal Hun).
    destruct (Z.eqb_spec (Trend.ID r) trendID) as [E|E]; [congruence|done].
  - unfold mark_alerted. cbn [SQLiteStore.trends SQLiteStore.items
      SQLiteStore.score_snapshots SQLiteStore.trends_seq].
    f_equal. rewrite map_map. apply map_ext. intros row.
    destruct (Z.eqb_spec (Trend.ID row) trendID) as [E|E]; simpl.
    + by rewrite (proj2 (Z.eqb_eq _ _) E).
    + by rewrite (proj2 (Z.eqb_neq _ _) E).
  - intros Hnotin. unfold mark_alerted. destruct s as [its snaps ts sq].
    cbn [SQLiteStore.trends SQLiteStore.items
      SQLiteStore.score_snapshots SQLiteStore.trends_seq] in *.
    f_equal. rewrite <- (map_id ts) at 2. apply map_ext_in.
    intros row Hrow%list_elem_of_In.
    destruct (Z.eqb_spec (Trend.ID row) trendID) as [E|E]; [|done].
    destruct Hnotin. rewrite <- E. by apply list_elem_of_fmap_2.
Qed.

Lemma MarkAlerted_listing_witness :
  Forall (λ r, Trend.ID r ≠ 2%Z ∧ r ∈ SQLiteStore.trends trends_db)
    (select_trends (mark_alerted trends_db 2)
       (TrendListOpts.mk 0%Q 0%Z true)) ∧
  Trend.ID <$> SQLiteStore.trends (mark_alerted trends_db 2)
    = Trend.ID <$> SQLiteStore.trends trends_db ∧
  (∀ row, row ∈ SQLiteStore.trends trends_db → Trend.ID row ≠ 2%Z →
     row ∈ SQLiteStore.trends (mark_alerted trends_db 2)) ∧
  mark_alerted (mark_alerted trends_db 2) 2 = mark_alerted trends_db 2 ∧
  (2%Z ∉ Trend.ID <$> SQLiteStore.trends trends_db →
   mark_alerted trends_db 2 = trends_db).
Proof.
  apply (MarkAlerted_listing trends_db 2 (TrendListOpts.mk 0%Q 0%Z true)).
  reflexivity.
Defined.



(** ** Broadcasting a notification *)

Lemma broadcast_loop {W : Type} (m : list (Notifier.t W))
    (n : Notification.t) :
  ∀ (acc : list error) (w : W),
    st_foldl (λ errs notifier,
        err <~ call (Notifier.Send notifier n);
        match err with
        | Some err =>
            st_ret (errs ++ [wrapError (Notifier.Name notifier ++ ": ") err])
        | None => st_ret errs
        end) acc m w
    = Some (acc ++ omap (λ '(name, err), wrapError (name ++ ": ") <$> err)
                     (send_each m n w).1,
            (send_each m n w).2).
Proof.
  induction m as [|notifier m IH]; intros acc w.
  { simpl. by rewrite app_nil_r. }
  cbn [st_foldl send_each]. unfold st_bind at 1. rewrite call_bind.
  destruct (Notifier.Send notifier n w) as [err w1]. cbn [fst snd].
  destruct (send_each m n w1) as [outcomes w'] eqn:Hrest.
  specialize (IH (match err with
                  | Some err =>
                      acc ++ [wrapError (Notifier.Name notifier ++ ": ") err]
                  | None => acc
                  end) w1).
  rewrite Hrest in IH. cbn [fst snd] in *.
  destruct err as [err|]; unfold st_ret at 1; rewrite IH; simpl.
  - by rewrite <- app_assoc.
  - done.
Qed.

Lemma send_each_length {W : Type} (m : list (Notifier.t W))
    (n : Notification.t) (w : W) :
  fst <$> (send_each m n w).1 = Notifier.Name <$> m.
Proof.
  revert w. induction m as [|notifier m IH]; intros w; [done|].
  cbn [send_each]. destruct (Notifier.Send notifier n w) as [err w1].
  specialize (IH w1). destruct (send_each m n w1) as [outcomes w'].
  cbn [fst snd] in *. by rewrite !fmap_cons, IH.
Qed.

(** X26. [Broadcast] sends the notification to every notifier, once
    each and in order, whether or not an earlier one failed. It returns
    nil exactly when every notifier succeeded; otherwise the joined error
    holds, in order, one error for each notifier that failed, prefixed by
    that notifier's name. *)
Theorem Broadcast_all {W : Type} (m : list (Notifier.t W))
    (n : Notification.t) (w : W) :
  let outcomes := (send_each m n w).1 in
  ∃ res,
    Broadcast m n w = Some (res, (send_each m n w).2) ∧
    fst <$> outcomes = Notifier.Name <$> m ∧
    (res = None ↔ Forall (λ o, o.2 = None) outcomes) ∧
    (∀ errs, res = Some errs →
       errs = omap (λ '(name, err), wrapError (name ++ ": ") <$> err)
                outcomes) ∧
    (HasNotifiers m = false → res = None ∧ (send_each m n w).2 = w).
Proof.
  intros outcomes. eexists. split.
  { unfold Broadcast.
    rewrite (st_bind_Some _ _ _ _ _ (broadcast_loop m n [] w)). reflexivity. }
  split; [apply send_each_length|]. fold outcomes. simpl.
  set (errs := omap _ outcomes).
  assert (errs = [] ↔ Forall (λ o, o.2 = None) outcomes) as Hnil.
  { unfold errs. clear. induction outcomes as [|[name [err|]] os IH]; simpl.
    - split; [constructor | done].
    - split; [done|]. by intros [[=] _]%Forall_cons.
    - rewrite IH. split; [by constructor | by intros [_ ?]%Forall_cons]. }
  split; [|split].
  - rewrite <- Hnil. unfold errors_Join. by destruct errs.
  - intros errs'. unfold errors_Join. destruct errs; [done|].
    by intros [= <-].
  - unfold HasNotifiers. destruct m; [|done]. intros _. by subst errs.
Qed.

Lemma Broadcast_all_witness :
  let m := [notifier_down "slack"; notifier_ok "discord"]%string in
  let n := Notification.mk "GPT-5" EmptyString EmptyString 72%Q [] [] in
  ∃ res,
    Broadcast m n down_world = Some (res, (send_each m n down_world).2) ∧
    res = Some [wrapError "slack: " (errorString "status 500")] ∧
    length (Sim.stdout (send_each m n down_world).2) = 2.
Proof.
  intros m n.
  destruct (Broadcast_all m n down_world) as (res & Hrun & _ & _ & Herrs & _).
  exists res. split; [exact Hrun|].
  destruct res as [errs|]; [|by vm_compute in Hrun].
  split; [|reflexivity]. f_equal. by apply Herrs.
Defined.

(** ** The keyword filter *)

Lemma strings_Contains_empty (s : string) :
  strings_Contains s EmptyString = true.
Proof. unfold strings_Contains, strings_Index. by destruct s. Qed.

Lemma existsb_map {A B : Type} (f : A → B) (p : B → bool) (l : list A) :
  existsb p (map f l) = existsb (λ x, p (f x)) l.
Proof. induction l as [|x l IH]; simpl; [done | by rewrite IH]. Qed.

(** X27. The keyword filter. An excluded keyword found in the text
    overrides every keyword; when none is found, the filter matches what
    the default keywords match and what the extra keywords match, all
    compared in lower case; so with no extra and no excluded keyword it
    agrees with [MatchesAIDefault]. Where the lower case of the empty
    string is empty, an empty excluded keyword rejects every text, and an
    empty extra keyword accepts every text that is not excluded. *)
Theorem MatchesAI_keywords `{GoLib} (extra excl : list string)
    (text : string) :
  let lower := strings_ToLower text in
  let hit := λ kw, strings_Contains lower (strings_ToLower kw) in
  MatchesAI (NewFilter extra excl) text
    = negb (existsb hit excl)
      && (MatchesAIDefault text || existsb hit extra) ∧
  MatchesAI (NewFilter [] []) text = MatchesAIDefault text ∧
  (strings_ToLower EmptyString = EmptyString →
   (EmptyString ∈ excl → MatchesAI (NewFilter extra excl) text = false) ∧
   (EmptyString ∈ extra →
    MatchesAI (NewFilter extra excl) text = negb (existsb hit excl))).
Proof.
  intros lower hit.
  assert (∀ extra excl,
            MatchesAI (NewFilter extra excl) text
            = negb (existsb hit excl)
              && (MatchesAIDefault text || existsb hit extra)) as Hgen.
  { clear extra excl. intros extra excl.
    unfold MatchesAI, NewFilter, MatchesAIDefault.
    cbn [Filter.keywords Filter.exclude]. fold lower.
    rewrite !existsb_map, existsb_app. fold hit.
    by destruct (existsb hit excl). }
  assert (∀ l, EmptyString ∈ l → strings_ToLower EmptyString = EmptyString →
               existsb hit l = true) as Hempty.
  { intros l Hin Hlow. apply existsb_exists. exists EmptyString.
    split; [by apply list_elem_of_In|]. unfold hit. rewrite Hlow.
    apply strings_Contains_empty. }
  split; [apply Hgen|]. split.
  - rewrite Hgen. simpl. by rewrite orb_false_r.
  - intros Hlow. split; intros Hin; rewrite Hgen.
    + by rewrite (Hempty excl Hin Hlow).
    + by rewrite (Hempty extra Hin Hlow), orb_true_r, andb_true_r.
Qed.

Lemma MatchesAI_keywords_witness :
  let text := "Zig 0.14 released"%string in
  let lower := strings_ToLower text in
  let hit := λ kw, strings_Contains lower (strings_ToLower kw) in
  MatchesAIDefault text = false ∧
  MatchesAI (NewFilter ["zig"%string] []) text = true ∧
  MatchesAI (NewFilter ["zig"%string] [EmptyString]) text = false.
Proof.
  intros text lower hit.
  destruct (MatchesAI_keywords ["zig"%string] [] text) as (Hgen & _ & _).
  destruct (MatchesAI_keywords ["zig"%string] [EmptyString] text)
    as (_ & _ & Hedge).
  split; [vm_compute; reflexivity|]. split.
  - rewrite Hgen. vm_compute. reflexivity.
  - apply (proj1 (Hedge eq_refl)). left.
Defined.

(** ** The evaluator as configured *)

Section Configured.
Context {G : GoLib} {W : Type} `{World W}.

Lemma EvaluateItems_minimum (e : LLMEvaluator.t) (items : list Item.t)
    (w : W) :
  ∃ results err w',
    EvaluateItems e items w = Some ((results, err), w') ∧
    Forall (λ r, (LLMEvaluator.minScore e
                  <= float64_of_int (LLMResult.Score r))%Q) results.
Proof.
  unfold EvaluateItems. destruct items as [|item items].
  { by eexists [], None, w. }
  cbn [length Nat.eqb]. set (prompt := (_ ++ _)%string). clearbody prompt.
  destruct (call_provider e prompt w) as (raw & err & w' & Hcall & _).
  rewrite (st_bind_Some _ _ _ _ _ Hcall).
  destruct err as [err|]; [by eexists [], (Some err), w'|].
  destruct (json_Unmarshal_results _) as [results [perr|]].
  { by eexists [], (Some _), w'. }
  eexists _, None, w'. split; [done|].
  apply Forall_forall. intros r [Hr _]%list_elem_of_filter.
  unfold Qgeb in Hr. by apply Qle_bool_iff.
Qed.

(** X28. An evaluator made by [NewLLMEvaluator] has a model name and a
    positive minimum score: an empty model name is replaced by the
    provider's default, a minimum that is not positive by 6. So every
    result such an evaluator lets through has a score of at least 1, and
    of at least 6 when the minimum was left unset. *)
Theorem NewLLMEvaluator_minimum (provider model apiKey baseURL : string)
    (minScore : float64) (items : list Item.t) (w : W) :
  let e := NewLLMEvaluator provider model apiKey baseURL minScore in
  LLMEvaluator.model e ≠ EmptyString ∧
  (model ≠ EmptyString → LLMEvaluator.model e = model) ∧
  (0 < LLMEvaluator.minScore e)%Q ∧
  ((0 < minScore)%Q → LLMEvaluator.minScore e = minScore) ∧
  ∃ results err w',
    EvaluateItems e items w = Some ((results, err), w') ∧
    Forall (λ r, (1 ≤ LLMResult.Score r)%Z ∧
                 ((minScore <= 0)%Q → (6 ≤ LLMResult.Score r)%Z)) results.
Proof.
  intros e.
  assert (LLMEvaluator.model e ≠ EmptyString ∧
          (model ≠ EmptyString → LLMEvaluator.model e = model)) as [Hm Hm'].
  { unfold e, NewLLMEvaluator. cbn [LLMEvaluator.model].
    destruct (String.eqb_spec model EmptyString) as [->|Hne].
    - split; [|done]. by destruct (String.eqb provider "anthropic").
    - done. }
  assert ((0 < LLMEvaluator.minScore e)%Q ∧
          ((0 < minScore)%Q → LLMEvaluator.minScore e = minScore) ∧
          ((minScore <= 0)%Q → LLMEvaluator.minScore e = 6%Q))
    as (Hpos & Hkeep & Hdef).
  { unfold e, NewLLMEvaluator. cbn [LLMEvaluator.minScore].
    destruct (Qle_bool minScore 0) eqn:E.
    - apply Qle_bool_iff in E. split; [done|]. split; [|done].
      intros Hlt. exfalso. by apply (Qlt_not_le _ _ Hlt).
    - apply Qle_bool_false in E. split; [done|]. split; [done|].
      intros Hle. exfalso. by apply (Qlt_not_le _ _ E). }
  split; [done|]. split; [done|]. split; [done|]. split; [done|].
  destruct (EvaluateItems_minimum e items w)
    as (results & err & w' & Hrun & Hmin).
  exists results, err, w'. split; [done|].
  eapply Forall_impl; [exact Hmin|]. intros r Hr. unfold float64_of_int in Hr.
  split.
  - assert (0 < inject_Z (LLMResult.Score r))%Q as Hs
      by (by eapply Qlt_le_trans).
    apply inject_Z_pos in Hs. lia.
  - intros Hle. rewrite (Hdef Hle) in Hr.
    change 6%Q with (inject_Z 6) in Hr. by rewrite Zle_Qle.
Qed.
End Configured.

Lemma NewLLMEvaluator_minimum_witness :
  let e := NewLLMEvaluator "anthropic" EmptyString "sk-test" EmptyString 0%Q in
  LLMEvaluator.model e = "claude-sonnet-4-20250514"%string ∧
  LLMEvaluator.minScore e = 6%Q ∧
  ∃ results err w',
    EvaluateItems e three_items empty_reply_world
      = Some ((results, err), w') ∧
    Forall (λ r, (1 ≤ LLMResult.Score r)%Z ∧
                 ((0 <= 0)%Q → (6 ≤ LLMResult.Score r)%Z)) results.
Proof.
  intros e.
  destruct (NewLLMEvaluator_minimum "anthropic" EmptyString "sk-test"
              EmptyString 0%Q three_items empty_reply_world)
    as (_ & _ & _ & _ & Hrun).
  split; [reflexivity|]. split; [reflexivity | exact Hrun].
Defined.

(** ** Code fences around the reply *)

Lemma string_app_assoc (a b c : string) :
  ((a ++ b) ++ c = a ++ (b ++ c))%string.
Proof.
  induction a as [|x a IH]; [done|].
  change (String x ((a ++ b) ++ c) = String x (a ++ b ++ c))%string.
  by rewrite IH.
Qed.

Lemma prefix_app (p s : string) : String.prefix p (p ++ s) = true.
Proof.
  induction p as [|x p IH]; simpl; [by destruct s|].
  by destruct (Ascii.ascii_dec x x).
Qed.

Lemma substring_all (s : string) :
  String.substring 0 (String.length s) s = s.
Proof. induction s as [|x s IH]; simpl; [done | by rewrite IH]. Qed.

Lemma substring_app_l (a b : string) :
  String.substring 0 (String.length a) (a ++ b) = a.
Proof.
  induction a as [|x a IH]; simpl; [by destruct b | by rewrite IH].
Qed.

Lemma substring_app_r (a b : string) (m : nat) :
  String.substring (String.length a) m (a ++ b) = String.substring 0 m b.
Proof. induction a as [|x a IH]; simpl; done. Qed.

Lemma slice_from_app (a b : string) :
  slice_from (String.length a) (a ++ b) = b.
Proof.
  unfold slice_from. rewrite substring_app_r, string_app_length.
  replace (String.length a + String.length b - String.length a)
    with (String.length b) by lia.
  apply substring_all.
Qed.

Lemma index_first_newline (lang rest : string) :
  strings_Index lang newline = None →
  strings_Index (lang ++ newline ++ rest) newline
  = Some (String.length lang).
Proof.
  unfold strings_Index, newline.
  induction lang as [|c lang IH]; intros Hnone.
  { change (String.index 0 (String (ascii_of_nat 10) EmptyString)
              (String (ascii_of_nat 10) rest) = Some 0).
    by destruct rest. }
  change (String.index 0 (String (ascii_of_nat 10) EmptyString)
            (String c (lang ++ String (ascii_of_nat 10) EmptyString ++ rest))
          = Some (S (String.length lang))).
  cbn [String.index String.prefix] in *.
  destruct (Ascii.ascii_dec (ascii_of_nat 10) c) as [->|Hne].
  { by destruct lang. }
  destruct (String.index 0 (String (ascii_of_nat 10) EmptyString) lang);
    [done|].
  by rewrite IH.
Qed.

(** X29. A reply wrapped in a markdown code fence is unwrapped: for a
    reply that opens with three backquotes and a language tag on the
    first line and closes with three backquotes, [stripFence] returns the
    text between, trimmed. A reply that, once trimmed, does not open
    with a fence is only trimmed. *)
Theorem stripFence_fenced `{GoLib} (lang body : string) :
  strings_Index lang newline = None →
  strings_TrimSpace (fence ++ lang ++ newline ++ body ++ fence)
    = (fence ++ lang ++ newline ++ body ++ fence)%string →
  stripFence (fence ++ lang ++ newline ++ body ++ fence)
    = strings_TrimSpace body ∧
  ∀ raw, strings_HasPrefix (strings_TrimSpace raw) fence = false →
         stripFence raw = strings_TrimSpace raw.
Proof.
  intros Hlang Htrim. split.
  - set (raw := (fence ++ lang ++ newline ++ body ++ fence)%string) in *.
    assert (strings_HasPrefix raw fence = true) as H1 by apply prefix_app.
    assert (slice_from 3 raw = (lang ++ newline ++ body ++ fence)%string)
      as H2 by apply (slice_from_app fence).
    assert (strings_Index (slice_from 3 raw) newline
            = Some (String.length lang)) as H3.
    { rewrite H2. by apply index_first_newline. }
    assert (slice_from (3 + String.length lang + 1) raw
            = (body ++ fence)%string) as H4.
    { replace (3 + String.length lang + 1)
        with (String.length (fence ++ lang ++ newline)).
      2: { rewrite !string_app_length. simpl. lia. }
      unfold raw.
      replace (fence ++ lang ++ newline ++ body ++ fence)%string
        with ((fence ++ lang ++ newline) ++ body ++ fence)%string.
      2: { by rewrite !string_app_assoc. }
      apply slice_from_app. }
    assert (strings_HasSuffix (body ++ fence) fence = true) as H5.
    { unfold strings_HasSuffix. rewrite string_app_length.
      replace (String.length body + String.length fence
               - String.length fence) with (String.length body) by lia.
      rewrite slice_from_app, String.eqb_refl, andb_true_r.
      apply Nat.leb_le. lia. }
    assert (slice_to (String.length (body ++ fence) - 3) (body ++ fence)
            = body) as H6.
    { unfold slice_to. rewrite string_app_length.
      replace (String.length body + String.length fence - 3)
        with (String.length body) by (simpl; lia).
      apply substring_app_l. }
    unfold stripFence. rewrite Htrim. cbv zeta.
    by rewrite H1, H3, H4, H5, H6.
  - intros raw Hraw. unfold stripFence. by rewrite Hraw.
Qed.

Lemma stripFence_fenced_witness :
  stripFence (fence ++ "json" ++ newline ++ "[]" ++ newline ++ fence)
    = "[]"%string.
Proof.
  destruct (stripFence_fenced "json" ("[]" ++ newline)) as [Hfenced _].
  - reflexivity.
  - vm_compute. reflexivity.
  - exact Hfenced.
Defined.

(** ** Storing a batch of items *)

(** X30. [UpsertItems] is not atomic: it upserts the items in order and
    stops at the first one that fails, returning that item's error. The
    items before it stay upserted, the items after it are not attempted;
    it returns nil exactly when every item was upserted. *)
Theorem UpsertItems_prefix {W : Type}
    (UpsertItem : Item.t → W → option error * W)
    (items : list Item.t) (w : W) :
  ∃ err k,
    UpsertItems UpsertItem items w
      = Some (err, upserted UpsertItem (take k items) w) ∧
    k ≤ length items ∧
    (∀ i item, i < k - (if err then 1 else 0) → items !! i = Some item →
       (UpsertItem item (upserted UpsertItem (take i items) w)).1 = None) ∧
    match err with
    | None => k = length items
    | Some e =>
        ∃ item, items !! (k - 1) = Some item ∧ 0 < k ∧
          (UpsertItem item (upserted UpsertItem (take (k - 1) items) w)).1
            = Some e
    end.
Proof.
  revert w. induction items as [|item items IH]; intros w.
  { exists None, 0. simpl. split; [done|]. split; [done|].
    split; [|done]. intros i it Hi. lia. }
  cbn [UpsertItems]. rewrite call_bind.
  destruct (UpsertItem item w) as [[e|] w1] eqn:Hstep.
  - exists (Some e), 1. unfold upserted. cbn [take foldl fst snd].
    rewrite Hstep. cbn [snd]. split; [done|]. split; [simpl; lia|].
    split; [intros i it Hi; lia|].
    exists item. split; [done|]. split; [lia|]. simpl. by rewrite Hstep.
  - cbn [fst snd].
    destruct (IH w1) as (err & k & Hrun & Hk & Hbefore & Hlast).
    exists err, (S k). rewrite Hrun. unfold upserted in *.
    cbn [take foldl]. rewrite Hstep. cbn [snd].
    split; [done|]. split; [simpl; lia|]. split.
    + intros [|i] it Hi Hit.
      * simpl in Hit. injection Hit as <-. simpl. by rewrite Hstep.
      * cbn [take foldl]. rewrite Hstep. cbn [snd].
        apply Hbefore; [|done]. destruct err; lia.
    + destruct err as [e|]; [|simpl; lia].
      destruct Hlast as (it & Hit & Hpos & Hfail).
      exists it. replace (S k - 1) with (S (k - 1)) by lia.
      split; [done|]. split; [lia|].
      cbn [take foldl]. rewrite Hstep. done.
Qed.

Lemma UpsertItems_prefix_witness :
  let items := [item "rss:1" "rss" "Mistral Large 3" 0;
                item "rss:2" "rss" EmptyString 0;
                item "rss:3" "rss" "Gemma 4" 0] in
  let w := SQLiteStore.mk [] [] [] 0%Z in
  ∃ err k,
    UpsertItems upsert_titled items w
      = Some (err, upserted upsert_titled (take k items) w) ∧
    k ≤ length items ∧
    (∀ i item, i < k - (if err then 1 else 0) → items !! i = Some item →
       (upsert_titled item (upserted upsert_titled (take i items) w)).1
         = None) ∧
    match err with
    | None => k = length items
    | Some e =>
        ∃ item, items !! (k - 1) = Some item ∧ 0 < k ∧
          (upsert_titled item
             (upserted upsert_titled (take (k - 1) items) w)).1 = Some e
    end.
Proof.
  intros items w. exact (UpsertItems_prefix upsert_titled items w).
Defined.
